(** * obj_tables expression engine: tokenizer, evaluator wrapper and linearity validator

    A shallow embedding of [obj_tables/math/expression.py]:
    - [ParsedExpression]: [__init__], [_match_tokens], [_get_related_obj_id],
      [_get_disambiguated_id], [_get_func_call_id], [tokenize], [_compile],
      [recreate_whitespace], [eval], [test_eval];
    - [LinearParsedExpressionValidator]: the syntax-tree checks, the rewrite
      passes (with [MoveCoeffsToLeft], which [_validate] does not use) and
      the extraction of linear coefficients.

    Python dictionaries are [gmap]s, Python sets are duplicate-free lists in
    insertion order, exceptions are an explicit [result] type.  Calls into
    the Python runtime ([tokenize.tokenize], [compile], [eval], [ast.parse],
    [re.sub], [str.isidentifier]) are arguments of the functions that use
    them. *)

From Stdlib Require Import ZArith Lia Bool Ascii.
From stdpp Require Import base tactics option list strings gmap fin_maps pretty.

Local Open Scope string_scope.
Local Open Scope list_scope.

Set Warnings "-clear-no-such-hyp".

(** ** Exceptions *)

Inductive exn :=
| ParsedExpressionError (msg : string)
| ValueError (msg : string)
| KeyError (key : string)
| SyntaxError (msg : string)
| NameError (msg : string)
| TypeError (msg : string)
| RecursionError
| OutOfFuel
| OtherException (cls : string) (msg : string).

Inductive result (A : Type) :=
| Ok (a : A)
| Raise (e : exn).
Arguments Ok {A} a.
Arguments Raise {A} e.

Definition bind {A B} (r : result A) (k : A -> result B) : result B :=
  match r with
  | Ok a => k a
  | Raise e => Raise e
  end.

Notation "'do' x <- r 'in' k" := (bind r (fun x => k))
  (at level 10, x name, r at level 100, k at level 200, only parsing).

(** ** Python string helpers *)

(** The double quote character, as a string *)
Definition dquote : string := String (ascii_of_nat 34) EmptyString.

(** [sep.join(l)] *)
Fixpoint join (sep : string) (l : list string) : string :=
  match l with
  | [] => ""
  | [s] => s
  | s :: rest => s +:+ sep +:+ join sep rest
  end.

(** [s.startswith(p)] *)
Fixpoint startswith (p s : string) : bool :=
  match p, s with
  | EmptyString, _ => true
  | String a p', String b s' => if Ascii.eqb a b then startswith p' s' else false
  | String _ _, EmptyString => false
  end.

(** [s[n:]] *)
Fixpoint str_drop (n : nat) (s : string) : string :=
  match n, s with
  | O, _ => s
  | S n', String _ s' => str_drop n' s'
  | S _, EmptyString => EmptyString
  end.

(** [' ' * n] for an integer [n] (empty when [n <= 0]) *)
Definition spaces (n : Z) : string :=
  Nat.iter (Z.to_nat n) (String " "%char) "".

Definition is_space (c : Ascii.ascii) : bool :=
  let n := Ascii.nat_of_ascii c in
  Nat.eqb n 32 || (Nat.leb 9 n && Nat.leb n 13) || (Nat.leb 28 n && Nat.leb n 31).

Fixpoint lstrip (s : string) : string :=
  match s with
  | String c s' => if is_space c then lstrip s' else s
  | EmptyString => EmptyString
  end.

Fixpoint rstrip (s : string) : string :=
  match s with
  | EmptyString => EmptyString
  | String c s' =>
      match rstrip s' with
      | EmptyString => if is_space c then EmptyString else String c EmptyString
      | r => String c r
      end
  end.

(** [s.strip()] *)
Definition strip (s : string) : string := rstrip (lstrip s).

(** Is [p] a substring of [s]? *)
Fixpoint contains (p s : string) : bool :=
  startswith p s ||
  match s with
  | EmptyString => false
  | String _ s' => contains p s'
  end.

(** * The linearity validator *)

Module Ast.

(** ** Syntax trees

    The node classes that [ast.parse] can build from the tokens of a parsed
    expression.  A numeric literal is a Python [int] or a [complex] with
    integer parts (an imaginary literal such as [2j]); binary64 literals and
    their rounding are outside the embedding. *)

Inductive pynum :=
| PyInt (z : Z)
| PyComplex (re im : Z).

Global Instance pynum_eq_dec : EqDecision pynum.
Proof. solve_decision. Defined.

(** [a * b] *)
Definition pynum_mul (a b : pynum) : pynum :=
  match a, b with
  | PyInt x, PyInt y => PyInt (x * y)
  | PyInt x, PyComplex re im => PyComplex (x * re) (x * im)
  | PyComplex re im, PyInt y => PyComplex (re * y) (im * y)
  | PyComplex re im, PyComplex re' im' =>
      PyComplex (re * re' - im * im') (re * im' + im * re')
  end.

(** [float(n)]: the value, or the message of the [TypeError]; the float of
    an integer is written as that integer. *)
Definition py_float (n : pynum) : Z + string :=
  match n with
  | PyInt z => inl z
  | PyComplex _ _ => inr "float() argument must be a string or a real number, not 'complex'"
  end.

Inductive unaryop := UAdd | USub.
Inductive operator := Add | Sub | Mult | Div | Pow.
Inductive cmpop := Eq | NotEq | Lt | LtE | Gt | GtE.

Inductive node_class :=
| Compare (ops : list cmpop)
| Call
| Attribute (attr : string)
| Subscript
| Tuple
| List
| Starred
| keyword.

Unset Elimination Schemes.
Inductive ast :=
| Num (n : pynum)
| Name (id : string)
| UnaryOp (op : unaryop) (operand : ast)
| BinOp (left : ast) (op : operator) (right : ast)
| Node (cls : node_class) (children : list ast).
Set Elimination Schemes.

(** Every object [ast.walk] yields: expression nodes, operator nodes and the
    [Load] context of names. *)
Inductive pynode :=
| NAst (e : ast)
| NUnaryop (op : unaryop)
| NOperator (op : operator)
| NCmpop (op : cmpop)
| NLoad.

Global Instance unaryop_eq_dec : EqDecision unaryop.
Proof. solve_decision. Defined.
Global Instance operator_eq_dec : EqDecision operator.
Proof. solve_decision. Defined.
Global Instance cmpop_eq_dec : EqDecision cmpop.
Proof. solve_decision. Defined.
Global Instance node_class_eq_dec : EqDecision node_class.
Proof. solve_decision. Defined.

Definition has_ctx (cls : node_class) : bool :=
  match cls with
  | Attribute _ | Subscript | Tuple | List | Starred => true
  | Compare _ | Call | keyword => false
  end.

(** [ast.iter_child_nodes]: the child nodes in the order of [_fields]. *)
Definition iter_child_nodes (n : pynode) : list pynode :=
  match n with
  | NAst (Num _) => []
  | NAst (Name _) => [NLoad]
  | NAst (UnaryOp op e) => [NUnaryop op; NAst e]
  | NAst (BinOp l op r) => [NAst l; NOperator op; NAst r]
  | NAst (Node (Compare ops) (l :: cs)) => NAst l :: map NCmpop ops ++ map NAst cs
  | NAst (Node cls cs) => map NAst cs ++ (if has_ctx cls then [NLoad] else [])
  | _ => []
  end.

(** Number of objects reachable from a node. *)
Fixpoint ast_size (e : ast) : nat :=
  match e with
  | Num _ => 1
  | Name _ => 2
  | UnaryOp _ e => 2 + ast_size e
  | BinOp l _ r => 2 + ast_size l + ast_size r
  | Node cls cs =>
      2 + (match cls with Compare ops => length ops | _ => 0 end)
        + (fix go (l : list ast) : nat :=
             match l with
             | [] => 0
             | c :: l' => ast_size c + go l'
             end) cs
  end.

Definition node_size (n : pynode) : nat :=
  match n with
  | NAst e => ast_size e
  | _ => 1
  end.

Definition queue_size (q : list pynode) : nat :=
  foldr (fun n acc => node_size n + acc) 0 q.

(** [ast.walk]: a queue, popped on the left, children appended on the right. *)
Fixpoint walk_queue (fuel : nat) (todo : list pynode) : list pynode :=
  match fuel, todo with
  | S fuel', n :: rest => n :: walk_queue fuel' (rest ++ iter_child_nodes n)
  | _, _ => []
  end.

Definition walk (e : ast) : list pynode :=
  walk_queue (ast_size e) [NAst e].

(** ** Structural equality: [ast_eq] compares the dumps of two trees *)

Fixpoint ast_eq (a b : ast) : bool :=
  match a, b with
  | Num n, Num m => bool_decide (n = m)
  | Name x, Name y => bool_decide (x = y)
  | UnaryOp o e, UnaryOp o' e' => bool_decide (o = o') && ast_eq e e'
  | BinOp l o r, BinOp l' o' r' =>
      ast_eq l l' && bool_decide (o = o') && ast_eq r r'
  | Node c cs, Node c' cs' =>
      bool_decide (c = c') &&
      (fix go (l l' : list ast) : bool :=
         match l, l' with
         | [], [] => true
         | x :: l, y :: l' => ast_eq x y && go l l'
         | _, _ => false
         end) cs cs'
  | _, _ => false
  end.

(** ** The rewrite passes ([ast.NodeTransformer] subclasses)

    Each [visit] first rewrites the children ([generic_visit]) and then the
    node itself. *)

Definition is_add_sub (op : operator) : bool :=
  match op with Add | Sub => true | _ => false end.

(** [isinstance(e, (ast.Num, ast.Name, ast.UnaryOp, ast.BinOp))] *)
Definition is_simple_operand (e : ast) : bool :=
  match e with
  | Num _ | Name _ | UnaryOp _ _ | BinOp _ _ _ => true
  | Node _ _ => false
  end.

(** [RemoveUnaryOps]: [+x] to [x], [-x] to [-1 * x]. *)
Fixpoint RemoveUnaryOps (e : ast) : ast :=
  match e with
  | UnaryOp op operand =>
      let operand' := RemoveUnaryOps operand in
      match op with
      | UAdd => operand'
      | USub => BinOp (Num (PyInt (-1))) Mult operand'
      end
  | BinOp l op r => BinOp (RemoveUnaryOps l) op (RemoveUnaryOps r)
  | Node cls cs => Node cls (map RemoveUnaryOps cs)
  | Num _ | Name _ => e
  end.

Definition MultiplyNums_node (e : ast) : ast :=
  match e with
  | BinOp (Num a) Mult (Num b) => Num (pynum_mul a b)
  | BinOp (Num a) Mult (BinOp (Num b) Mult rr) => BinOp (Num (pynum_mul a b)) Mult rr
  | _ => e
  end.

(** [MultiplyNums]: fold products of adjacent numbers. *)
Fixpoint MultiplyNums (e : ast) : ast :=
  match e with
  | BinOp l op r => MultiplyNums_node (BinOp (MultiplyNums l) op (MultiplyNums r))
  | UnaryOp op operand => UnaryOp op (MultiplyNums operand)
  | Node cls cs => Node cls (map MultiplyNums cs)
  | Num _ | Name _ => e
  end.

Definition DistributeMult_node (e : ast) : ast :=
  match e with
  | BinOp l Mult r =>
      match l with
      | BinOp ll lop lr =>
          if is_simple_operand r && is_add_sub lop
          then BinOp (BinOp ll Mult r) lop (BinOp lr Mult r)
          else
            match r with
            | BinOp rl rop rr =>
                if is_add_sub rop
                then BinOp (BinOp l Mult rl) rop (BinOp l Mult rr)
                else e
            | _ => e
            end
      | _ =>
          match r with
          | BinOp rl rop rr =>
              if is_simple_operand l && is_add_sub rop
              then BinOp (BinOp l Mult rl) rop (BinOp l Mult rr)
              else e
          | _ => e
          end
      end
  | _ => e
  end.

(** [DistributeMult]: [(a +/- b) * c] and [a * (b +/- c)]. *)
Fixpoint DistributeMult (e : ast) : ast :=
  match e with
  | BinOp l op r => DistributeMult_node (BinOp (DistributeMult l) op (DistributeMult r))
  | UnaryOp op operand => UnaryOp op (DistributeMult operand)
  | Node cls cs => Node cls (map DistributeMult cs)
  | Num _ | Name _ => e
  end.

Definition DistributeSub_node (e : ast) : ast :=
  match e with
  | BinOp l Sub r =>
      match r with
      | Name _ | Num _ => BinOp l Add (BinOp (Num (PyInt (-1))) Mult r)
      | BinOp rl rop rr =>
          if is_add_sub rop
          then BinOp l Add (BinOp (BinOp (Num (PyInt (-1))) Mult rl) rop
                                  (BinOp (Num (PyInt (-1))) Mult rr))
          else
            match rop with
            | Mult => BinOp l Add (BinOp (BinOp (Num (PyInt (-1))) Mult rl) rop rr)
            | _ => e
            end
      | _ => e
      end
  | _ => e
  end.

(** [DistributeSub]: subtraction becomes addition of [-1] times the
    subtrahend. *)
Fixpoint DistributeSub (e : ast) : ast :=
  match e with
  | BinOp l op r => DistributeSub_node (BinOp (DistributeSub l) op (DistributeSub r))
  | UnaryOp op operand => UnaryOp op (DistributeSub operand)
  | Node cls cs => Node cls (map DistributeSub cs)
  | Num _ | Name _ => e
  end.

End Ast.

(** * Python tokens *)

(** The token numbers of the [token] module that the code names, and a
    catch-all for the remaining exact operator types. *)
Inductive token_code :=
| ENDMARKER | NAME | NUMBER | STRING | NEWLINE | INDENT | DEDENT
| LPAR | RPAR | LSQB | RSQB | COMMA | PLUS | MINUS | STAR | SLASH
| LESS | GREATER | DOT | EQEQUAL | NOTEQUAL | LESSEQUAL | GREATEREQUAL
| DOUBLESTAR | OP | ERRORTOKEN | COMMENT | NL | ENCODING
| OtherOp (name : string).

Global Instance token_code_eq_dec : EqDecision token_code.
Proof. solve_decision. Defined.

(** [token.tok_name] *)
Definition tok_name (c : token_code) : string :=
  match c with
  | ENDMARKER => "ENDMARKER" | NAME => "NAME" | NUMBER => "NUMBER"
  | STRING => "STRING" | NEWLINE => "NEWLINE" | INDENT => "INDENT"
  | DEDENT => "DEDENT" | LPAR => "LPAR" | RPAR => "RPAR" | LSQB => "LSQB"
  | RSQB => "RSQB" | COMMA => "COMMA" | PLUS => "PLUS" | MINUS => "MINUS"
  | STAR => "STAR" | SLASH => "SLASH" | LESS => "LESS" | GREATER => "GREATER"
  | DOT => "DOT" | EQEQUAL => "EQEQUAL" | NOTEQUAL => "NOTEQUAL"
  | LESSEQUAL => "LESSEQUAL" | GREATEREQUAL => "GREATEREQUAL"
  | DOUBLESTAR => "DOUBLESTAR" | OP => "OP" | ERRORTOKEN => "ERRORTOKEN"
  | COMMENT => "COMMENT" | NL => "NL" | ENCODING => "ENCODING"
  | OtherOp name => name
  end.

(** A [tokenize.TokenInfo]; positions are (row, column) pairs. *)
Record TokenInfo := {
  tok_type : token_code;
  exact_type : token_code;
  tok_string : string;
  tok_start : nat * nat;
  tok_end : nat * nat;
}.

Global Instance TokenInfo_eq_dec : EqDecision TokenInfo.
Proof. solve_decision. Defined.

(** * The data model of [ParsedExpression] *)

(** A model class that can be a term of an expression, with the [Meta]
    attributes the engine reads. *)
Record ModelType := {
  __name__ : string;
  expression_term_token_pattern : list token_code;
  (** [Meta.expression_term_model] is set: terms hold a nested expression *)
  expression_term_model : bool;
  (** [Meta.expression_term_value] is set: terms hold a stored value *)
  expression_term_value : bool;
}.

Global Instance ModelType_eq_dec : EqDecision ModelType.
Proof. solve_decision. Defined.

Definition token_code_encode : token_code -> nat + string :=
  (fun c => match c with
              | ENDMARKER => inl 0 | NAME => inl 1 | NUMBER => inl 2
              | STRING => inl 3 | NEWLINE => inl 4 | INDENT => inl 5
              | DEDENT => inl 6 | LPAR => inl 7 | RPAR => inl 8
              | LSQB => inl 9 | RSQB => inl 10 | COMMA => inl 11
              | PLUS => inl 12 | MINUS => inl 13 | STAR => inl 14
              | SLASH => inl 15 | LESS => inl 16 | GREATER => inl 17
              | DOT => inl 18 | EQEQUAL => inl 19 | NOTEQUAL => inl 20
              | LESSEQUAL => inl 21 | GREATEREQUAL => inl 22
              | DOUBLESTAR => inl 23 | OP => inl 24 | ERRORTOKEN => inl 25
              | COMMENT => inl 26 | NL => inl 27 | ENCODING => inl 28
              | OtherOp name => inr name
              end).

Definition token_code_decode : nat + string -> token_code :=
  (fun x => match x with
              | inl 0 => ENDMARKER | inl 1 => NAME | inl 2 => NUMBER
              | inl 3 => STRING | inl 4 => NEWLINE | inl 5 => INDENT
              | inl 6 => DEDENT | inl 7 => LPAR | inl 8 => RPAR
              | inl 9 => LSQB | inl 10 => RSQB | inl 11 => COMMA
              | inl 12 => PLUS | inl 13 => MINUS | inl 14 => STAR
              | inl 15 => SLASH | inl 16 => LESS | inl 17 => GREATER
              | inl 18 => DOT | inl 19 => EQEQUAL | inl 20 => NOTEQUAL
              | inl 21 => LESSEQUAL | inl 22 => GREATEREQUAL
              | inl 23 => DOUBLESTAR | inl 24 => OP | inl 25 => ERRORTOKEN
              | inl 26 => COMMENT | inl 27 => NL | inl _ => ENCODING
              | inr name => OtherOp name
              end).

Global Instance token_code_countable : Countable token_code.
Proof.
  refine (inj_countable' token_code_encode token_code_decode _). by intros [].
Defined.

Definition ModelType_encode (m : ModelType) : string * list token_code * bool * bool :=
  (__name__ m, expression_term_token_pattern m, expression_term_model m,
   expression_term_value m).

Definition ModelType_decode (t : string * list token_code * bool * bool) : ModelType :=
  match t with
  | (n, p, e, v) =>
      {| __name__ := n; expression_term_token_pattern := p;
         expression_term_model := e; expression_term_value := v |}
  end.

Global Instance ModelType_countable : Countable ModelType.
Proof.
  refine (inj_countable' ModelType_encode ModelType_decode _). by intros [].
Defined.

(** What [getattr(model, model.Meta.expression_term_units)] can hold. *)
Inductive units_attr :=
| NoUnits
| RegistryUnit (u : string)
| OtherUnits (repr : string).

(** A value in an evaluation namespace. *)
Inductive value :=
| VBool (b : bool)
| VNum (z : Z)
| VQuantity (z : Z) (u : string).

(** A model instance: its identity and the attributes the engine reads. *)
Record Instance := {
  obj_ref : nat;
  inst_id : string;
  primary_attribute : string;
  inst_units : units_attr;
  inst_value : value;
}.

Global Instance units_attr_eq_dec : EqDecision units_attr.
Proof. solve_decision. Defined.
Global Instance value_eq_dec : EqDecision value.
Proof. solve_decision. Defined.
Global Instance Instance_eq_dec : EqDecision Instance.
Proof. solve_decision. Defined.

Inductive ObjTablesTokenCodes := obj_id | math_func_id | number | op | other.

Global Instance ObjTablesTokenCodes_eq_dec : EqDecision ObjTablesTokenCodes.
Proof. solve_decision. Defined.

Record ObjTablesToken := {
  code : ObjTablesTokenCodes;
  token_string : string;
  model_type : option ModelType;
  model_id : option string;
  model : option Instance;
}.

Global Instance ObjTablesToken_eq_dec : EqDecision ObjTablesToken.
Proof. solve_decision. Defined.

Record LexMatch := {
  obj_tables_tokens : list ObjTablesToken;
  num_py_tokens : nat;
}.

Record IdMatch := {
  im_model_type : ModelType;
  im_token_pattern : list token_code;
  match_string : string;
}.

Global Instance IdMatch_eq_dec : EqDecision IdMatch.
Proof. solve_decision. Defined.

(** The class that owns the expression. *)
Record ModelCls := {
  cls_name : string;
  (** [Meta.expression_valid_functions], when the attribute exists: the
      [__name__] of every allowed function *)
  expression_valid_functions : option (list string);
  (** the related classes of the attributes of the class that
      [Meta.expression_term_models] names *)
  expression_term_classes : list ModelType;
}.

(** A linear coefficient: a number, or [float('nan')]. *)
Inductive coeff :=
| Coeff (z : Z)
| NaN.

(** The values of one model type handed to [eval]: a dictionary, possibly a
    [defaultdict] with a constant factory. *)
Record id_values := {
  iv_items : gmap string value;
  iv_default : option value;
}.

Inductive ns_entry :=
| NsFunction (name : string)
| NsDimensionless
| NsValues (vals : id_values).

Definition Instance_encode (i : Instance)
    : nat * string * string * (unit + (string + string)) * (bool + (Z + Z * string)) :=
  (obj_ref i, inst_id i, primary_attribute i,
   match inst_units i with
   | NoUnits => inl () | RegistryUnit u => inr (inl u)
   | OtherUnits r => inr (inr r)
   end,
   match inst_value i with
   | VBool b => inl b | VNum z => inr (inl z)
   | VQuantity z u => inr (inr (z, u))
   end).

Definition Instance_decode
    (t : nat * string * string * (unit + (string + string)) * (bool + (Z + Z * string)))
    : Instance :=
  match t with
  | (r, i, p, u, v) =>
      {| obj_ref := r; inst_id := i; primary_attribute := p;
         inst_units := match u with
                       | inl _ => NoUnits | inr (inl u) => RegistryUnit u
                       | inr (inr r) => OtherUnits r
                       end;
         inst_value := match v with
                       | inl b => VBool b | inr (inl z) => VNum z
                       | inr (inr (z, u)) => VQuantity z u
                       end |}
  end.

Global Instance Instance_countable : Countable Instance.
Proof.
  refine (inj_countable' Instance_encode Instance_decode _).
  by intros [? ? ? [] []].
Defined.

Record ParsedExpression := {
  model_cls : ModelCls;
  attr : string;
  expression : string;
  _py_tokens : list TokenInfo;
  _objs : gmap ModelType (gmap string Instance);
  term_models : list ModelType;
  valid_functions : list string;
  unit_registry : bool;
  related_objects : gmap ModelType (gmap string Instance);
  lin_coeffs : gmap ModelType (gmap Instance coeff);
  errors : list string;
  _obj_tables_tokens : list ObjTablesToken;
  _compiled_expression : option string;
  _compiled_expression_with_units : option string;
  _compiled_namespace : gmap string ns_entry;
  _compiled_namespace_with_units : gmap string ns_entry;
}.

(** The functions of the Python runtime that the engine calls. *)
Record Python := {
  (** [str.casefold] *)
  casefold : string -> string;
  (** the message of the [SyntaxError] that
      [compile(src, '<ParsedExpression>', 'eval')] raises, if it raises *)
  compile_error : string -> option string;
  (** [str.isidentifier], [keyword.iskeyword] *)
  isidentifier : string -> bool;
  iskeyword : string -> bool;
  (** [ast.parse(src, mode='eval')]; [None] on a [SyntaxError] *)
  ast_parse : string -> option Ast.ast;
  (** [list(tokenize.tokenize(...))], or the message of the [TokenError] *)
  tokenize_tokenize : string -> list TokenInfo + string;
  (** the [re.sub] call of [__prep_expr_for_tokenization] *)
  prep_expr_for_tokenization : string -> string;
  (** [eval(code, {}, namespace)] on the text a code object was compiled
      from *)
  py_eval : string -> gmap string ns_entry -> result value;
}.

(** Attribute assignments on a [ParsedExpression]. *)
Definition set_tokenization (self : ParsedExpression)
    (ro : gmap ModelType (gmap string Instance))
    (lc : gmap ModelType (gmap Instance coeff))
    (errs : list string) (toks : list ObjTablesToken)
    (ce ceu : option string) (ns nsu : gmap string ns_entry) : ParsedExpression :=
  {| model_cls := model_cls self; attr := attr self;
     expression := expression self; _py_tokens := _py_tokens self;
     _objs := _objs self; term_models := term_models self;
     valid_functions := valid_functions self;
     unit_registry := unit_registry self;
     related_objects := ro; lin_coeffs := lc; errors := errs;
     _obj_tables_tokens := toks;
     _compiled_expression := ce; _compiled_expression_with_units := ceu;
     _compiled_namespace := ns; _compiled_namespace_with_units := nsu |}.

Definition set_errors (errs : list string) (self : ParsedExpression) :=
  set_tokenization self (related_objects self) (lin_coeffs self) errs
    (_obj_tables_tokens self) (_compiled_expression self)
    (_compiled_expression_with_units self) (_compiled_namespace self)
    (_compiled_namespace_with_units self).

Definition set_obj_tables_tokens (toks : list ObjTablesToken) (self : ParsedExpression) :=
  set_tokenization self (related_objects self) (lin_coeffs self) (errors self)
    toks (_compiled_expression self)
    (_compiled_expression_with_units self) (_compiled_namespace self)
    (_compiled_namespace_with_units self).

Definition set_related_objects (ro : gmap ModelType (gmap string Instance))
    (self : ParsedExpression) :=
  set_tokenization self ro (lin_coeffs self) (errors self)
    (_obj_tables_tokens self) (_compiled_expression self)
    (_compiled_expression_with_units self) (_compiled_namespace self)
    (_compiled_namespace_with_units self).

Definition set_lin_coeffs (lc : gmap ModelType (gmap Instance coeff))
    (self : ParsedExpression) :=
  set_tokenization self (related_objects self) lc (errors self)
    (_obj_tables_tokens self) (_compiled_expression self)
    (_compiled_expression_with_units self) (_compiled_namespace self)
    (_compiled_namespace_with_units self).

Definition set_compiled (ce : option string) (ns : gmap string ns_entry)
    (self : ParsedExpression) :=
  set_tokenization self (related_objects self) (lin_coeffs self) (errors self)
    (_obj_tables_tokens self) ce
    (_compiled_expression_with_units self) ns
    (_compiled_namespace_with_units self).

Definition set_compiled_with_units (ceu : option string) (nsu : gmap string ns_entry)
    (self : ParsedExpression) :=
  set_tokenization self (related_objects self) (lin_coeffs self) (errors self)
    (_obj_tables_tokens self) (_compiled_expression self)
    ceu (_compiled_namespace self) nsu.

(** ** Python sets and sorting *)

(** [s.add(x)] on a set kept as a duplicate-free list *)
Definition set_add {A} `{EqDecision A} (x : A) (s : list A) : list A :=
  if decide (x ∈ s) then s else s ++ [x].

Fixpoint insert_sorted {A} (le : A -> A -> bool) (x : A) (l : list A) : list A :=
  match l with
  | [] => [x]
  | y :: l' => if le y x then y :: insert_sorted le x l' else x :: l
  end.

(** [sorted(l, key=...)]: a stable sort; [le a b] compares the keys. *)
Definition sorted {A} (le : A -> A -> bool) (l : list A) : list A :=
  foldl (fun acc x => insert_sorted le x acc) [] l.

(** The loop [while l and key(l[-1]) == k: out.add(l.pop())], run on the
    reversed list. *)
Fixpoint pop_while {A} `{EqDecision A} (p : A -> bool) (rev_l : list A)
    (out : list A) : list A :=
  match rev_l with
  | x :: rest => if p x then pop_while p rest (set_add x out) else out
  | [] => out
  end.

(** * [ParsedExpression] *)

Definition MODEL_TYPE_DISAMBIG_PATTERN : list token_code := [NAME; DOT; NAME].
Definition FUNC_PATTERN : list token_code := [NAME; LPAR].

Definition LEGAL_TOKENS : list token_code :=
  [NUMBER; NAME; LSQB; RSQB; DOT; COMMA; DOUBLESTAR; MINUS; PLUS; SLASH; STAR;
   LPAR; RPAR; EQEQUAL; GREATER; GREATEREQUAL; LESS; LESSEQUAL; NOTEQUAL].

(** [__reset_tokenization] *)
Definition reset_tokenization (self : ParsedExpression) : ParsedExpression :=
  set_tokenization self
    (foldl (fun ro mt => <[mt := ∅]> ro) ∅ (term_models self))
    (foldl (fun lc mt => <[mt := ∅]> lc) ∅ (term_models self))
    [] [] None None ∅ ∅.

(** [_get_trailing_whitespace] *)
Definition _get_trailing_whitespace (self : ParsedExpression) (idx : nat) : Z :=
  if bool_decide (Z.of_nat (length (_py_tokens self)) - 1 <= Z.of_nat idx)%Z then 0%Z
  else
    match _py_tokens self !! (idx + 1), _py_tokens self !! idx with
    | Some next, Some this =>
        (Z.of_nat (snd (tok_start next)) - Z.of_nat (snd (tok_end this)))%Z
    | _, _ => 0%Z
    end.

(** The text of a token, without the [__digit__] prefix of a name. *)
Definition strip_digit_prefix (tok : TokenInfo) : string :=
  if bool_decide (tok_type tok = NAME) && startswith "__digit__" (tok_string tok)
  then str_drop 9 (tok_string tok)
  else tok_string tok.

(** [list(g)[1:-1]] without a trailing NEWLINE token: the Python tokens
    between the ENCODING marker and the end markers *)
Definition python_tokens (g : list TokenInfo) : list TokenInfo :=
  let tokens := removelast (tail g) in
  match last tokens with
  | Some t => if bool_decide (tok_type t = NEWLINE)
              then removelast tokens else tokens
  | None => tokens
  end.

(** [recreate_whitespace] *)
Definition recreate_whitespace (py : Python) (self : ParsedExpression)
    (expr : string) : result string :=
  let prepped_expr := prep_expr_for_tokenization py expr in
  match tokenize_tokenize py prepped_expr with
  | inr e =>
      Raise (ParsedExpressionError
               ("parsing '" +:+ expr +:+ "' creates a Python syntax error: '"
                +:+ e +:+ "'"))
  | inl g =>
      let tokens := python_tokens g in
      if bool_decide (length tokens ≠ length (_py_tokens self)) then
        Raise (ParsedExpressionError
                 ("can't recreate whitespace in '" +:+ expr +:+ "', as it has "
                  +:+ pretty (length tokens) +:+ " instead of "
                  +:+ pretty (length (_py_tokens self)) +:+ " tokens expected"))
      else
        Ok (String.concat ""
              (flat_map (fun '(i_tok, tok) =>
                           [strip_digit_prefix tok;
                            spaces (_get_trailing_whitespace self i_tok)])
                        (imap (fun i t => (i, t)) tokens)))
  end.

(** [_get_model_type] *)
Definition _get_model_type (self : ParsedExpression) (name : string) : option ModelType :=
  List.find (fun mt => bool_decide (name = __name__ mt)) (term_models self).

(** [_match_tokens]: [None] stands for [False]. *)
Definition _match_tokens (self : ParsedExpression) (token_pattern : list token_code)
    (idx : nat) : option string :=
  if bool_decide (token_pattern = []) then None
  else if bool_decide (Z.of_nat (length (_py_tokens self)) - Z.of_nat idx
                       < Z.of_nat (length token_pattern))%Z then None
  else if forallb
            (fun '(tok_idx, token_pat_num) =>
               match _py_tokens self !! (idx + tok_idx) with
               | None => false
               | Some tok =>
                   bool_decide (exact_type tok = token_pat_num) &&
                   match tok_idx with
                   | O => true
                   | S prev_idx =>
                       match _py_tokens self !! (idx + prev_idx) with
                       | Some prev => bool_decide (tok_end prev = tok_start tok)
                       | None => false
                       end
                   end
               end)
            (imap (fun i c => (i, c)) token_pattern)
  then Some (String.concat ""
               (map strip_digit_prefix
                    (take (length token_pattern) (drop idx (_py_tokens self)))))
  else None.

(** Python truth of the value [_match_tokens] returns *)
Definition truthy (m : option string) : bool :=
  match m with
  | Some s => negb (bool_decide (s = ""))
  | None => false
  end.

(** What a lexical-element getter returns: [None], an error string or a
    [LexMatch]. *)
Inductive lex_result :=
| NoMatch
| LexError (msg : string)
| Matched (m : LexMatch).

Definition mk_token (c : ObjTablesTokenCodes) (s : string) : ObjTablesToken :=
  {| code := c; token_string := s; model_type := None; model_id := None;
     model := None |}.

Definition mk_obj_token (s : string) (mt : ModelType) (id : string)
    (m : Instance) : ObjTablesToken :=
  {| code := obj_id; token_string := s; model_type := Some mt;
     model_id := Some id; model := Some m |}.

(** ["'{}', a {}.{}, "] filled with the expression, the class and the
    attribute *)
Definition where_ (self : ParsedExpression) : string :=
  "'" +:+ expression self +:+ "', a " +:+ cls_name (model_cls self) +:+ "."
  +:+ attr self +:+ ", ".

(** [self._objs.get(model_type, {})] *)
Definition objs_of (self : ParsedExpression) (mt : ModelType) : gmap string Instance :=
  default ∅ (_objs self !! mt).

(** [_get_disambiguated_id] *)
Definition _get_disambiguated_id (py : Python) (self : ParsedExpression)
    (idx : nat) (case_fold_match : bool) : lex_result :=
  let disambig_model_match := _match_tokens self MODEL_TYPE_DISAMBIG_PATTERN idx in
  if truthy disambig_model_match then
    let disambig_model_match := default "" disambig_model_match in
    let disambig_model_type := default "" (tok_string <$> _py_tokens self !! idx) in
    let possible_model_id := default "" (tok_string <$> _py_tokens self !! (idx + 2)) in
    let possible_model_id :=
      if case_fold_match then casefold py possible_model_id else possible_model_id in
    match _get_model_type self disambig_model_type with
    | None =>
        LexError (where_ self +:+ "contains '" +:+ disambig_model_match
                  +:+ "', but the disambiguation model type '"
                  +:+ disambig_model_type +:+ "' cannot be referenced by '"
                  +:+ cls_name (model_cls self) +:+ "' expressions")
    | Some mt =>
        match objs_of self mt !! possible_model_id with
        | None =>
            LexError (where_ self +:+ "contains '" +:+ disambig_model_match
                      +:+ "', but '" +:+ possible_model_id
                      +:+ "' is not the id of a '" +:+ disambig_model_type +:+ "'")
        | Some m =>
            Matched {| obj_tables_tokens :=
                         [mk_obj_token disambig_model_match mt possible_model_id m];
                       num_py_tokens := length MODEL_TYPE_DISAMBIG_PATTERN |}
        end
    end
  else NoMatch.

(** The first loop of [_get_related_obj_id]: the sets [token_matches] and
    [id_matches]. *)
Definition related_obj_matches (py : Python) (self : ParsedExpression)
    (idx : nat) (case_fold_match : bool) : list string * list IdMatch :=
  foldl
    (fun '(token_matches, id_matches) mt =>
       let token_pattern := expression_term_token_pattern mt in
       let ms := _match_tokens self token_pattern idx in
       if truthy ms then
         let ms := default "" ms in
         let key := if case_fold_match then casefold py ms else ms in
         (set_add ms token_matches,
          if bool_decide (is_Some (objs_of self mt !! key))
          then set_add {| im_model_type := mt; im_token_pattern := token_pattern;
                          match_string := ms |} id_matches
          else id_matches)
       else (token_matches, id_matches))
    ([], []) (term_models self).

Definition len_le (a b : IdMatch) : bool :=
  Nat.leb (String.length (match_string a)) (String.length (match_string b)).

(** The matches of maximal length: sort by length, then pop from the end
    while the length is the longest one. *)
Definition longest_id_matches (id_matches : list IdMatch) : list IdMatch :=
  let id_matches_by_length := sorted len_le id_matches in
  match last id_matches_by_length with
  | None => []
  | Some l =>
      let longest_length := String.length (match_string l) in
      pop_while
        (fun m => bool_decide (String.length (match_string m) = longest_length))
        (rev id_matches_by_length) []
  end.

Definition name_le (a b : IdMatch) : bool :=
  String.leb (__name__ (im_model_type a)) (__name__ (im_model_type b)).

(** [_get_related_obj_id] *)
Definition _get_related_obj_id (py : Python) (self : ParsedExpression)
    (idx : nat) (case_fold_match : bool) : lex_result :=
  let '(token_matches, id_matches) :=
    related_obj_matches py self idx case_fold_match in
  match id_matches with
  | [] =>
      match token_matches with
      | [] => NoMatch
      | _ =>
          LexError (where_ self +:+ "contains the identifier(s) '"
                    +:+ join "', '" token_matches
                    +:+ "', which aren't the id(s) of an object")
      end
  | _ =>
      let id_matches :=
        if bool_decide (1 < length id_matches)
        then longest_id_matches id_matches else id_matches in
      if bool_decide (1 < length id_matches) then
        let matches_error :=
          map (fun m => "'" +:+ match_string m +:+ "' as a "
                        +:+ __name__ (im_model_type m) +:+ " id")
              (sorted name_le id_matches) in
        LexError (where_ self +:+ "contains multiple model object id matches: "
                  +:+ join ", " matches_error)
      else
        match id_matches with
        | [] => NoMatch
        | match_ :: _ =>
            let right_case_match_string :=
              if case_fold_match then casefold py (match_string match_)
              else match_string match_ in
            match objs_of self (im_model_type match_) !! right_case_match_string with
            | Some m =>
                Matched {| obj_tables_tokens :=
                             [mk_obj_token (match_string match_)
                                (im_model_type match_) right_case_match_string m];
                           num_py_tokens := length (im_token_pattern match_) |}
            | None => NoMatch
            end
        end
  end.

(** [_get_func_call_id] *)
Definition _get_func_call_id (self : ParsedExpression) (idx : nat) : lex_result :=
  let func_match := _match_tokens self FUNC_PATTERN idx in
  if truthy func_match then
    let func_name := default "" (tok_string <$> _py_tokens self !! idx) in
    match expression_valid_functions (model_cls self) with
    | None =>
        LexError (where_ self +:+ "contains the func name '" +:+ func_name
                  +:+ "', but " +:+ cls_name (model_cls self)
                  +:+ ".Meta doesn't define 'expression_valid_functions'")
    | Some fs =>
        let function_ids := foldl (fun acc f => set_add f acc) [] fs in
        if bool_decide (func_name ∈ function_ids) then
          Matched {| obj_tables_tokens :=
                       [mk_token math_func_id func_name; mk_token op "("];
                     num_py_tokens := length FUNC_PATTERN |}
        else
          LexError (where_ self +:+ "contains the func name '" +:+ func_name
                    +:+ "', but it isn't in " +:+ cls_name (model_cls self)
                    +:+ ".Meta.expression_valid_functions: "
                    +:+ join ", " function_ids)
    end
  else NoMatch.

(** [_obj_tables_token_to_str] *)
Definition _obj_tables_token_to_str (token : ObjTablesToken) : string :=
  default "" (__name__ <$> model_type token) +:+ "[" +:+ dquote +:+
  default "" (primary_attribute <$> model token) +:+ dquote +:+ "]".

(** [get_str] with [_obj_tables_token_to_str] *)
Definition get_str (self : ParsedExpression) (with_units : bool) : result string :=
  match _obj_tables_tokens self with
  | [] =>
      Raise (ParsedExpressionError
               ("Cannot evaluate '" +:+ expression self
                +:+ "', as it not been successfully tokenized"))
  | toks =>
      Ok (join " "
            (map (fun t =>
                    match code t with
                    | obj_id => _obj_tables_token_to_str t
                    | number =>
                        if with_units
                        then token_string t +:+ " * __dimensionless__"
                        else token_string t
                    | _ => token_string t
                    end) toks))
  end.

(** [_compile]: the compiled text and its namespace *)
Definition _compile (py : Python) (self : ParsedExpression) (with_units : bool)
    : result (string * gmap string ns_entry) :=
  do str_expression <- get_str self with_units in
  match compile_error py str_expression with
  | Some e => Raise (SyntaxError e)
  | None =>
      let compiled_namespace :=
        foldl (fun ns f => <[f := NsFunction f]> ns) ∅ (valid_functions self) in
      let compiled_namespace :=
        if with_units && unit_registry self
        then <["__dimensionless__" := NsDimensionless]> compiled_namespace
        else compiled_namespace in
      Ok (str_expression, compiled_namespace)
  end.

(** The tuple [tokenize] returns *)
Definition tokenize_rv : Type :=
  option (list ObjTablesToken) * option (gmap ModelType (gmap string Instance))
  * option (list string).

Definition token_code_of (tok : TokenInfo) : ObjTablesTokenCodes :=
  if bool_decide (tok_type tok = OP) then op
  else if bool_decide (tok_type tok = NUMBER) then number
  else other.

(** [self.related_objects[t.model_type][t.model_id] = t.model] for the
    [obj_id] tokens of a match *)
Definition record_related_objects (toks : list ObjTablesToken)
    (ro : gmap ModelType (gmap string Instance))
    : result (gmap ModelType (gmap string Instance)) :=
  foldl
    (fun acc t =>
       do ro <- acc in
       if bool_decide (code t = obj_id) then
         match model_type t, model_id t, model t with
         | Some mt, Some id, Some m =>
             match ro !! mt with
             | Some inner => Ok (<[mt := <[id := m]> inner]> ro)
             | None => Raise (KeyError (__name__ mt))
             end
         | _, _, _ => Raise (KeyError "None")
         end
       else Ok ro)
    (Ok ro) toks.

Definition num_le (a b : LexMatch) : bool :=
  Nat.leb (num_py_tokens a) (num_py_tokens b).

Fixpoint pop_while_list {A} (p : A -> bool) (rev_l : list A) : list A :=
  match rev_l with
  | x :: rest => if p x then x :: pop_while_list p rest else []
  | [] => []
  end.

(** The matches that consume the most Python tokens *)
Definition longest_lex_matches (matches : list LexMatch) : list LexMatch :=
  let matches_by_length := sorted num_le matches in
  match last matches_by_length with
  | None => []
  | Some l =>
      pop_while_list
        (fun m => bool_decide (num_py_tokens m = num_py_tokens l))
        (rev matches_by_length)
  end.

Definition lex_results (py : Python) (self : ParsedExpression) (idx : nat)
    (case_fold_match : bool) : list lex_result :=
  [_get_related_obj_id py self idx case_fold_match;
   _get_disambiguated_id py self idx case_fold_match;
   _get_func_call_id self idx].

(** How one round of the [while] loop of [tokenize] ends *)
Inductive loop_step :=
| Continue (idx : nat) (self : ParsedExpression)
| Break (self : ParsedExpression)
| Raised (self : ParsedExpression) (e : exn).

(** One round of the loop, at the token [tok] of index [idx] *)
Definition tokenize_step (py : Python) (case_fold_match : bool) (idx : nat)
    (self : ParsedExpression) (tok : TokenInfo) : loop_step :=
  if negb (bool_decide (tok_type tok = NAME)) then
    (* a token that isn't an identifier needs no processing *)
    Continue (idx + 1)
      (set_obj_tables_tokens
         (_obj_tables_tokens self
          ++ [mk_token (token_code_of tok) (tok_string tok)]) self)
  else
    let results := lex_results py self idx case_fold_match in
    let tmp_errors :=
      omap (fun r => match r with LexError e => Some e | _ => None end) results in
    let matches :=
      omap (fun r => match r with Matched m => Some m | _ => None end) results in
    match matches, tmp_errors with
    | [], [] =>
        Raised self (ParsedExpressionError
                       ("No matches or errors found in '"
                        +:+ expression self +:+ "'"))
    | [], _ => Break (set_errors tmp_errors self)
    | _, _ =>
        match longest_lex_matches matches with
        | [] => Raised self (OtherException "IndexError" "pop from empty list")
        | [match_] =>
            let self :=
              set_obj_tables_tokens
                (_obj_tables_tokens self ++ obj_tables_tokens match_) self in
            match record_related_objects (obj_tables_tokens match_)
                    (related_objects self) with
            | Ok ro =>
                Continue (idx + num_py_tokens match_) (set_related_objects ro self)
            | Raise e => Raised self e
            end
        | _ :: _ :: _ =>
            Raised self (ParsedExpressionError "Multiple longest matches")
        end
    end.

(** The [while idx < len(self._py_tokens)] loop of [tokenize]: the state
    it leaves and the exception that ended it, if one did. *)
Fixpoint tokenize_loop (py : Python) (case_fold_match : bool) (fuel : nat)
    (idx : nat) (self : ParsedExpression) : ParsedExpression * option exn :=
  match _py_tokens self !! idx with
  | None => (self, None)
  | Some tok =>
      match fuel with
      | O => (self, Some OutOfFuel)
      | S fuel' =>
          match tokenize_step py case_fold_match idx self tok with
          | Continue idx self => tokenize_loop py case_fold_match fuel' idx self
          | Break self => (self, None)
          | Raised self e => (self, Some e)
          end
      end
  end.

(** The items that the literal text of a token matches: the term types
    with an instance of that id, and ["function"]. *)
Definition matching_items (self : ParsedExpression) (t : ObjTablesToken) : list string :=
  map __name__
      (filter (fun mt => is_Some (objs_of self mt !! token_string t))
              (term_models self))
  ++ (if bool_decide (token_string t ∈ valid_functions self)
      then ["function"] else []).

(** The scan for ambiguous tokens at the end of [tokenize] *)
Definition ambiguity_errors (self : ParsedExpression) : list string :=
  flat_map
    (fun t =>
       if bool_decide (code t = obj_id) || bool_decide (code t = math_func_id)
       then
         let items := matching_items self t in
         if bool_decide (1 < length items) then
           ["ObjTablesToken `" +:+ token_string t
            +:+ "` is ambiguous. ObjTablesToken matches a "
            +:+ join ", a " (removelast items) +:+ " and a "
            +:+ default "" (last items) +:+ "."]
         else []
       else [])
    (_obj_tables_tokens self).

(** Does [tokenize] report a token of type [tok] as bad? *)
Definition bad_token_name (tok : TokenInfo) : string :=
  if negb (bool_decide (tok_string tok = ""))
     && negb (bool_decide (tok_string tok = " "))
  then tok_string tok
  else tok_name (tok_type tok).

(** [tokenize]: the state it leaves and what it returns or raises. *)
Definition tokenize (py : Python) (self : ParsedExpression)
    (case_fold_match : bool) : ParsedExpression * result tokenize_rv :=
  let self := reset_tokenization self in
  if bool_decide (expression self = "") then
    let self := set_errors (errors self ++ ["Expression cannot be empty"]) self in
    (self, Ok (None, None, Some (errors self)))
  else
    let bad_tokens :=
      foldl (fun acc tok =>
               if bool_decide (exact_type tok ∈ LEGAL_TOKENS) then acc
               else set_add (bad_token_name tok) acc)
            [] (_py_tokens self) in
    match bad_tokens with
    | _ :: _ =>
        let self :=
          set_errors
            (errors self
             ++ [where_ self +:+ "contains bad token(s): '"
                 +:+ join "', '" bad_tokens +:+ "'"]) self in
        (self, Ok (None, None, Some (errors self)))
    | [] =>
        match tokenize_loop py case_fold_match (length (_py_tokens self)) 0 self with
        | (self, Some e) => (self, Raise e)
        | (self, None) =>
            let self := set_errors (errors self ++ ambiguity_errors self) self in
            match errors self with
            | _ :: _ => (self, Ok (None, None, Some (errors self)))
            | [] =>
                match _compile py self false with
                | Raise (SyntaxError error) =>
                    (self, Ok (None, None, Some ["SyntaxError: " +:+ error]))
                | Raise e => (self, Raise e)
                | Ok (ce, ns) =>
                    let self := set_compiled (Some ce) ns self in
                    match _compile py self true with
                    | Raise e => (self, Raise e)
                    | Ok (ceu, nsu) =>
                        let self := set_compiled_with_units (Some ceu) nsu self in
                        (self, Ok (Some (_obj_tables_tokens self),
                                   Some (related_objects self), None))
                    end
                end
            end
        end
    end.

(** ** Evaluation *)

(** [str(error)] *)
Definition exn_str (e : exn) : string :=
  match e with
  | ParsedExpressionError m | ValueError m | SyntaxError m | NameError m
  | TypeError m | OtherException _ m => m
  | KeyError k => "'" +:+ k +:+ "'"
  | RecursionError => "maximum recursion depth exceeded"
  | OutOfFuel => ""
  end.

(** [d[id]] on the values of one model type *)
Definition get_value (vals : id_values) (id : string) : result value :=
  match iv_items vals !! id with
  | Some v => Ok v
  | None =>
      match iv_default vals with
      | Some v => Ok v
      | None => Raise (KeyError id)
      end
  end.

Definition set_value (vals : id_values) (id : string) (v : value) : id_values :=
  {| iv_items := <[id := v]> (iv_items vals); iv_default := iv_default vals |}.

Definition empty_values : id_values := {| iv_items := ∅; iv_default := None |}.

(** [namespace[name][id]] *)
Definition ns_get (namespace : gmap string ns_entry) (name id : string) : result value :=
  match namespace !! name with
  | Some (NsValues vals) => get_value vals id
  | Some _ => Raise (TypeError "object is not subscriptable")
  | None => Raise (KeyError name)
  end.

(** [namespace[name][id] = v] *)
Definition ns_set (namespace : gmap string ns_entry) (name id : string) (v : value)
    : result (gmap string ns_entry) :=
  match namespace !! name with
  | Some (NsValues vals) => Ok (<[name := NsValues (set_value vals id v)]> namespace)
  | Some _ => Raise (TypeError "object does not support item assignment")
  | None => Raise (KeyError name)
  end.

(** [v * unit_registry.parse_expression(str(units))] *)
Definition mul_units (v : value) (u : string) : value :=
  match v with
  | VNum z => VQuantity z u
  | VBool b => VQuantity (if b then 1 else 0) u
  | VQuantity z u' => VQuantity z (u' +:+ " * " +:+ u)
  end.

(** The loop of [eval] that attaches units to the values of the related
    objects. *)
Definition attach_units (self : ParsedExpression)
    (namespace : gmap string ns_entry) : result (gmap string ns_entry) :=
  foldl
    (fun acc '(mt, model_ids) =>
       foldl
         (fun acc '(id, model) =>
            do namespace <- acc in
            do v <- ns_get namespace (__name__ mt) id in
            do namespace <-
              (match v with
               | VBool b => ns_set namespace (__name__ mt) id
                              (VNum (if b then 1 else 0))
               | _ => Ok namespace
               end) in
            match inst_units model with
            | NoUnits => Raise (ParsedExpressionError "Units must be defined")
            | OtherUnits r =>
                if unit_registry self
                then Raise (ParsedExpressionError
                              ("Unsupported units " +:+ dquote +:+ r +:+ dquote))
                else Raise (OtherException "AttributeError"
                              "'NoneType' object has no attribute 'Unit'")
            | RegistryUnit u =>
                if unit_registry self then
                  do v <- ns_get namespace (__name__ mt) id in
                  ns_set namespace (__name__ mt) id (mul_units v u)
                else Raise (OtherException "AttributeError"
                              "'NoneType' object has no attribute 'Unit'")
            end)
         acc (map_to_list model_ids))
    (Ok namespace) (map_to_list (related_objects self)).

(** The [except] clauses around the call of Python's [eval] *)
Definition wrap_eval_error (self : ParsedExpression) (error : exn) : exn :=
  let error_suffix :=
    " cannot eval expression '" +:+ expression self +:+ "' in "
    +:+ cls_name (model_cls self) +:+ "; " in
  match error with
  | SyntaxError m =>
      ParsedExpressionError ("SyntaxError:" +:+ error_suffix +:+ m)
  | NameError m =>
      ParsedExpressionError ("NameError:" +:+ error_suffix +:+ m)
  | _ =>
      ParsedExpressionError ("Exception:" +:+ error_suffix +:+ exn_str error)
  end.

(** The part of [eval] before the [try]: the compiled expression and the
    name space in which it is evaluated.  [eval_term] evaluates the parsed
    expression of an expression-valued term. *)
Definition prepare_namespace (eval_term : ParsedExpression -> result value)
    (nested : Instance -> option ParsedExpression) (self : ParsedExpression)
    (values : list (ModelType * id_values)) (with_units : bool)
    : result (string * gmap string ns_entry) :=
  let '(expression_, namespace) :=
    if with_units
    then (_compiled_expression_with_units self, _compiled_namespace_with_units self)
    else (_compiled_expression self, _compiled_namespace self) in
  match expression_ with
  | None =>
      Raise (ParsedExpressionError
               ("Cannot evaluate '" +:+ expression self
                +:+ "', as it not been successfully compiled"))
  | Some expression_ =>
      (* prepare name space *)
      let namespace :=
        foldl (fun ns '(mt, model_id_values) =>
                 <[__name__ mt := NsValues model_id_values]> ns)
              namespace values in
      do namespace <-
        foldl
          (fun acc '(mt, model_ids) =>
             do ns <- acc in
             if expression_term_model mt then
               foldl
                 (fun acc '(id, model) =>
                    do ns <- acc in
                    match nested model with
                    | None =>
                        Raise (OtherException "AttributeError"
                                 "'NoneType' object has no attribute '_parsed_expression'")
                    | Some sub =>
                        do v <- eval_term sub in
                        ns_set ns (__name__ mt) id v
                    end)
                 (Ok (<[__name__ mt := NsValues empty_values]> ns))
                 (map_to_list model_ids)
             else if expression_term_value mt then
               foldl
                 (fun acc '(id, model) =>
                    do ns <- acc in
                    ns_set ns (__name__ mt) id (inst_value model))
                 (Ok (<[__name__ mt := NsValues empty_values]> ns))
                 (map_to_list model_ids)
             else Ok ns)
          (Ok namespace) (map_to_list (related_objects self)) in
      do namespace <-
        (if with_units then attach_units self namespace else Ok namespace) in
      Ok (expression_, namespace)
  end.

(** [eval].  [nested] gives the parsed expression of an expression-valued
    term; [fuel] is the recursion limit of the interpreter. *)
Fixpoint eval (py : Python) (nested : Instance -> option ParsedExpression)
    (fuel : nat) (self : ParsedExpression)
    (values : list (ModelType * id_values)) (with_units : bool) : result value :=
  match fuel with
  | O => Raise RecursionError
  | S fuel' =>
      match prepare_namespace
              (fun sub => eval py nested fuel' sub values false)
              nested self values with_units with
      | Raise e => Raise e
      | Ok (expression_, namespace) =>
          (* evaluate compiled expression *)
          match py_eval py expression_ namespace with
          | Ok v => Ok v
          | Raise error => Raise (wrap_eval_error self error)
          end
      end
  end.

(** * [LinearParsedExpressionValidator] *)

Import Ast.

Record LinearParsedExpressionValidator := {
  opaque_ids : gmap string string;
  next_id : nat;
}.

(** [LinearParsedExpressionValidator()] *)
Definition new_validator : LinearParsedExpressionValidator :=
  {| opaque_ids := ∅; next_id := 1 |}.

Definition VALID_PYTHON_ID_PREFIX : string := "opaque_model_id_".

(** [_convert_model_id_to_python_id] *)
Definition _convert_model_id_to_python_id (py : Python)
    (self : LinearParsedExpressionValidator) (model_id : string)
    : LinearParsedExpressionValidator * string :=
  if isidentifier py model_id && negb (iskeyword py model_id) then (self, model_id)
  else
    match opaque_ids self !! model_id with
    | Some o => (self, o)
    | None =>
        let next_opaque_id := VALID_PYTHON_ID_PREFIX +:+ pretty (next_id self) in
        ({| opaque_ids := <[model_id := next_opaque_id]> (opaque_ids self);
            next_id := next_id self + 1 |}, next_opaque_id)
    end.

(** The list [expr] that [_expr_with_python_ids] joins *)
Definition python_id_words (py : Python) (self : LinearParsedExpressionValidator)
    (toks : list ObjTablesToken) : LinearParsedExpressionValidator * list string :=
  foldl
    (fun '(self, expr) t =>
       if bool_decide (code t = obj_id) then
         let '(self, w) :=
           _convert_model_id_to_python_id py self (default "" (model_id t)) in
         (self, expr ++ [w])
       else (self, expr ++ [token_string t]))
    (self, []) toks.

(** [_expr_with_python_ids] *)
Definition _expr_with_python_ids (py : Python) (self : LinearParsedExpressionValidator)
    (parsed_expression : ParsedExpression)
    : LinearParsedExpressionValidator * string :=
  let '(self, expr) :=
    python_id_words py self (_obj_tables_tokens parsed_expression) in
  (self, join " " expr).

(** [type(node).__name__] *)
Definition type_name (n : pynode) : string :=
  match n with
  | NAst (Num _) => "Constant"
  | NAst (Name _) => "Name"
  | NAst (UnaryOp _ _) => "UnaryOp"
  | NAst (BinOp _ _ _) => "BinOp"
  | NAst (Node (Compare _) _) => "Compare"
  | NAst (Node Call _) => "Call"
  | NAst (Node (Attribute _) _) => "Attribute"
  | NAst (Node Subscript _) => "Subscript"
  | NAst (Node Tuple _) => "Tuple"
  | NAst (Node List _) => "List"
  | NAst (Node Starred _) => "Starred"
  | NAst (Node keyword _) => "keyword"
  | NUnaryop UAdd => "UAdd"
  | NUnaryop USub => "USub"
  | NOperator Add => "Add"
  | NOperator Sub => "Sub"
  | NOperator Mult => "Mult"
  | NOperator Div => "Div"
  | NOperator Pow => "Pow"
  | NCmpop Eq => "Eq"
  | NCmpop NotEq => "NotEq"
  | NCmpop Lt => "Lt"
  | NCmpop LtE => "LtE"
  | NCmpop Gt => "Gt"
  | NCmpop GtE => "GtE"
  | NLoad => "Load"
  end.

(** [type(node) in VALID_NOTE_TYPES] *)
Definition valid_node_type (n : pynode) : bool :=
  match n with
  | NAst (Num _) | NAst (Name _) | NAst (UnaryOp _ _) | NAst (BinOp _ _ _) => true
  | NAst (Node _ _) => false
  | NUnaryop _ => true
  | NOperator (Add | Sub | Mult) => true
  | NOperator (Div | Pow) => false
  | NCmpop _ => false
  | NLoad => true
  end.

(** [str(s)] of a set of strings *)
Definition str_of_set (s : list string) : string :=
  "{" +:+ join ", " (map (fun x => "'" +:+ x +:+ "'") s) +:+ "}".

(** [_validate_node_types] *)
Definition _validate_node_types (tree : ast) : bool * option string :=
  let errors :=
    foldl (fun errors node =>
             if valid_node_type node then errors
             else set_add (type_name node) errors)
          [] (walk tree) in
  match errors with
  | _ :: _ => (false, Some ("contains invalid terms " +:+ str_of_set errors))
  | [] => (true, None)
  end.

(** [_validate_nums] *)
Definition _validate_nums (tree : ast) : bool * option string :=
  let errors :=
    flat_map (fun node =>
                match node with
                | NAst (Num n) =>
                    match py_float n with
                    | inl _ => []
                    | inr e => [e]
                    end
                | _ => []
                end) (walk tree) in
  match errors with
  | _ :: _ => (false, Some ("[" +:+ join ", " (map (fun x => "'" +:+ x +:+ "'") errors) +:+ "]"))
  | [] => (true, None)
  end.

(** A bound on the number of rounds of [_dist_mult]. *)
Fixpoint dist_measure (e : ast) : nat :=
  match e with
  | Num _ | Name _ => 2
  | UnaryOp _ e => 1 + dist_measure e
  | BinOp l Mult r => dist_measure l * dist_measure r
  | BinOp l _ r => 1 + dist_measure l + dist_measure r
  | Node _ cs =>
      2 + (fix go (l : list ast) : nat :=
             match l with
             | [] => 0
             | c :: l' => dist_measure c + go l'
             end) cs
  end.

(** The [while True] loop of [_dist_mult]: rewrite until a round changes
    nothing. *)
Fixpoint dist_mult_loop (fuel : nat) (tree : ast) : option ast :=
  match fuel with
  | O => None
  | S fuel' =>
      let tree_copy := tree in
      let tree := DistributeMult tree in
      if ast_eq tree_copy tree then Some tree else dist_mult_loop fuel' tree
  end.

Definition _dist_mult (tree : ast) : option ast :=
  dist_mult_loop (S (dist_measure tree)) tree.

Definition _remove_unary_operators (tree : ast) : ast := RemoveUnaryOps tree.
Definition _multiply_numbers (tree : ast) : ast := MultiplyNums tree.
Definition _remove_subtraction (tree : ast) : ast := DistributeSub tree.

Definition is_num (e : ast) : bool :=
  match e with Num _ => true | _ => false end.

(** [_expr_has_a_constant] *)
Definition _expr_has_a_constant (tree : ast) : bool :=
  let nodes := walk tree in
  match nodes with
  | [NAst (Num _)] => true
  | _ =>
      existsb (fun node =>
                 match node with
                 | NAst (BinOp l (Add | Sub) r) => is_num l || is_num r
                 | _ => false
                 end) nodes
  end.

(** [_num_of_variables_in_a_product] *)
Fixpoint _num_of_variables_in_a_product (node : ast) : nat :=
  match node with
  | BinOp l Mult r =>
      (match l with
       | Name _ => 1
       | BinOp _ _ _ => _num_of_variables_in_a_product l
       | _ => 0
       end) +
      (match r with
       | Name _ => 1
       | BinOp _ _ _ => _num_of_variables_in_a_product r
       | _ => 0
       end)
  | _ => 0
  end.

(** [_max_num_variables_in_a_product] *)
Definition _max_num_variables_in_a_product (tree : ast) : nat :=
  foldl (fun m node =>
           match node with
           | NAst (BinOp l o r) =>
               Nat.max m (_num_of_variables_in_a_product (BinOp l o r))
           | _ => m
           end) 0 (walk tree).

(** [_expr_has_products_of_variables] *)
Definition _expr_has_products_of_variables (tree : ast) : bool :=
  bool_decide (1 < _max_num_variables_in_a_product tree).

(** [_product_has_name] *)
Fixpoint _product_has_name (node : ast) : bool :=
  match node with
  | Name _ => true
  | BinOp l Mult r => _product_has_name l || _product_has_name r
  | _ => false
  end.

(** [_product_has_num] *)
Fixpoint _product_has_num (node : ast) : bool :=
  match node with
  | Num _ => true
  | BinOp l Mult r => _product_has_num l || _product_has_num r
  | _ => false
  end.

(** [_expr_has_constant_right_of_vars] *)
Definition _expr_has_constant_right_of_vars (tree : ast) : bool :=
  existsb (fun node =>
             match node with
             | NAst (BinOp l Mult r) => _product_has_name l && _product_has_num r
             | _ => false
             end) (walk tree).

(** The normalisation of [_validate]: the six calls between the checks of
    the node types and the checks of the normal form. *)
Definition normalize (tree : ast) : option ast :=
  let tree := _remove_unary_operators tree in
  let tree := _multiply_numbers tree in
  tree ← _dist_mult tree;
  let tree := _multiply_numbers tree in
  let tree := _remove_subtraction tree in
  let tree := _multiply_numbers tree in
  Some tree.

(** [_validate] on the text [expression]: what it returns, and the
    attributes [tree] and [is_linear] it leaves. *)
Record validation := {
  rv : bool * option string;
  tree : option ast;
  v_is_linear : bool;
}.

Definition _validate (py : Python) (expression_ : string) : result validation :=
  match ast_parse py expression_ with
  | None =>
      Ok {| rv := (false, Some ("Python syntax error in '" +:+ expression_ +:+ "'"));
            tree := None; v_is_linear := false |}
  | Some t =>
      let '(valid, error) := _validate_node_types t in
      if negb valid then Ok {| rv := (valid, error); tree := Some t; v_is_linear := false |}
      else
      let '(valid, error) := _validate_nums t in
      if negb valid then Ok {| rv := (valid, error); tree := Some t; v_is_linear := false |}
      else
        match normalize t with
        | None => Raise OutOfFuel
        | Some t =>
            if _expr_has_a_constant t then
              Ok {| rv := (false, Some ("expression '" +:+ expression_
                                        +:+ "' contains constant term(s)"));
                    tree := Some t; v_is_linear := false |}
            else if _expr_has_products_of_variables t then
              Ok {| rv := (false, Some ("expression '" +:+ expression_
                                        +:+ "' contains product(s) of variables"));
                    tree := Some t; v_is_linear := false |}
            else if _expr_has_constant_right_of_vars t then
              Ok {| rv := (false, Some ("expression '" +:+ expression_
                                        +:+ "' contains a constant right of a var in a product"));
                    tree := Some t; v_is_linear := false |}
            else Ok {| rv := (true, None); tree := Some t; v_is_linear := true |}
        end
  end.

(** The first loop of [_get_coeffs_for_vars]: [coeff] is the coefficient
    that the next name takes. *)
Fixpoint coeff_scan (coeff : pynum) (nodes : list pynode)
    : result (list (Z * string)) :=
  match nodes with
  | [] => Ok []
  | NAst (Num n) :: rest => coeff_scan n rest
  | NAst (Name id) :: rest =>
      match py_float coeff with
      | inl c =>
          do pairs <- coeff_scan (PyInt 1) rest in
          Ok ((c, id) :: pairs)
      | inr e => Raise (TypeError e)
      end
  | _ :: rest => coeff_scan coeff rest
  end.

(** [{opaque_id: id for id, opaque_id in self.opaque_ids.items()}] *)
Definition inverted_opaque_ids (self : LinearParsedExpressionValidator)
    : gmap string string :=
  foldl (fun inv '(id, opaque_id) => <[opaque_id := id]> inv) ∅
        (map_to_list (opaque_ids self)).

(** The id that a name of the tree stands for *)
Definition original_id (self : LinearParsedExpressionValidator)
    (model_id : string) : string :=
  match inverted_opaque_ids self !! model_id with
  | Some id => id
  | None => model_id
  end.

(** [_get_coeffs_for_vars] *)
Definition _get_coeffs_for_vars (self : LinearParsedExpressionValidator)
    (tree : ast) : result (list (Z * string)) :=
  do coeff_model_id_pairs <- coeff_scan (PyInt 1) (walk tree) in
  Ok (map (fun '(coeff, model_id) => (coeff, original_id self model_id))
          coeff_model_id_pairs).

(** [get_cls_and_model]: [Ok None] stands for [(None, None)]. *)
Definition get_cls_and_model (parsed_expression : ParsedExpression)
    (expression_ id : string) : result (option (ModelType * Instance)) :=
  let found :=
    flat_map (fun '(related_class, related_objs) =>
                omap (fun '(_, related_obj) =>
                        if bool_decide (inst_id related_obj = id)
                        then Some (related_class, related_obj) else None)
                     (map_to_list related_objs))
             (map_to_list (related_objects parsed_expression)) in
  match found with
  | [] => Ok None
  | [x] => Ok (Some x)
  | _ :: _ :: _ =>
      Raise (ParsedExpressionError
               ("multiple models with id='" +:+ id +:+ "' in expression '"
                +:+ expression_ +:+ "'"))
  end.

(** [lin_coeffs[related_class][related_obj] = default_val] for the related
    objects of one class *)
Definition init_class_coeffs (related_class : ModelType) (default_val : coeff)
    (acc : result (gmap ModelType (gmap Instance coeff)))
    (related_objs : list (string * Instance))
    : result (gmap ModelType (gmap Instance coeff)) :=
  foldl
    (fun acc '(_, related_obj) =>
       do lc <- acc in
       match lc !! related_class with
       | Some inner =>
           Ok (<[related_class := <[related_obj := default_val]> inner]> lc)
       | None => Raise (KeyError (__name__ related_class))
       end)
    acc related_objs.

(** The loop of [_set_lin_coeffs] over the related objects of every class *)
Definition init_lin_coeffs (parsed_expression : ParsedExpression)
    (default_val : coeff) (lin_coeffs : gmap ModelType (gmap Instance coeff))
    : result (gmap ModelType (gmap Instance coeff)) :=
  foldl
    (fun acc '(related_class, related_objs) =>
       init_class_coeffs related_class default_val acc (map_to_list related_objs))
    (Ok lin_coeffs) (map_to_list (related_objects parsed_expression)).

Definition coeff_add (c : coeff) (z : Z) : coeff :=
  match c with
  | Coeff a => Coeff (a + z)
  | NaN => NaN
  end.

(** [lin_coeffs[model_cls][model] += coeff] for every pair; the
    coefficients reached when an exception ends the loop are kept. *)
Fixpoint add_lin_coeffs (parsed_expression : ParsedExpression) (expression_ : string)
    (pairs : list (Z * string)) (lin_coeffs : gmap ModelType (gmap Instance coeff))
    : gmap ModelType (gmap Instance coeff) * option exn :=
  match pairs with
  | [] => (lin_coeffs, None)
  | (coeff, var_id) :: rest =>
      match get_cls_and_model parsed_expression expression_ var_id with
      | Raise e => (lin_coeffs, Some e)
      | Ok None => (lin_coeffs, Some (KeyError "None"))
      | Ok (Some (model_cls, model)) =>
          match lin_coeffs !! model_cls with
          | None => (lin_coeffs, Some (KeyError (__name__ model_cls)))
          | Some inner =>
              match inner !! model with
              | None => (lin_coeffs, Some (KeyError (inst_id model)))
              | Some c =>
                  add_lin_coeffs parsed_expression expression_ rest
                    (<[model_cls := <[model := coeff_add c coeff]> inner]> lin_coeffs)
              end
          end
      end
  end.

(** [_set_lin_coeffs] *)
Definition _set_lin_coeffs (self : LinearParsedExpressionValidator)
    (expression_ : string) (v : validation) (parsed_expression : ParsedExpression)
    : ParsedExpression * option exn :=
  let default_val := if v_is_linear v then Coeff 0 else NaN in
  let lin_coeffs : gmap ModelType (gmap Instance coeff) :=
    foldl (fun lc related_class => <[related_class := ∅]> lc) ∅
          (expression_term_classes (model_cls parsed_expression)) in
  match init_lin_coeffs parsed_expression default_val lin_coeffs with
  | Raise e => (set_lin_coeffs lin_coeffs parsed_expression, Some e)
  | Ok lin_coeffs =>
      if negb (v_is_linear v) then (set_lin_coeffs lin_coeffs parsed_expression, None)
      else
        match tree v with
        | None => (set_lin_coeffs lin_coeffs parsed_expression, None)
        | Some t =>
            match _get_coeffs_for_vars self t with
            | Raise e => (set_lin_coeffs lin_coeffs parsed_expression, Some e)
            | Ok pairs =>
                let '(lin_coeffs, e) :=
                  add_lin_coeffs parsed_expression expression_ pairs lin_coeffs in
                (set_lin_coeffs lin_coeffs parsed_expression, e)
            end
        end
  end.

(** [validate]: the validator and the parsed expression it leaves, and what
    it returns or raises. *)
Definition validate (py : Python) (self : LinearParsedExpressionValidator)
    (parsed_expression : ParsedExpression) (set_linear_coeffs : bool)
    : LinearParsedExpressionValidator * ParsedExpression
      * result (bool * option string) :=
  let '(self, expr) := _expr_with_python_ids py self parsed_expression in
  (* _init *)
  let expression_ := strip expr in
  if bool_decide (expression_ = "") then
    (self, parsed_expression, Raise (ValueError "Cannot validate empty expression"))
  else
    match _validate py expression_ with
    | Raise e => (self, parsed_expression, Raise e)
    | Ok v =>
        if set_linear_coeffs then
          match _set_lin_coeffs self expression_ v parsed_expression with
          | (parsed_expression, Some e) => (self, parsed_expression, Raise e)
          | (parsed_expression, None) => (self, parsed_expression, Ok (rv v))
          end
        else (self, parsed_expression, Ok (rv v))
    end.

(** ** [MoveCoeffsToLeft], which [_validate] does not use *)

Definition MoveCoeffsToLeft_node (e : ast) : ast :=
  match e with
  | BinOp l Mult (Num n) =>
      match l with
      | Name _ | BinOp _ Mult _ => BinOp (Num n) Mult l
      | _ => e
      end
  | _ => e
  end.

(** [MoveCoeffsToLeft]: [x * 5] to [5 * x]. *)
Fixpoint MoveCoeffsToLeft (e : ast) : ast :=
  match e with
  | BinOp l o r =>
      MoveCoeffsToLeft_node (BinOp (MoveCoeffsToLeft l) o (MoveCoeffsToLeft r))
  | UnaryOp o operand => UnaryOp o (MoveCoeffsToLeft operand)
  | Node cls cs => Node cls (map MoveCoeffsToLeft cs)
  | Num _ | Name _ => e
  end.

(** The [while True] loop of [_move_coeffs_to_left] *)
Fixpoint move_coeffs_loop (fuel : nat) (tree : ast) : option ast :=
  match fuel with
  | O => None
  | S fuel' =>
      let tree_copy := tree in
      let tree := MoveCoeffsToLeft tree in
      if ast_eq tree_copy tree then Some tree else move_coeffs_loop fuel' tree
  end.

Definition _move_coeffs_to_left (tree : ast) : option ast :=
  move_coeffs_loop (S (ast_size tree)) tree.

(** ** [ParsedExpression.__init__]

    An attribute of a model class: what [str] makes of it, and the related
    class when it is a [RelatedAttribute]. *)
Record ModelAttribute := {
  attribute_str : string;
  attribute_related_class : option ModelType;
}.

(** The class passed as [model_cls]: its [__name__], whether it is a
    subclass of [Model], and the attributes of its [Meta] that [__init__]
    reads; [None] stands for an attribute that [Meta] does not have.
    [meta_attributes] are the values of [Meta.attributes], in order, and
    [meta_expression_unit_registry] tells whether the registry is not
    [None]. *)
Record PythonClass := {
  class_name : string;
  class_is_model : bool;
  meta_expression_term_models : option (list string);
  meta_attributes : list ModelAttribute;
  meta_expression_valid_functions : option (list string);
  meta_expression_unit_registry : option bool;
}.

(** The object passed as [expression]: a [str], an [int] or a [float] with
    what [str] makes of it, or any other object with its formatted text. *)
Inductive PythonValue :=
| PyStr (s : string)
| PyNumber (str : string)
| PyObject (str : string).

(** What the engine reads of the class later on *)
Definition model_cls_of (model_cls : PythonClass) : ModelCls :=
  {| cls_name := class_name model_cls;
     expression_valid_functions := meta_expression_valid_functions model_cls;
     expression_term_classes :=
       omap (fun a =>
               match attribute_related_class a with
               | Some related_class =>
                   if bool_decide (__name__ related_class
                                   ∈ default [] (meta_expression_term_models model_cls))
                   then Some related_class else None
               | None => None
               end) (meta_attributes model_cls) |}.

(** The loop [for attr in model_cls.Meta.attributes.values()]: the related
    class it finds, and the text of the attribute that the variable [attr]
    of [__init__] is left on. *)
Fixpoint related_class_named (expression_term_model_type_name : string)
    (attributes : list ModelAttribute) (attr : string) : option ModelType * string :=
  match attributes with
  | [] => (None, attr)
  | a :: rest =>
      match attribute_related_class a with
      | Some related_class =>
          if bool_decide (__name__ related_class = expression_term_model_type_name)
          then (Some related_class, attribute_str a)
          else related_class_named expression_term_model_type_name rest (attribute_str a)
      | None =>
          related_class_named expression_term_model_type_name rest (attribute_str a)
      end
  end.

(** The loop over [Meta.expression_term_models] *)
Fixpoint term_models_loop (model_cls : PythonClass) (names : list string)
    (term_models : list ModelType) (attr : string)
    : result (list ModelType * string) :=
  match names with
  | [] => Ok (term_models, attr)
  | expression_term_model_type_name :: rest =>
      match related_class_named expression_term_model_type_name
              (meta_attributes model_cls) attr with
      | (Some related_class, attr) =>
          term_models_loop model_cls rest (set_add related_class term_models) attr
      | (None, _) =>
          Raise (ParsedExpressionError
                   ("Expression term " +:+ expression_term_model_type_name
                    +:+ " must have a relationship to " +:+ class_name model_cls))
      end
  end.

(** [__init__]; the loop variable [attr] shadows the argument [attr], so
    that [self.attr] is the attribute the loops ended on whenever they ran. *)
Definition __init__ (py : Python) (model_cls : PythonClass) (attr : string)
    (expression_ : PythonValue) (objs : gmap ModelType (gmap string Instance))
    : result ParsedExpression :=
  if negb (class_is_model model_cls) then
    Raise (ParsedExpressionError
             ("model_cls '" +:+ class_name model_cls
              +:+ "' is not a subclass of Model"))
  else
    match meta_expression_term_models model_cls with
    | None =>
        Raise (ParsedExpressionError
                 ("model_cls '" +:+ class_name model_cls
                  +:+ "' doesn't have a 'Meta.expression_term_models' attribute"))
    | Some names =>
        match term_models_loop model_cls names [] attr with
        | Raise e => Raise e
        | Ok (term_models_, attr) =>
            let valid_functions_ :=
              match meta_expression_valid_functions model_cls with
              | Some fs => foldl (fun acc f => set_add f acc) [] fs
              | None => []
              end in
            match meta_expression_unit_registry model_cls with
            | None =>
                Raise (OtherException "AttributeError"
                         "type object 'Meta' has no attribute 'expression_unit_registry'")
            | Some unit_registry_ =>
                match expression_ with
                | PyObject str =>
                    Raise (ParsedExpressionError
                             ("Expression '" +:+ str +:+ "' in "
                              +:+ class_name model_cls
                              +:+ " must be string, float or integer"))
                | PyStr s | PyNumber s =>
                    let expression_ := strip s in
                    let expr := prep_expr_for_tokenization py expression_ in
                    match tokenize_tokenize py expr with
                    | inr e =>
                        Raise (ParsedExpressionError
                                 ("parsing '" +:+ expression_ +:+ "', a "
                                  +:+ class_name model_cls +:+ "." +:+ attr
                                  +:+ ", creates a Python syntax error: '"
                                  +:+ e +:+ "'"))
                    | inl g =>
                        Ok (reset_tokenization
                              {| model_cls := model_cls_of model_cls; attr := attr;
                                 expression := expression_;
                                 _py_tokens := python_tokens g; _objs := objs;
                                 term_models := term_models_;
                                 valid_functions := valid_functions_;
                                 unit_registry := unit_registry_;
                                 related_objects := ∅; lin_coeffs := ∅; errors := [];
                                 _obj_tables_tokens := [];
                                 _compiled_expression := None;
                                 _compiled_expression_with_units := None;
                                 _compiled_namespace := ∅;
                                 _compiled_namespace_with_units := ∅ |})
                    end
                end
            end
        end
    end.

(** ** [test_eval]

    An [int], a [float] or a [bool] *)
Inductive scalar :=
| ScalarNum (z : Z)
| ScalarBool (b : bool).

Definition scalar_value (v : scalar) : value :=
  match v with
  | ScalarNum z => VNum z
  | ScalarBool b => VBool b
  end.

(** The argument [values]: a scalar, or a dictionary from model types to
    scalars and dictionaries of values. *)
Inductive test_values :=
| ScalarValue (v : scalar)
| ValuesDict (items : list (ModelType * (scalar + id_values))).

(** [collections.defaultdict(constant_factory(value))] *)
Definition constant_dict (v : scalar) : id_values :=
  {| iv_items := ∅; iv_default := Some (scalar_value v) |}.

(** The dictionary [obj_values] of [test_eval] *)
Definition obj_values (self : ParsedExpression) (values : test_values)
    : list (ModelType * id_values) :=
  match values with
  | ScalarValue v =>
      map (fun '(model_type, _) => (model_type, constant_dict v))
          (map_to_list (related_objects self))
  | ValuesDict items =>
      map (fun '(model_type, model_values) =>
             (model_type,
              match model_values with
              | inl v => constant_dict v
              | inr d => d
              end)) items
  end.

(** [test_eval] *)
Definition test_eval (py : Python) (nested : Instance -> option ParsedExpression)
    (fuel : nat) (self : ParsedExpression) (values : test_values)
    (with_units : bool) : result value :=
  eval py nested fuel self (obj_values self values) with_units.

(** * Definitions used to state the properties *)

(** The induction principle of syntax trees, with the children of a
    [Node] covered. *)
Section AstInduction.
Variable P : ast -> Prop.
Hypothesis HNum : forall n, P (Num n).
Hypothesis HName : forall id, P (Name id).
Hypothesis HUnary : forall o e, P e -> P (UnaryOp o e).
Hypothesis HBin : forall l o r, P l -> P r -> P (BinOp l o r).
Hypothesis HNode : forall cls cs, Forall P cs -> P (Node cls cs).

Fixpoint ast_ind (e : ast) : P e :=
  match e with
  | Num n => HNum n
  | Name id => HName id
  | UnaryOp o e => HUnary o e (ast_ind e)
  | BinOp l o r => HBin l o r (ast_ind l) (ast_ind r)
  | Node cls cs =>
      HNode cls cs
        ((fix go (l : list ast) : Forall P l :=
            match l with
            | [] => Forall_nil_2 P
            | c :: l' => Forall_cons_2 P c l' (ast_ind c) (go l')
            end) cs)
  end.
End AstInduction.

Fixpoint sum_sizes (cs : list ast) : nat :=
  match cs with
  | [] => 0
  | c :: cs' => ast_size c + sum_sizes cs'
  end.

(** [subnode n m]: [ast.iter_child_nodes] leads from [m] to [n]. *)
Inductive subnode : pynode -> pynode -> Prop :=
| subnode_refl n : subnode n n
| subnode_child n c m :
    c ∈ iter_child_nodes m -> subnode n c -> subnode n m.

(** The node kinds of a function call, a comparison, a division and an
    exponentiation. *)
Definition nonlinear_node (n : pynode) : Prop :=
  match n with
  | NAst (Node Call _) | NAst (Node (Compare _) _)
  | NAst (BinOp _ Div _) | NAst (BinOp _ Pow _) => True
  | _ => False
  end.

(** [m[k1][k2]] *)
Definition lookup2 {K1 K2 V} `{Countable K1} `{Countable K2}
    (m : gmap K1 (gmap K2 V)) (k1 : K1) (k2 : K2) : option V :=
  m !! k1 ≫= (fun inner => inner !! k2).

(** The related classes are classes of the owner: [__init__] takes
    [term_models] from the classes that [_set_lin_coeffs] uses as keys. *)
Definition related_classes_declared (pe : ParsedExpression) : Prop :=
  forall cls, is_Some (related_objects pe !! cls) ->
              cls ∈ expression_term_classes (model_cls pe).

(** The trees that pass [_validate_node_types]. *)
Fixpoint valid_tree (e : ast) : bool :=
  match e with
  | Num _ | Name _ => true
  | UnaryOp _ e => valid_tree e
  | BinOp l (Add | Sub | Mult) r => valid_tree l && valid_tree r
  | BinOp _ (Div | Pow) _ => false
  | Node _ _ => false
  end.

(** The valid trees without unary operators. *)
Fixpoint plain (e : ast) : bool :=
  match e with
  | Num _ | Name _ => true
  | BinOp l (Add | Sub | Mult) r => plain l && plain r
  | _ => false
  end.

(** No subtraction is left. *)
Fixpoint sub_free (e : ast) : bool :=
  match e with
  | BinOp l o r => negb (bool_decide (o = Sub)) && sub_free l && sub_free r
  | UnaryOp _ e => sub_free e
  | _ => true
  end.

(** No product of two numbers is left for [MultiplyNums]. *)
Fixpoint nums_folded (e : ast) : bool :=
  match e with
  | BinOp l o r =>
      nums_folded l && nums_folded r &&
      match l, o, r with
      | Num _, Mult, Num _ => false
      | Num _, Mult, BinOp (Num _) Mult _ => false
      | _, _, _ => true
      end
  | UnaryOp _ e => nums_folded e
  | _ => true
  end.

(** Following the specification: a pass is repeated until a round leaves
    the tree structurally equal to the tree before the round. *)
Fixpoint repeat_to_fixpoint (pass : ast -> ast) (fuel : nat) (tree : ast)
    : option ast :=
  match fuel with
  | O => None
  | S fuel' =>
      let tree' := pass tree in
      if ast_eq tree tree' then Some tree'
      else repeat_to_fixpoint pass fuel' tree'
  end.

(** Following the specification: the six passes in their order, each one
    repeated to a fixpoint. *)
Definition normalize_to_fixpoints (tree : ast) : option ast :=
  let rounds t := S (dist_measure t) in
  tree ← repeat_to_fixpoint RemoveUnaryOps (rounds tree) tree;
  tree ← repeat_to_fixpoint MultiplyNums (rounds tree) tree;
  tree ← repeat_to_fixpoint DistributeMult (rounds tree) tree;
  tree ← repeat_to_fixpoint MultiplyNums (rounds tree) tree;
  tree ← repeat_to_fixpoint DistributeSub (rounds tree) tree;
  repeat_to_fixpoint MultiplyNums (rounds tree) tree.


(** What [__init__] sets and [tokenize] only reads *)
Definition inputs (self : ParsedExpression) :=
  (model_cls self, attr self, expression self, _py_tokens self, _objs self,
   term_models self, valid_functions self, unit_registry self).

(** ** The tokenizer *)

Definition key_le {A} (key : A -> nat) (a b : A) : bool :=
  Nat.leb (key a) (key b).

(** ascending by key *)
Fixpoint ascending {A} (key : A -> nat) (l : list A) : Prop :=
  match l with
  | [] => True
  | x :: l' => Forall (fun y => key x <= key y) l' /\ ascending key l'
  end.

(** The key under which a matched text is looked up *)
Definition lookup_key (py : Python) (case_fold_match : bool) (s : string) : string :=
  if case_fold_match then casefold py s else s.

(** The token pattern of the term type [mt] matches the text [text] at the
    token [idx]. *)
Definition token_pattern_matches (self : ParsedExpression) (idx : nat)
    (mt : ModelType) (text : string) : Prop :=
  mt ∈ term_models self /\
  _match_tokens self (expression_term_token_pattern mt) idx = Some text /\
  text <> "".

(** [text] is the id of an instance of [mt] *)
Definition known_id (py : Python) (self : ParsedExpression)
    (case_fold_match : bool) (mt : ModelType) (text : string) : Prop :=
  is_Some (objs_of self mt !! lookup_key py case_fold_match text).

(** The token [t] is an [obj_id] token of type [mt], id [id] and instance
    [o]. *)
Definition carries (t : ObjTablesToken) (mt : ModelType) (id : string)
    (o : Instance) : Prop :=
  code t = obj_id /\ model_type t = Some mt /\ model_id t = Some id /\
  model t = Some o.

(** An [obj_id] token refers to an instance of a term type. *)
Definition resolved (self : ParsedExpression) (t : ObjTablesToken) : Prop :=
  code t = obj_id ->
  exists mt id o, mt ∈ term_models self /\ objs_of self mt !! id = Some o /\
                  carries t mt id o.

(** What the loop of [tokenize] maintains *)
Record tokenize_invariant (self : ParsedExpression) : Prop := {
  inv_keys : forall mt, mt ∈ term_models self -> is_Some (related_objects self !! mt);
  inv_tokens : Forall (resolved self) (_obj_tables_tokens self);
  inv_related :
    forall mt id o,
      lookup2 (related_objects self) mt id = Some o <->
      exists t, t ∈ _obj_tables_tokens self /\ carries t mt id o;
}.

Definition good_match (self : ParsedExpression) (m : LexMatch) : Prop :=
  1 <= num_py_tokens m /\ Forall (resolved self) (obj_tables_tokens m).

(** Did [tokenize] return without errors? *)
Definition succeeded (r : result tokenize_rv) : bool :=
  match r with
  | Ok (_, _, None) => true
  | _ => false
  end.

(** The exception that ended a call *)
Definition raised {A} (r : result A) : option exn :=
  match r with
  | Raise e => Some e
  | Ok _ => None
  end.

(** A NAME token of text [s] *)
Definition name_token (t : TokenInfo) (s : string) : Prop :=
  tok_type t = NAME /\ exact_type t = NAME /\ tok_string t = s /\
  startswith "__digit__" s = false.

(** The token [.] *)
Definition dot_token (t : TokenInfo) : Prop :=
  tok_type t = OP /\ exact_type t = DOT /\ tok_string t = ".".

(** No whitespace between two tokens *)
Definition adjacent (a b : TokenInfo) : Prop := tok_end a = tok_start b.

(** The errors that [tokenize] returns *)
Definition returned_errors (r : result tokenize_rv) : option (list string) :=
  match r with
  | Ok (_, _, errs) => errs
  | Raise _ => None
  end.

(** The cause classification of the [except] clauses around Python's
    [eval] *)
Definition cause_prefix (error : exn) : string :=
  match error with
  | SyntaxError _ => "SyntaxError:"
  | NameError _ => "NameError:"
  | _ => "Exception:"
  end.

(** ** The value of a syntax tree

    What Python's arithmetic on [int]s gives for a tree whose names stand
    for integers; [None] for the nodes and literals outside this
    arithmetic. *)
Fixpoint ast_value (env : string -> Z) (e : ast) : option Z :=
  match e with
  | Num (PyInt z) => Some z
  | Num (PyComplex _ _) => None
  | Name id => Some (env id)
  | UnaryOp UAdd e => ast_value env e
  | UnaryOp USub e => Z.opp <$> ast_value env e
  | BinOp l Add r => l' ← ast_value env l; r' ← ast_value env r; Some (l' + r')%Z
  | BinOp l Sub r => l' ← ast_value env l; r' ← ast_value env r; Some (l' - r')%Z
  | BinOp l Mult r => l' ← ast_value env l; r' ← ast_value env r; Some (l' * r')%Z
  | BinOp _ (Div | Pow) _ => None
  | Node _ _ => None
  end.

(** A sum or a difference *)
Definition is_sum (e : ast) : bool :=
  match e with
  | BinOp _ (Add | Sub) _ => true
  | _ => false
  end.

(** No product has a sum or a difference as an operand. *)
Fixpoint distributed (e : ast) : bool :=
  match e with
  | BinOp l o r =>
      distributed l && distributed r &&
      match o with
      | Mult => negb (is_sum l) && negb (is_sum r)
      | _ => true
      end
  | UnaryOp _ e => distributed e
  | _ => true
  end.

(** No product has a number to the right of a name or of a product. *)
Fixpoint coeffs_left (e : ast) : bool :=
  match e with
  | BinOp l o r =>
      coeffs_left l && coeffs_left r &&
      match l, o, r with
      | Name _, Mult, Num _ => false
      | BinOp _ Mult _, Mult, Num _ => false
      | _, _, _ => true
      end
  | UnaryOp _ e => coeffs_left e
  | Node _ cs => forallb coeffs_left cs
  | _ => true
  end.

(** ** The opaque ids of a validator *)

(** [model_id.isidentifier() and not keyword.iskeyword(model_id)] *)
Definition python_identifier (py : Python) (model_id : string) : bool :=
  isidentifier py model_id && negb (iskeyword py model_id).

(** The opaque ids that a validator has handed out are numbered below
    [next_id], and two model ids never share one. *)
Record opaque_ids_wf (self : LinearParsedExpressionValidator) : Prop := {
  wf_range :
    forall id o, opaque_ids self !! id = Some o ->
      exists k, k < next_id self /\ o = VALID_PYTHON_ID_PREFIX +:+ pretty k;
  wf_inj :
    forall id1 id2 o, opaque_ids self !! id1 = Some o ->
      opaque_ids self !! id2 = Some o -> id1 = id2;
}.

(** The related objects with the id [id], as [get_cls_and_model] meets
    them *)
Definition models_with_id (parsed_expression : ParsedExpression) (id : string)
    : list (ModelType * Instance) :=
  flat_map (fun '(related_class, related_objs) =>
              omap (fun '(_, related_obj) =>
                      if bool_decide (inst_id related_obj = id)
                      then Some (related_class, related_obj) else None)
                   (map_to_list related_objs))
           (map_to_list (related_objects parsed_expression)).

(** The value of the linear combination [c1 * x1 + ... + cn * xn] *)
Definition linear_value (env : string -> Z) (terms : list (Z * string)) : Z :=
  foldr (fun '(c, id) s => (c * env id + s)%Z) 0%Z terms.

(** A product of numbers and names *)
Fixpoint product (e : ast) : bool :=
  match e with
  | Num _ | Name _ => true
  | BinOp l Mult r => product l && product r
  | _ => false
  end.

(** A sum of products *)
Fixpoint sum_of_products (e : ast) : bool :=
  match e with
  | BinOp l (Add | Sub) r => sum_of_products l && sum_of_products r
  | _ => product e
  end.

(** Sums and products where a sum is multiplied only by a number on its
    left: the trees that [DistributeSub] makes of sums of products. *)
Fixpoint scaled (e : ast) : bool :=
  match e with
  | Num _ | Name _ => true
  | BinOp l (Add | Sub) r => scaled l && scaled r
  | BinOp l Mult r => (product l && product r) || (is_num l && scaled r)
  | _ => false
  end.

(** The number of names in a product *)
Fixpoint names (e : ast) : nat :=
  match e with
  | Name _ => 1
  | BinOp l Mult r => names l + names r
  | _ => 0
  end.

(** What the three checks of the normal form ask of a node *)
Definition checked_node (n : pynode) : Prop :=
  match n with
  | NAst (BinOp l o r) =>
      (is_add_sub o = true -> is_num l = false /\ is_num r = false)
      /\ _num_of_variables_in_a_product (BinOp l o r) <= 1
      /\ (o = Mult -> _product_has_name l && _product_has_num r = false)
  | _ => True
  end.

(** What [tokenize] derives, apart from the tokens and the errors *)
Definition derived (self : ParsedExpression) :=
  (lin_coeffs self, _compiled_expression self, _compiled_expression_with_units self).

(** The matches and the errors of the lexical element getters at a token *)
Definition lex_matches (py : Python) (self : ParsedExpression) (idx : nat)
    (case_fold_match : bool) : list LexMatch :=
  omap (fun r => match r with Matched m => Some m | _ => None end)
       (lex_results py self idx case_fold_match).

Definition lex_errors (py : Python) (self : ParsedExpression) (idx : nat)
    (case_fold_match : bool) : list string :=
  omap (fun r => match r with LexError e => Some e | _ => None end)
       (lex_results py self idx case_fold_match).

(** The attribute [a] of the class is a relationship to the class
    [related_class], whose name is [name]. *)
Definition relationship (model_cls : PythonClass) (name : string)
    (related_class : ModelType) (a : ModelAttribute) : Prop :=
  a ∈ meta_attributes model_cls /\ attribute_related_class a = Some related_class
  /\ __name__ related_class = name.

(** ** Expressions in linear form

    [a1 * v1 +/- a2 * v2 +/- ... +/- an * vn]: every term is an identifier,
    or a numeric literal times an identifier; [lt_cls] and [lt_obj] are the
    class and the instance that the identifier refers to. *)

Inductive sign := Plus | Minus.

Record lin_term := {
  lt_coeff : option Z;
  lt_name : string;
  lt_cls : ModelType;
  lt_obj : Instance;
}.

Definition term_tree (t : lin_term) : ast :=
  match lt_coeff t with
  | Some c => BinOp (Num (PyInt c)) Mult (Name (lt_name t))
  | None => Name (lt_name t)
  end.

Definition sign_operator (s : sign) : operator :=
  match s with Plus => Add | Minus => Sub end.

(** The tree that [ast.parse] builds for a linear form: sums and
    differences associate to the left. *)
Definition linear_form_tree (first : lin_term) (rest : list (sign * lin_term)) : ast :=
  foldl (fun acc '(s, t) => BinOp acc (sign_operator s) (term_tree t))
        (term_tree first) rest.

(** The coefficient of one occurrence: the literal, 1 by default, negated
    after a minus sign. *)
Definition signed_coeff (s : sign) (t : lin_term) : Z :=
  (match s with Plus => 1 | Minus => -1 end * default 1 (lt_coeff t))%Z.

Definition signed_terms (first : lin_term) (rest : list (sign * lin_term))
    : list (Z * lin_term) :=
  (signed_coeff Plus first, first) :: map (fun '(s, t) => (signed_coeff s t, t)) rest.

(** The signed sum of the coefficients of the occurrences of an instance *)
Definition signed_sum (terms : list (Z * lin_term)) (cls : ModelType)
    (obj : Instance) : Z :=
  foldr Z.add 0%Z
        (map fst (filter (fun '(_, t) => lt_cls t = cls /\ lt_obj t = obj) terms)).

(** The trees that the normalisation leaves for a linear form: sums of
    names and of products of a number and a name. *)
Inductive normal_sum : ast -> Prop :=
| normal_name id : normal_sum (Name id)
| normal_product c id : normal_sum (BinOp (Num (PyInt c)) Mult (Name id))
| normal_add l r : normal_sum l -> normal_sum r -> normal_sum (BinOp l Add r).

(** The nodes of such a tree *)
Definition normal_node (n : pynode) : Prop :=
  match n with
  | NAst (Num (PyInt _)) => True
  | NAst e => normal_sum e
  | _ => True
  end.

(** The (coefficient, name) pairs of a normalised tree, left to right *)
Fixpoint tree_terms (e : ast) : list (Z * string) :=
  match e with
  | Name id => [(1%Z, id)]
  | BinOp (Num (PyInt c)) Mult (Name id) => [(c, id)]
  | BinOp l Add r => tree_terms l ++ tree_terms r
  | _ => []
  end.

(** The queue of [ast.walk] on a normalised tree, cut into the pieces that
    the scan for coefficients handles as a whole *)
Inductive segment :=
| SegTree (e : ast)
| SegOther (n : pynode)
| SegProduct (c : Z) (id : string).

Definition segment_nodes (s : segment) : list pynode :=
  match s with
  | SegTree e => [NAst e]
  | SegOther n => [n]
  | SegProduct c id => [NAst (Num (PyInt c)); NOperator Mult; NAst (Name id)]
  end.

Definition segment_terms (s : segment) : list (Z * string) :=
  match s with
  | SegTree e => tree_terms e
  | SegOther _ => []
  | SegProduct c id => [(c, id)]
  end.

Definition segment_ok (s : segment) : Prop :=
  match s with
  | SegTree e => normal_sum e
  | SegOther n => match n with NAst _ => False | _ => True end
  | SegProduct _ _ => True
  end.

(** What the normalisation makes of a term after a sign *)
Definition normal_term (s : sign) (t : lin_term) : ast :=
  match s, lt_coeff t with
  | Plus, _ => term_tree t
  | Minus, Some c => BinOp (Num (PyInt (-1 * c))) Mult (Name (lt_name t))
  | Minus, None => BinOp (Num (PyInt (-1))) Mult (Name (lt_name t))
  end.

(** What the normalisation makes of the tree of a linear form *)
Definition normal_form_tree (first : lin_term) (rest : list (sign * lin_term)) : ast :=
  foldl (fun acc '(s, t) => BinOp acc Add (normal_term s t)) (term_tree first) rest.

(** The valid trees without unary operators whose numbers are integers *)
Fixpoint int_plain (e : ast) : bool :=
  match e with
  | Num (PyInt _) | Name _ => true
  | BinOp l (Add | Sub | Mult) r => int_plain l && int_plain r
  | _ => false
  end.

(** The nodes of such a tree *)
Definition int_plain_node (n : pynode) : Prop :=
  match n with
  | NAst e => int_plain e = true
  | NOperator o => o = Add \/ o = Sub \/ o = Mult
  | NLoad => True
  | _ => False
  end.

(** * Example data

    A [Parameter] class with two instances, an owner class, and the answers
    of the Python runtime on the texts of the examples. *)

Module Examples.

Definition ParameterCls : ModelType :=
  {| __name__ := "Parameter"; expression_term_token_pattern := [NAME];
     expression_term_model := false; expression_term_value := true |}.

Definition Species : ModelType :=
  {| __name__ := "Species";
     expression_term_token_pattern := [NAME; LSQB; NAME; RSQB];
     expression_term_model := false; expression_term_value := false |}.

Definition Observable : ModelType :=
  {| __name__ := "Observable"; expression_term_token_pattern := [NAME];
     expression_term_model := false; expression_term_value := false |}.

Definition instance (ref : nat) (id : string) (units : units_attr) : Instance :=
  {| obj_ref := ref; inst_id := id; primary_attribute := id;
     inst_units := units; inst_value := VNum 1 |}.

Definition p_1 : Instance := instance 1 "p_1" (RegistryUnit "molecule").
Definition p_2 : Instance := instance 2 "p_2" (RegistryUnit "molecule").
Definition p_3 : Instance := instance 3 "p_3" NoUnits.

Definition FunctionExpression : ModelCls :=
  {| cls_name := "FunctionExpression";
     expression_valid_functions := Some ["log"; "exp"];
     expression_term_classes := [ParameterCls; Observable] |}.

(** [str.isidentifier] on ASCII text *)
Definition is_id_start (c : ascii) : bool :=
  let n := nat_of_ascii c in
  (Nat.leb 65 n && Nat.leb n 90) || (Nat.leb 97 n && Nat.leb n 122) || Nat.eqb n 95.

Definition is_digit (c : ascii) : bool :=
  let n := nat_of_ascii c in Nat.leb 48 n && Nat.leb n 57.

Fixpoint all_id_chars (s : string) : bool :=
  match s with
  | EmptyString => true
  | String c s' => (is_id_start c || is_digit c) && all_id_chars s'
  end.

Definition ascii_isidentifier (s : string) : bool :=
  match s with
  | EmptyString => false
  | String c s' => is_id_start c && all_id_chars s'
  end.

Definition python_keywords : list string :=
  ["False"; "None"; "True"; "and"; "as"; "assert"; "async"; "await"; "break";
   "class"; "continue"; "def"; "del"; "elif"; "else"; "except"; "finally";
   "for"; "from"; "global"; "if"; "import"; "in"; "is"; "lambda"; "nonlocal";
   "not"; "or"; "pass"; "raise"; "return"; "try"; "while"; "with"; "yield"].

Definition ascii_lower (c : ascii) : ascii :=
  let n := nat_of_ascii c in
  if Nat.leb 65 n && Nat.leb n 90 then ascii_of_nat (n + 32) else c.

Fixpoint ascii_casefold (s : string) : string :=
  match s with
  | EmptyString => EmptyString
  | String c s' => String (ascii_lower c) (ascii_casefold s')
  end.

(** A token of one line; [col] is the column where it starts. *)
Definition tok (t e : token_code) (s : string) (col : nat) : TokenInfo :=
  {| tok_type := t; exact_type := e; tok_string := s;
     tok_start := (1, col); tok_end := (1, col + String.length s) |}.

Definition int (z : Z) : ast := Num (PyInt z).

(** What [ast.parse(text, mode='eval')] returns on the texts of the
    examples *)
Definition example_ast_parse (text : string) : option ast :=
  if bool_decide (text = "2 * p_1 - 3 * p_1") then
    Some (BinOp (BinOp (int 2) Mult (Name "p_1")) Sub
                (BinOp (int 3) Mult (Name "p_1")))
  else if bool_decide (text = "p_1 + p_2") then
    Some (BinOp (Name "p_1") Add (Name "p_2"))
  else if bool_decide (text = "p_1 * 2") then
    Some (BinOp (Name "p_1") Mult (int 2))
  else if bool_decide (text = "p_1 * p_2") then
    Some (BinOp (Name "p_1") Mult (Name "p_2"))
  else if bool_decide (text = "log ( p_1 )") then
    Some (Node Call [Name "log"; Name "p_1"])
  else if bool_decide (text = "p_1 / 2") then
    Some (BinOp (Name "p_1") Div (int 2))
  else if bool_decide (text = "p_1 - ( p_2 + p_1 + p_2 )") then
    Some (BinOp (Name "p_1") Sub
                (BinOp (BinOp (Name "p_2") Add (Name "p_1")) Add (Name "p_2")))
  else None.

(** What [list(tokenize.tokenize(...))] returns on the texts of the
    examples *)
Definition example_tokenize (text : string) : list TokenInfo + string :=
  if bool_decide (text = "__digit____digit__x") then
    inl [tok ENCODING ENCODING "utf-8" 0;
         tok NAME NAME "__digit____digit__x" 0;
         tok NEWLINE NEWLINE "" 19; tok ENDMARKER ENDMARKER "" 0]
  else if bool_decide (text = "p_2") then
    inl [tok ENCODING ENCODING "utf-8" 0; tok NAME NAME "p_2" 0;
         tok NEWLINE NEWLINE "" 3; tok ENDMARKER ENDMARKER "" 0]
  else if bool_decide (text = "__digit__2x+p_1") then
    inl [tok ENCODING ENCODING "utf-8" 0; tok NAME NAME "__digit__2x" 0;
         tok OP PLUS "+" 11; tok NAME NAME "p_1" 12;
         tok NEWLINE NEWLINE "" 15; tok ENDMARKER ENDMARKER "" 0]
  else inr "EOF in multi-line statement".

(** The substitution of [__prep_expr_for_tokenization] on the texts of the
    examples *)
Definition example_prep (text : string) : string :=
  if bool_decide (text = "2x+p_1") then "__digit__2x+p_1" else text.

(** What [eval] does with the compiled texts of the examples *)
Definition example_eval (src : string) (namespace : gmap string ns_entry)
    : result value :=
  if bool_decide (src = "Parameter[" +:+ dquote +:+ "p_1" +:+ dquote +:+ "] / 0") then
    Raise (OtherException "ZeroDivisionError" "division by zero")
  else
    match namespace !! "Parameter" with
    | Some (NsValues vals) => get_value vals "p_1"
    | _ => Raise (NameError "name 'Parameter' is not defined")
    end.

Definition python : Python :=
  {| casefold := ascii_casefold;
     compile_error := fun _ => None;
     isidentifier := ascii_isidentifier;
     iskeyword := fun s => bool_decide (s ∈ python_keywords);
     ast_parse := example_ast_parse;
     tokenize_tokenize := example_tokenize;
     prep_expr_for_tokenization := example_prep;
     py_eval := example_eval |}.

Definition objs : gmap ModelType (gmap string Instance) :=
  {[ ParameterCls := {[ "p_1" := p_1; "p_2" := p_2 ]} ]}.

(** A [ParsedExpression] as [__init__] leaves it *)
Definition parsed_expression (text : string) (py_tokens : list TokenInfo)
    (term_types : list ModelType) (registry : gmap ModelType (gmap string Instance))
    : ParsedExpression :=
  reset_tokenization
    {| model_cls := FunctionExpression; attr := "expression";
       expression := text; _py_tokens := py_tokens; _objs := registry;
       term_models := term_types; valid_functions := ["log"; "exp"];
       unit_registry := true;
       related_objects := ∅; lin_coeffs := ∅; errors := [];
       _obj_tables_tokens := []; _compiled_expression := None;
       _compiled_expression_with_units := None;
       _compiled_namespace := ∅; _compiled_namespace_with_units := ∅ |}.

(** The parsed expression after [tokenize()] *)
Definition tokenized (pe : ParsedExpression) : ParsedExpression :=
  (tokenize python pe false).1.

(** ["2 * p_1 - 3 * p_1"] *)
Definition pe_difference : ParsedExpression :=
  tokenized (parsed_expression "2 * p_1 - 3 * p_1"
    [tok NUMBER NUMBER "2" 0; tok OP STAR "*" 2; tok NAME NAME "p_1" 4;
     tok OP MINUS "-" 8; tok NUMBER NUMBER "3" 10; tok OP STAR "*" 12;
     tok NAME NAME "p_1" 14] [ParameterCls] objs).

(** ["p_1 * 2"] *)
Definition pe_coeff_right : ParsedExpression :=
  tokenized (parsed_expression "p_1 * 2"
    [tok NAME NAME "p_1" 0; tok OP STAR "*" 4; tok NUMBER NUMBER "2" 6]
    [ParameterCls] objs).

(** ["log(p_1)"] *)
Definition pe_log : ParsedExpression :=
  tokenized (parsed_expression "log(p_1)"
    [tok NAME NAME "log" 0; tok OP LPAR "(" 3; tok NAME NAME "p_1" 4;
     tok OP RPAR ")" 7] [ParameterCls] objs).

(** ["p_1 - (p_2 + p_1 + p_2)"] *)
Definition pe_nested_difference : ParsedExpression :=
  tokenized (parsed_expression "p_1 - (p_2 + p_1 + p_2)"
    [tok NAME NAME "p_1" 0; tok OP MINUS "-" 4; tok OP LPAR "(" 6;
     tok NAME NAME "p_2" 7; tok OP PLUS "+" 11; tok NAME NAME "p_1" 13;
     tok OP PLUS "+" 17; tok NAME NAME "p_2" 19; tok OP RPAR ")" 22]
    [ParameterCls] objs).

Definition TypeA : ModelType :=
  {| __name__ := "TypeA"; expression_term_token_pattern := [NAME];
     expression_term_model := false; expression_term_value := false |}.

Definition TypeB : ModelType :=
  {| __name__ := "TypeB"; expression_term_token_pattern := [NAME];
     expression_term_model := false; expression_term_value := false |}.

Definition x_A : Instance := instance 10 "x" NoUnits.
Definition x_B : Instance := instance 11 "x" NoUnits.

Definition objs_x : gmap ModelType (gmap string Instance) :=
  {[ TypeA := {[ "x" := x_A ]}; TypeB := {[ "x" := x_B ]} ]}.

(** ["x"] *)
Definition pe_bare_x : ParsedExpression :=
  parsed_expression "x" [tok NAME NAME "x" 0] [TypeA; TypeB] objs_x.

Definition objs_species : gmap ModelType (gmap string Instance) :=
  {[ Species := {[ "x" := instance 20 "x" NoUnits ]} ]}.

(** ["x"], where the only term type is written [name[compartment]] *)
Definition pe_species_x : ParsedExpression :=
  parsed_expression "x" [tok NAME NAME "x" 0] [Species] objs_species.

(** ["TypeA.x"] *)
Definition pe_qualified_x : ParsedExpression :=
  parsed_expression "TypeA.x"
    [tok NAME NAME "TypeA" 0; tok OP DOT "." 5; tok NAME NAME "x" 6]
    [TypeA; TypeB] objs_x.

(** A registry where both types also have an instance whose id is
    [TypeA.x] *)
Definition objs_dotted : gmap ModelType (gmap string Instance) :=
  {[ TypeA := {[ "x" := x_A; "TypeA.x" := instance 12 "TypeA.x" NoUnits ]};
     TypeB := {[ "x" := x_B; "TypeA.x" := instance 13 "TypeA.x" NoUnits ]} ]}.

Definition pe_qualified_dotted : ParsedExpression :=
  parsed_expression "TypeA.x"
    [tok NAME NAME "TypeA" 0; tok OP DOT "." 5; tok NAME NAME "x" 6]
    [TypeA; TypeB] objs_dotted.

(** ["p_1 / 0"] *)
Definition pe_div_zero : ParsedExpression :=
  tokenized (parsed_expression "p_1 / 0"
    [tok NAME NAME "p_1" 0; tok OP SLASH "/" 4; tok NUMBER NUMBER "0" 6]
    [ParameterCls] objs).

Definition o_1 : Instance := instance 30 "o_1" (RegistryUnit "molecule").

(** ["o_1"], an observable, whose class gives neither
    [expression_term_model] nor [expression_term_value] *)
Definition pe_observable : ParsedExpression :=
  tokenized (parsed_expression "o_1" [tok NAME NAME "o_1" 0] [Observable]
               {[ Observable := {[ "o_1" := o_1 ]} ]}).

(** ["p_3"], a parameter without units *)
Definition pe_no_units : ParsedExpression :=
  tokenized (parsed_expression "p_3" [tok NAME NAME "p_3" 0] [ParameterCls]
               {[ ParameterCls := {[ "p_3" := p_3 ]} ]}).

(** ["p_2 +  p_1"] *)
Definition pe_spaced : ParsedExpression :=
  parsed_expression "p_2 +  p_1"
    [tok NAME NAME "p_2" 0; tok OP PLUS "+" 4; tok NAME NAME "p_1" 7]
    [ParameterCls] objs.

(** ["p_2"] *)
Definition pe_single : ParsedExpression :=
  parsed_expression "p_2" [tok NAME NAME "p_2" 0] [ParameterCls] objs.

(** ["2 * 3"] *)
Definition pe_numbers : ParsedExpression :=
  parsed_expression "2 * 3"
    [tok NUMBER NUMBER "2" 0; tok OP STAR "*" 2; tok NUMBER NUMBER "3" 4]
    [ParameterCls] objs.

(** ["p_1 @ 2 @ 3"] *)
Definition pe_at : ParsedExpression :=
  parsed_expression "p_1 @ 2 @ 3"
    [tok NAME NAME "p_1" 0; tok OP (OtherOp "AT") "@" 4; tok NUMBER NUMBER "2" 6;
     tok OP (OtherOp "AT") "@" 8; tok NUMBER NUMBER "3" 10]
    [ParameterCls] objs.

(** The class [FunctionExpression] with its relationships to [Parameter]
    and [Observable] *)
Definition FunctionExpressionClass : PythonClass :=
  {| class_name := "FunctionExpression";
     class_is_model := true;
     meta_expression_term_models := Some ["Parameter"; "Observable"];
     meta_attributes :=
       [{| attribute_str := "<LongStringAttribute expression>";
           attribute_related_class := None |};
        {| attribute_str := "<ManyToManyAttribute parameters>";
           attribute_related_class := Some ParameterCls |};
        {| attribute_str := "<ManyToManyAttribute observables>";
           attribute_related_class := Some Observable |}];
     meta_expression_valid_functions := Some ["log"; "exp"];
     meta_expression_unit_registry := Some true |}.

(** What [ParsedExpression(FunctionExpression, 'expression', ' p_2 ', objs)]
    makes *)
Definition pe_init : ParsedExpression :=
  reset_tokenization
    {| model_cls := model_cls_of FunctionExpressionClass;
       attr := "<ManyToManyAttribute observables>";
       expression := "p_2"; _py_tokens := [tok NAME NAME "p_2" 0]; _objs := objs;
       term_models := [ParameterCls; Observable];
       valid_functions := ["log"; "exp"]; unit_registry := true;
       related_objects := ∅; lin_coeffs := ∅; errors := [];
       _obj_tables_tokens := []; _compiled_expression := None;
       _compiled_expression_with_units := None;
       _compiled_namespace := ∅; _compiled_namespace_with_units := ∅ |}.

Definition term (c : option Z) (name : string) (obj : Instance) : lin_term :=
  {| lt_coeff := c; lt_name := name; lt_cls := ParameterCls; lt_obj := obj |}.

End Examples.

(** * Properties of syntax trees *)



Lemma ast_size_Node cls cs :
  ast_size (Node cls cs)
  = 2 + (match cls with Compare ops => length ops | _ => 0 end) + sum_sizes cs.
Proof. induction cs as [|c cs IH]; simpl in *; lia. Qed.

Lemma ast_size_pos e : 0 < ast_size e.
Proof. destruct e; simpl; lia. Qed.

Lemma ast_eq_refl e : ast_eq e e = true.
Proof.
  induction e as [n|id|o e IH|l o r IHl IHr|cls cs IH] using ast_ind; simpl.
  - by apply bool_decide_eq_true.
  - by apply bool_decide_eq_true.
  - rewrite IH. by rewrite bool_decide_eq_true_2.
  - rewrite IHl, IHr. by rewrite bool_decide_eq_true_2.
  - rewrite bool_decide_eq_true_2 by done. simpl.
    induction IH as [|c cs Hc _ IHcs]; [done|]. by rewrite Hc, IHcs.
Qed.

Lemma ast_eq_eq a b : ast_eq a b = true -> a = b.
Proof.
  revert b.
  induction a as [n|id|o e IH|l o r IHl IHr|cls cs IH] using ast_ind;
    intros [m|id'|o' e'|l' o' r'|cls' cs']; simpl; try done.
  - intros H%bool_decide_eq_true. by subst.
  - intros H%bool_decide_eq_true. by subst.
  - intros [H1%bool_decide_eq_true H2]%andb_true_iff. f_equal; auto.
  - intros [[H1 H2%bool_decide_eq_true]%andb_true_iff H3]%andb_true_iff.
    f_equal; auto.
  - intros [H1%bool_decide_eq_true H2]%andb_true_iff. subst. f_equal.
    revert cs' H2. induction IH as [|c cs Hc _ IHcs]; intros [|c' cs']; try done.
    intros [H1 H2]%andb_true_iff. f_equal; auto.
Qed.

Lemma ast_eq_spec a b : ast_eq a b = true <-> a = b.
Proof. split; [apply ast_eq_eq | intros ->; apply ast_eq_refl]. Qed.

(** ** [ast.walk] reaches every node below the roots in the queue *)


Lemma subnode_trans a b c : subnode a b -> subnode b c -> subnode a c.
Proof.
  intros Hab Hbc. revert a Hab.
  induction Hbc as [|n c' m Hc Hn IH]; [done|].
  intros a Ha. eapply subnode_child; eauto.
Qed.

Lemma queue_size_app q1 q2 : queue_size (q1 ++ q2) = queue_size q1 + queue_size q2.
Proof. induction q1 as [|n q1 IH]; simpl; [done|]. unfold queue_size in *. simpl. lia. Qed.

Lemma queue_size_cons n q : queue_size (n :: q) = node_size n + queue_size q.
Proof. done. Qed.

Lemma queue_size_map_NAst cs : queue_size (map NAst cs) = sum_sizes cs.
Proof. induction cs as [|c cs IH]; [done|]. cbn [map]. by rewrite queue_size_cons, IH. Qed.

Lemma queue_size_map_NCmpop ops : queue_size (map NCmpop ops) = length ops.
Proof. induction ops as [|c cs IH]; [done|]. cbn [map]. by rewrite queue_size_cons, IH. Qed.

Lemma children_size n : queue_size (iter_child_nodes n) < node_size n.
Proof.
  destruct n as [e| | | |]; try (simpl; lia).
  destruct e as [n|id|o e|l o r|cls cs].
  - simpl. lia.
  - simpl. lia.
  - cbn [iter_child_nodes]. rewrite !queue_size_cons. simpl. lia.
  - cbn [iter_child_nodes]. rewrite !queue_size_cons. simpl. lia.
  - unfold node_size. rewrite ast_size_Node.
    assert (Hgen : queue_size (map NAst cs ++ (if has_ctx cls then [NLoad] else []))
                   < 2 + sum_sizes cs).
    { rewrite queue_size_app, queue_size_map_NAst. destruct (has_ctx cls); simpl; lia. }
    destruct cls as [ops| | | | | | |]; try (cbn [iter_child_nodes]; lia).
    destruct cs as [|l cs]; [cbn [iter_child_nodes]; simpl; lia|].
    cbn [iter_child_nodes]. rewrite queue_size_cons, queue_size_app.
    rewrite queue_size_map_NCmpop, queue_size_map_NAst. simpl. lia.
Qed.

Lemma walk_queue_elem fuel q n :
  queue_size q <= fuel ->
  n ∈ walk_queue fuel q <-> exists m, m ∈ q /\ subnode n m.
Proof.
  revert q. induction fuel as [|fuel IH]; intros q Hsize.
  - destruct q as [|m q].
    + simpl. split; [by intros ?%elem_of_nil | by intros (? & ?%elem_of_nil & _)].
    + rewrite queue_size_cons in Hsize.
      assert (0 < node_size m) by (destruct m; simpl; auto using ast_size_pos; lia).
      lia.
  - destruct q as [|m q].
    + simpl. split; [by intros ?%elem_of_nil | by intros (? & ?%elem_of_nil & _)].
    + cbn [walk_queue]. rewrite elem_of_cons, IH.
      2:{ rewrite queue_size_app. rewrite queue_size_cons in Hsize.
          pose proof (children_size m). lia. }
      split.
      * intros [->|(m' & [Hm'|Hm']%elem_of_app & Hsub)].
        -- exists m. split; [left|constructor].
        -- exists m'. split; [by right|done].
        -- exists m. split; [left|]. eapply subnode_child; eauto.
      * intros (m' & [->|Hm']%elem_of_cons & Hsub).
        -- inversion Hsub as [|? c ? Hc Hn]; subst; [by left|].
           right. exists c. split; [|done]. apply elem_of_app. by right.
        -- right. exists m'. split; [|done]. apply elem_of_app. by left.
Qed.

Lemma walk_elem e n : n ∈ walk e <-> subnode n (NAst e).
Proof.
  unfold walk. rewrite walk_queue_elem.
  - split.
    + by intros (m & ->%list_elem_of_singleton & H).
    + intros H. exists (NAst e). split; [apply list_elem_of_singleton|]; done.
  - rewrite queue_size_cons. simpl. lia.
Qed.

(** ** The check of the node types *)

Lemma set_add_not_nil {A} `{EqDecision A} (x : A) s : set_add x s <> [].
Proof.
  unfold set_add. destruct (decide (x ∈ s)) as [Hin|_].
  - intros ->. by apply elem_of_nil in Hin.
  - by destruct s.
Qed.

Lemma node_type_errors_nil l acc :
  foldl (fun errors node =>
           if valid_node_type node then errors
           else set_add (type_name node) errors) acc l = []
  <-> acc = [] /\ Forall (fun n => valid_node_type n = true) l.
Proof.
  revert acc. induction l as [|n l IH]; intros acc; simpl.
  - split; [intros ->; by split | by intros [-> _]].
  - rewrite IH. destruct (valid_node_type n) eqn:Hn.
    + split.
      * intros [-> Hl]. split; [done|]. by constructor.
      * intros [-> Hl]. split; [done|]. by inversion Hl.
    + split.
      * intros [H _]. by apply set_add_not_nil in H.
      * intros [_ Hl]. inversion Hl; congruence.
Qed.

Lemma _validate_node_types_true t :
  (_validate_node_types t).1 = true
  <-> forall n, subnode n (NAst t) -> valid_node_type n = true.
Proof.
  unfold _validate_node_types.
  destruct (foldl _ [] (walk t)) as [|e errs] eqn:He.
  - apply node_type_errors_nil in He as [_ Hall]. split; [intros _|done].
    intros n Hn%walk_elem. rewrite Forall_forall in Hall. by apply Hall.
  - split; [done|]. intros Hall. exfalso.
    assert (foldl (fun errors node =>
                     if valid_node_type node then errors
                     else set_add (type_name node) errors) [] (walk t) = [])
      as Hnil; [|congruence].
    apply node_type_errors_nil. split; [done|].
    apply Forall_forall. intros n Hn. apply Hall. by apply walk_elem.
Qed.

Lemma _validate_node_types_false t :
  (_validate_node_types t).1 = false ->
  exists errors, _validate_node_types t
                 = (false, Some ("contains invalid terms " +:+ str_of_set errors)).
Proof.
  unfold _validate_node_types.
  destruct (foldl _ [] (walk t)) as [|e errs]; [done|]. intros _. by eexists.
Qed.


Lemma nonlinear_node_invalid t n :
  subnode n (NAst t) -> nonlinear_node n ->
  (_validate_node_types t).1 = false.
Proof.
  intros Hsub Hn. apply not_true_is_false. intros Hvalid.
  rewrite _validate_node_types_true in Hvalid.
  destruct n as [[ | | |l o r|cls cs]| | | |]; try done.
  - assert (valid_node_type (NOperator o) = true) as Ho.
    { apply Hvalid. eapply subnode_trans; [|exact Hsub].
      eapply subnode_child; [|constructor]. cbn. set_solver. }
    by destruct o.
  - by specialize (Hvalid _ Hsub).
Qed.

(** ** The coefficient maps *)


Lemma lookup2_insert {K1 K2 V} `{Countable K1} `{Countable K2}
    (m : gmap K1 (gmap K2 V)) k1 k2 v inner k1' k2' :
  m !! k1 = Some inner ->
  lookup2 (<[k1 := <[k2 := v]> inner]> m) k1' k2'
  = if decide (k1 = k1' /\ k2 = k2') then Some v else lookup2 m k1' k2'.
Proof.
  intros Hin. unfold lookup2.
  destruct (decide (k1 = k1')) as [<-|Hne].
  - rewrite lookup_insert_eq, Hin. simpl.
    destruct (decide (k2 = k2')) as [<-|Hne2].
    + rewrite lookup_insert_eq. by rewrite decide_True.
    + rewrite lookup_insert_ne by done. rewrite decide_False; [done|]. by intros [_ ?].
  - rewrite lookup_insert_ne by done. rewrite decide_False; [done|]. by intros [? _].
Qed.


Lemma foldl_insert_empty_lookup {K V} `{Countable K} (l : list ModelType)
    (m : gmap ModelType (gmap K V)) cls :
  foldl (fun lc c => <[c := ∅]> lc) m l !! cls
  = if decide (cls ∈ l) then Some ∅ else m !! cls.
Proof.
  revert m. induction l as [|c l IH]; intros m; cbn [foldl].
  - case_decide as Hin; [by apply elem_of_nil in Hin | done].
  - rewrite IH. destruct (decide (cls ∈ l)) as [Hin|Hnin].
    + rewrite decide_True; [done|]. by right.
    + destruct (decide (c = cls)) as [->|Hne].
      * rewrite lookup_insert_eq. rewrite decide_True; [done|]. by left.
      * rewrite lookup_insert_ne by done. rewrite decide_False; [done|].
        intros [?|?]%elem_of_cons; congruence.
Qed.

Lemma init_class_coeffs_ok cls d objs lc :
  is_Some (lc !! cls) ->
  exists lc', init_class_coeffs cls d (Ok lc) objs = Ok lc'
    /\ (forall c, is_Some (lc' !! c) <-> is_Some (lc !! c))
    /\ (forall c i, (c = cls /\ i ∈ objs.*2) -> lookup2 lc' c i = Some d)
    /\ (forall c i, lookup2 lc c i = Some d -> lookup2 lc' c i = Some d).
Proof.
  revert lc. induction objs as [|[id o] objs IH]; intros lc [inner Hin].
  - exists lc. split; [done|]. split; [done|]. split; [|done].
    intros c i [_ H]. by apply elem_of_nil in H.
  - unfold init_class_coeffs. cbn [foldl bind]. rewrite Hin.
    destruct (IH (<[cls := <[o := d]> inner]> lc)) as (lc' & Hok & Hdom & Hnew & Hold).
    { rewrite lookup_insert_eq. by eexists. }
    exists lc'. split; [exact Hok|]. split; [|split].
    + intros c. rewrite Hdom. destruct (decide (cls = c)) as [<-|Hne].
      * rewrite lookup_insert_eq, Hin. split; by eexists.
      * by rewrite lookup_insert_ne.
    + intros c i [-> Hi]. rewrite fmap_cons in Hi. apply elem_of_cons in Hi as [->|Hi].
      * apply Hold. rewrite (lookup2_insert _ _ _ _ _ _ _ Hin). by rewrite decide_True.
      * by apply Hnew.
    + intros c i Hci. apply Hold. rewrite (lookup2_insert _ _ _ _ _ _ _ Hin).
      by case_decide.
Qed.

Lemma init_lin_coeffs_ok pe d lc :
  (forall cls, is_Some (related_objects pe !! cls) -> is_Some (lc !! cls)) ->
  exists lc', init_lin_coeffs pe d lc = Ok lc'
    /\ (forall c, is_Some (lc' !! c) <-> is_Some (lc !! c))
    /\ (forall c objs id i, related_objects pe !! c = Some objs ->
                            objs !! id = Some i -> lookup2 lc' c i = Some d).
Proof.
  intros Hdecl. unfold init_lin_coeffs.
  assert (Hl : forall c objs, (c, objs) ∈ map_to_list (related_objects pe) ->
                              is_Some (lc !! c)).
  { intros c objs Hc%elem_of_map_to_list. apply Hdecl. by eexists. }
  assert (Hgoal : exists lc',
    foldl (fun acc '(related_class, related_objs) =>
             init_class_coeffs related_class d acc (map_to_list related_objs))
          (Ok lc) (map_to_list (related_objects pe)) = Ok lc'
    /\ (forall c, is_Some (lc' !! c) <-> is_Some (lc !! c))
    /\ (forall c objs i, (c, objs) ∈ map_to_list (related_objects pe) ->
                          i ∈ (map_to_list objs).*2 -> lookup2 lc' c i = Some d)
    /\ (forall c i, lookup2 lc c i = Some d -> lookup2 lc' c i = Some d)).
  { clear Hdecl. revert lc Hl. generalize (map_to_list (related_objects pe)).
    induction l as [|[c objs] l IH]; intros lc Hl.
    - exists lc. repeat split; try done. intros ? ? ? H. by apply elem_of_nil in H.
    - cbn [foldl].
      destruct (init_class_coeffs_ok c d (map_to_list objs) lc)
        as (lc1 & Hok1 & Hdom1 & Hnew1 & Hold1).
      { eapply Hl. left. }
      rewrite Hok1.
      destruct (IH lc1) as (lc' & Hok & Hdom & Hnew & Hold).
      { intros c' objs' Hc'. apply Hdom1. eapply Hl. by right. }
      exists lc'. split; [exact Hok|]. split; [|split].
      + intros c'. by rewrite Hdom, Hdom1.
      + intros c' objs' i [Heq|Hin]%elem_of_cons Hi.
        * inversion Heq; subst. apply Hold. by apply Hnew1.
        * by eapply Hnew.
      + intros c' i Hci. by apply Hold, Hold1. }
  destruct Hgoal as (lc' & Hok & Hdom & Hnew & _).
  exists lc'. split; [exact Hok|]. split; [done|].
  intros c objs id i Hc Hi. eapply Hnew.
  - by apply elem_of_map_to_list.
  - apply list_elem_of_fmap. exists (id, i). split; [done|]. by apply elem_of_map_to_list.
Qed.

Lemma declared_classes_keys pe cls :
  related_classes_declared pe ->
  is_Some (related_objects pe !! cls) ->
  is_Some (foldl (fun (lc : gmap ModelType (gmap Instance coeff)) c => <[c := ∅]> lc) ∅
                 (expression_term_classes (model_cls pe)) !! cls).
Proof.
  intros Hdecl Hcls. rewrite foldl_insert_empty_lookup.
  rewrite decide_True; [by eexists|]. by apply Hdecl.
Qed.

Lemma _set_lin_coeffs_not_linear v expr val pe :
  related_classes_declared pe ->
  v_is_linear val = false ->
  (_set_lin_coeffs v expr val pe).2 = None.
Proof.
  intros Hdecl Hlin. unfold _set_lin_coeffs. rewrite Hlin.
  destruct (init_lin_coeffs_ok pe NaN
              (foldl (fun (lc : gmap ModelType (gmap Instance coeff)) c => <[c := ∅]> lc) ∅
                     (expression_term_classes (model_cls pe))))
    as (lc' & Hok & _).
  { intros cls Hcls. by apply declared_classes_keys. }
  by rewrite Hok.
Qed.

(** * The claims about the linearity validator *)

(** C2. An expression whose syntax tree holds a function call, a comparison,
    a division or an exponentiation is not linear: [validate] returns
    [is_linear = False] with the error for invalid terms, because the tree
    has a node whose type is outside [VALID_NOTE_TYPES]. *)
Theorem validate_rejects_nonlinear_nodes py v pe set_linear_coeffs t n :
  related_classes_declared pe ->
  strip (_expr_with_python_ids py v pe).2 <> "" ->
  ast_parse py (strip (_expr_with_python_ids py v pe).2) = Some t ->
  subnode n (NAst t) ->
  nonlinear_node n ->
  exists errors,
    (validate py v pe set_linear_coeffs).2
    = Ok (false, Some ("contains invalid terms " +:+ str_of_set errors)).
Proof.
  intros Hdecl Hne Hparse Hsub Hn. unfold validate.
  destruct (_expr_with_python_ids py v pe) as [v' expr]. simpl in Hne, Hparse.
  rewrite bool_decide_eq_false_2 by done.
  unfold _validate. rewrite Hparse.
  pose proof (nonlinear_node_invalid _ _ Hsub Hn) as Hinv.
  destruct (_validate_node_types_false _ Hinv) as [errors Herr].
  rewrite Herr. cbn [negb].
  exists errors. destruct set_linear_coeffs; [|done].
  pose proof (_set_lin_coeffs_not_linear v' (strip expr)
                {| rv := (false, Some ("contains invalid terms " +:+ str_of_set errors));
                   tree := Some t; v_is_linear := false |} pe Hdecl eq_refl) as Hset.
  destruct (_set_lin_coeffs _ _ _ _) as [pe' [e|]]; [done|done].
Qed.

(** ** The rewrite passes on valid trees *)

Lemma valid_tree_of_node_types t :
  (_validate_node_types t).1 = true -> valid_tree t = true.
Proof.
  rewrite _validate_node_types_true.
  induction t as [n|id|o e IH|l o r IHl IHr|cls cs _] using ast_ind; intros Hvalid.
  - done.
  - done.
  - simpl. apply IH. intros n Hn. apply Hvalid.
    eapply subnode_child; [|exact Hn]. cbn. set_solver.
  - assert (valid_node_type (NOperator o) = true) as Ho.
    { apply Hvalid. eapply subnode_child; [|constructor]. cbn. set_solver. }
    assert (valid_tree l = true) as Hl.
    { apply IHl. intros n Hn. apply Hvalid.
      eapply subnode_child; [|exact Hn]. cbn. set_solver. }
    assert (valid_tree r = true) as Hr.
    { apply IHr. intros n Hn. apply Hvalid.
      eapply subnode_child; [|exact Hn]. cbn. set_solver. }
    simpl. rewrite Hl, Hr. by destruct o.
  - by specialize (Hvalid _ (subnode_refl _)).
Qed.

Lemma RemoveUnaryOps_plain t : valid_tree t = true -> plain (RemoveUnaryOps t) = true.
Proof.
  induction t as [n|id|o e IH|l o r IHl IHr|cls cs _] using ast_ind; simpl; try done.
  - intros He. destruct o; simpl; auto.
  - destruct o; try done; intros [Hl Hr]%andb_true_iff; rewrite IHl, IHr; done.
Qed.

Lemma RemoveUnaryOps_id t : plain t = true -> RemoveUnaryOps t = t.
Proof.
  induction t as [n|id|o e IH|l o r IHl IHr|cls cs _] using ast_ind; simpl; try done.
  destruct o; try done; intros [Hl Hr]%andb_true_iff; rewrite IHl, IHr; done.
Qed.

Lemma MultiplyNums_node_plain e : plain e = true -> plain (MultiplyNums_node e) = true.
Proof.
  destruct e as [| | |l o r|]; try done.
  destruct l as [a| | | |]; try done.
  destruct o; try done.
  destruct r as [b| | |rl ro rr|]; try done.
  destruct rl as [b| | | |]; try done.
  destruct ro; try done.
Qed.

Lemma MultiplyNums_plain t : plain t = true -> plain (MultiplyNums t) = true.
Proof.
  induction t as [n|id|o e IH|l o r IHl IHr|cls cs _] using ast_ind; try done.
  intros H. cbn [MultiplyNums]. apply MultiplyNums_node_plain.
  simpl in *. destruct o; try done;
    apply andb_true_iff in H as [Hl Hr]; rewrite IHl, IHr; done.
Qed.

Lemma MultiplyNums_node_folded l o r :
  nums_folded l = true -> nums_folded r = true ->
  nums_folded (MultiplyNums_node (BinOp l o r)) = true.
Proof.
  intros Hl Hr.
  destruct l as [a| | | |]; try (simpl in *; by rewrite ?Hl, ?Hr).
  destruct o; try (simpl in *; by rewrite ?Hr).
  destruct r as [b| | |rl ro rr|]; try (simpl in *; by rewrite ?Hr).
  destruct rl as [b| | | |]; try (simpl in *; by rewrite ?Hr).
  destruct ro; simpl in *; by rewrite ?Hr.
Qed.

Lemma MultiplyNums_folded t : plain t = true -> nums_folded (MultiplyNums t) = true.
Proof.
  induction t as [n|id|o e IH|l o r IHl IHr|cls cs _] using ast_ind; try done.
  intros H. cbn [MultiplyNums].
  assert (plain l = true /\ plain r = true) as [Hl Hr].
  { simpl in H. destruct o; try done; by apply andb_true_iff in H. }
  apply MultiplyNums_node_folded; auto.
Qed.

Lemma MultiplyNums_id t :
  plain t = true -> nums_folded t = true -> MultiplyNums t = t.
Proof.
  induction t as [n|id|o e IH|l o r IHl IHr|cls cs _] using ast_ind; try done.
  intros Hp. assert (plain l = true /\ plain r = true) as [Hpl Hpr].
  { simpl in Hp. destruct o; try done; by apply andb_true_iff in Hp. }
  simpl. intros [[Hl Hr]%andb_true_iff H]%andb_true_iff.
  rewrite IHl, IHr by done. clear IHl IHr Hl Hr Hp Hpl Hpr.
  destruct l as [a| | | |]; try done.
  destruct o; try done.
  destruct r as [b| | |rl ro rr|]; try done.
  destruct rl as [b| | | |]; try done.
  destruct ro; try done.
Qed.

Lemma MultiplyNums_idempotent t :
  plain t = true -> MultiplyNums (MultiplyNums t) = MultiplyNums t.
Proof.
  intros H. apply MultiplyNums_id; [by apply MultiplyNums_plain | by apply MultiplyNums_folded].
Qed.

Lemma plain_BinOp l o r :
  plain (BinOp l o r) = true
  <-> (o = Add \/ o = Sub \/ o = Mult) /\ plain l = true /\ plain r = true.
Proof.
  simpl. destruct o; rewrite ?andb_true_iff; naive_solver.
Qed.

Lemma dist_measure_ge t : 2 <= dist_measure t.
Proof.
  induction t as [n|id|o e IH|l o r IHl IHr|cls cs _] using ast_ind; simpl; try lia.
  destruct o; nia.
Qed.

Lemma DistributeMult_node_plain e : plain e = true -> plain (DistributeMult_node e) = true.
Proof.
  destruct e as [| | |l o r|]; try done.
  intros (Ho & Hl & Hr)%plain_BinOp.
  destruct o; try (apply plain_BinOp; naive_solver).
  cbn [DistributeMult_node].
  destruct l as [| | |ll lo lr|]; try done.
  - destruct r as [| | |rl ro rr|]; try done.
    cbn [is_simple_operand andb]. destruct (is_add_sub ro) eqn:Hro; [|by apply plain_BinOp].
    apply plain_BinOp in Hr as (Hro' & Hrl & Hrr).
    apply plain_BinOp. split; [done|]. split; apply plain_BinOp; naive_solver.
  - destruct r as [| | |rl ro rr|]; try done.
    cbn [is_simple_operand andb]. destruct (is_add_sub ro) eqn:Hro; [|by apply plain_BinOp].
    apply plain_BinOp in Hr as (Hro' & Hrl & Hrr).
    apply plain_BinOp. split; [done|]. split; apply plain_BinOp; naive_solver.
  - apply plain_BinOp in Hl as (Hlo' & Hll & Hlr).
    destruct (is_simple_operand r && is_add_sub lo) eqn:Hc.
    + apply plain_BinOp. split; [done|]. split; apply plain_BinOp; naive_solver.
    + destruct r as [| | |rl ro rr|]; try (apply plain_BinOp; split; [naive_solver|split; [apply plain_BinOp|]; naive_solver]).
      destruct (is_add_sub ro) eqn:Hro.
      * apply plain_BinOp in Hr as (Hro' & Hrl & Hrr).
        apply plain_BinOp. split; [done|].
        split; apply plain_BinOp; (split; [naive_solver|]); (split; [apply plain_BinOp|]; naive_solver).
      * apply plain_BinOp; split; [naive_solver|split; [apply plain_BinOp|]; naive_solver].
Qed.

Lemma DistributeMult_plain t : plain t = true -> plain (DistributeMult t) = true.
Proof.
  induction t as [n|id|o e IH|l o r IHl IHr|cls cs _] using ast_ind; try done.
  intros (Ho & Hl & Hr)%plain_BinOp. cbn [DistributeMult].
  apply DistributeMult_node_plain, plain_BinOp. auto.
Qed.

Lemma DistributeMult_node_measure e :
  dist_measure (DistributeMult_node e) <= dist_measure e
  /\ (DistributeMult_node e = e \/ dist_measure (DistributeMult_node e) < dist_measure e).
Proof.
  destruct e as [| | |l o r|]; try (split; [done|by left]).
  destruct o; try (split; [done|by left]).
  cbn [DistributeMult_node].
  pose proof (dist_measure_ge l) as Hl. pose proof (dist_measure_ge r) as Hr.
  assert (Hrule1 : forall ll lo lr, is_add_sub lo = true ->
            dist_measure (BinOp (BinOp ll Mult r) lo (BinOp lr Mult r))
            < dist_measure (BinOp (BinOp ll lo lr) Mult r)).
  { intros ll lo lr Hlo. destruct lo; try done; simpl; nia. }
  assert (Hrule2 : forall rl ro rr, is_add_sub ro = true ->
            dist_measure (BinOp (BinOp l Mult rl) ro (BinOp l Mult rr))
            < dist_measure (BinOp l Mult (BinOp rl ro rr))).
  { intros rl ro rr Hro. destruct ro; try done; simpl; nia. }
  destruct l as [| | |ll lo lr|].
  - destruct r as [| | |rl ro rr|]; try (split; [done|by left]).
    cbn [is_simple_operand andb]. destruct (is_add_sub ro) eqn:Hro; [|split; [done|by left]].
    specialize (Hrule2 rl ro rr Hro). split; [lia|by right].
  - destruct r as [| | |rl ro rr|]; try (split; [done|by left]).
    cbn [is_simple_operand andb]. destruct (is_add_sub ro) eqn:Hro; [|split; [done|by left]].
    specialize (Hrule2 rl ro rr Hro). split; [lia|by right].
  - destruct r as [| | |rl ro rr|]; try (split; [done|by left]).
    cbn [is_simple_operand andb]. destruct (is_add_sub ro) eqn:Hro; [|split; [done|by left]].
    specialize (Hrule2 rl ro rr Hro). split; [lia|by right].
  - destruct (is_simple_operand r && is_add_sub lo) eqn:Hc.
    + apply andb_true_iff in Hc as [_ Hlo]. specialize (Hrule1 ll lo lr Hlo).
      split; [lia|by right].
    + destruct r as [| | |rl ro rr|]; try (split; [done|by left]).
      destruct (is_add_sub ro) eqn:Hro; [|split; [done|by left]].
      specialize (Hrule2 rl ro rr Hro). split; [lia|by right].
  - destruct r as [| | |rl ro rr|]; split; done || by left.
Qed.

Lemma DistributeMult_measure t :
  plain t = true ->
  dist_measure (DistributeMult t) <= dist_measure t
  /\ (DistributeMult t = t \/ dist_measure (DistributeMult t) < dist_measure t).
Proof.
  induction t as [n|id|o e IH|l o r IHl IHr|cls cs _] using ast_ind;
    try (intros _; split; [done|by left]); try done.
  intros (Ho & Hl & Hr)%plain_BinOp. cbn [DistributeMult].
  destruct (IHl Hl) as [Hle_l Hcase_l]. destruct (IHr Hr) as [Hle_r Hcase_r].
  destruct (DistributeMult_node_measure (BinOp (DistributeMult l) o (DistributeMult r)))
    as [Hle Hcase].
  pose proof (dist_measure_ge (DistributeMult l)).
  pose proof (dist_measure_ge (DistributeMult r)).
  assert (Hmono : dist_measure (BinOp (DistributeMult l) o (DistributeMult r))
                  <= dist_measure (BinOp l o r)).
  { destruct o; simpl; nia. }
  split; [lia|].
  destruct Hcase_l as [Heql|Hlt_l].
  - destruct Hcase_r as [Heqr|Hlt_r].
    + rewrite Heql, Heqr in *. destruct Hcase as [->|?]; [by left|right; lia].
    + right. assert (dist_measure (BinOp (DistributeMult l) o (DistributeMult r))
                     < dist_measure (BinOp l o r)); [|lia].
      destruct o; simpl; nia.
  - right. assert (dist_measure (BinOp (DistributeMult l) o (DistributeMult r))
                   < dist_measure (BinOp l o r)); [|lia].
    destruct o; simpl; nia.
Qed.

Lemma dist_mult_loop_terminates fuel t :
  plain t = true -> dist_measure t < fuel ->
  exists t', dist_mult_loop fuel t = Some t'
             /\ DistributeMult t' = t' /\ plain t' = true.
Proof.
  revert t. induction fuel as [|fuel IH]; intros t Hp Hm; [lia|].
  cbn [dist_mult_loop].
  destruct (ast_eq t (DistributeMult t)) eqn:Heq.
  - apply ast_eq_eq in Heq. exists (DistributeMult t).
    split; [done|]. rewrite <- Heq. by split.
  - destruct (DistributeMult_measure t Hp) as [Hle [Hfix|Hlt]].
    + rewrite Hfix, ast_eq_refl in Heq. done.
    + apply IH; [by apply DistributeMult_plain|lia].
Qed.

Lemma sub_free_BinOp l o r :
  sub_free (BinOp l o r) = true <-> o <> Sub /\ sub_free l = true /\ sub_free r = true.
Proof.
  simpl. rewrite !andb_true_iff, negb_true_iff, bool_decide_eq_false. naive_solver.
Qed.

Ltac solve_shape :=
  repeat match goal with
         | |- _ /\ _ => split
         | |- plain (BinOp _ _ _) = true => apply plain_BinOp
         | |- sub_free (BinOp _ _ _) = true => apply sub_free_BinOp
         | |- _ \/ _ => first [left; done | right; left; done | right; right; done]
         end; try done.

Lemma DistributeSub_plain t :
  plain t = true ->
  plain (DistributeSub t) = true /\ sub_free (DistributeSub t) = true.
Proof.
  induction t as [n|id|o e IH|l o r IHl IHr|cls cs _] using ast_ind; try done.
  intros (Ho & Hl & Hr)%plain_BinOp. cbn [DistributeSub].
  destruct (IHl Hl) as [Hpl Hsl]. destruct (IHr Hr) as [Hpr Hsr].
  destruct (decide (o = Sub)) as [->|Hne].
  - cbn [DistributeSub_node].
    destruct (DistributeSub r) as [| | |rl ro rr|]; try done.
    + solve_shape.
    + solve_shape.
    + apply plain_BinOp in Hpr as (Hro & Hprl & Hprr).
      apply sub_free_BinOp in Hsr as (Hro' & Hsrl & Hsrr).
      destruct ro; try done; try (by destruct Hro as [?|[?|?]]);
        cbn [is_add_sub]; solve_shape.
  - assert (DistributeSub_node (BinOp (DistributeSub l) o (DistributeSub r))
            = BinOp (DistributeSub l) o (DistributeSub r)) as -> by by destruct o.
    solve_shape.
Qed.

Lemma DistributeSub_id t :
  plain t = true -> sub_free t = true -> DistributeSub t = t.
Proof.
  induction t as [n|id|o e IH|l o r IHl IHr|cls cs _] using ast_ind; try done.
  intros (_ & Hpl & Hpr)%plain_BinOp (Ho & Hl & Hr)%sub_free_BinOp.
  cbn [DistributeSub]. rewrite IHl, IHr by done. by destruct o.
Qed.

Lemma DistributeSub_idempotent t :
  plain t = true -> DistributeSub (DistributeSub t) = DistributeSub t.
Proof. intros H. destruct (DistributeSub_plain t H). by apply DistributeSub_id. Qed.

Lemma repeat_to_fixpoint_idempotent pass fuel t :
  pass (pass t) = pass t -> 2 <= fuel ->
  repeat_to_fixpoint pass fuel t = Some (pass t).
Proof.
  intros Hidem Hfuel. destruct fuel as [|[|fuel]]; try lia.
  cbn [repeat_to_fixpoint].
  destruct (ast_eq t (pass t)); [done|]. by rewrite Hidem, ast_eq_refl.
Qed.

Lemma repeat_to_fixpoint_dist fuel t :
  repeat_to_fixpoint DistributeMult fuel t = dist_mult_loop fuel t.
Proof.
  revert t. induction fuel as [|fuel IH]; intros t; [done|].
  cbn [repeat_to_fixpoint dist_mult_loop]. by rewrite IH.
Qed.

(** C8. The normalisation of [_validate] runs the passes in the order
    (a) remove unary operators, (b) fold products of numbers, (c) distribute
    multiplication, (d) fold, (e) remove subtraction, (f) fold, and on every
    tree that passed the check of the node types its result is the result
    of repeating each pass until a round leaves the tree structurally
    unchanged. *)
Theorem normalize_refines_fixpoint_passes t :
  (_validate_node_types t).1 = true ->
  exists t', normalize t = Some t' /\ normalize_to_fixpoints t = Some t'.
Proof.
  intros Hvalid%valid_tree_of_node_types.
  pose proof (RemoveUnaryOps_plain t Hvalid) as H1.
  pose proof (MultiplyNums_plain _ H1) as H2.
  destruct (dist_mult_loop_terminates (S (dist_measure (MultiplyNums (RemoveUnaryOps t))))
              (MultiplyNums (RemoveUnaryOps t)) H2) as (t3 & Hloop & Hfix & H3); [lia|].
  pose proof (MultiplyNums_plain _ H3) as H4.
  destruct (DistributeSub_plain _ H4) as [H5 _].
  exists (MultiplyNums (DistributeSub (MultiplyNums t3))).
  unfold normalize, normalize_to_fixpoints, _dist_mult, _remove_unary_operators,
    _multiply_numbers, _remove_subtraction.
  rewrite Hloop. split; [done|].
  pose proof dist_measure_ge as Hge.
  rewrite (repeat_to_fixpoint_idempotent RemoveUnaryOps);
    [|by apply RemoveUnaryOps_id | specialize (Hge t); lia].
  cbn [mbind option_bind].
  rewrite (repeat_to_fixpoint_idempotent MultiplyNums);
    [|by apply MultiplyNums_idempotent | specialize (Hge (RemoveUnaryOps t)); lia].
  cbn [mbind option_bind].
  rewrite repeat_to_fixpoint_dist, Hloop.
  cbn [mbind option_bind].
  rewrite (repeat_to_fixpoint_idempotent MultiplyNums);
    [|by apply MultiplyNums_idempotent | specialize (Hge t3); lia].
  cbn [mbind option_bind].
  rewrite (repeat_to_fixpoint_idempotent DistributeSub);
    [|by apply DistributeSub_idempotent | specialize (Hge (MultiplyNums t3)); lia].
  cbn [mbind option_bind].
  rewrite (repeat_to_fixpoint_idempotent MultiplyNums);
    [|by apply MultiplyNums_idempotent | specialize (Hge (DistributeSub (MultiplyNums t3))); lia].
  done.
Qed.

(** ** The coefficients of a normalised linear form *)

Lemma walk_queue_nil fuel : walk_queue fuel [] = [].
Proof. by destruct fuel. Qed.

Lemma queue_size_segments segs1 segs2 :
  queue_size (flat_map segment_nodes (segs1 ++ segs2))
  = queue_size (flat_map segment_nodes segs1) + queue_size (flat_map segment_nodes segs2).
Proof. by rewrite flat_map_app, queue_size_app. Qed.

Lemma scan_segments fuel segs :
  Forall segment_ok segs ->
  queue_size (flat_map segment_nodes segs) <= fuel ->
  exists pairs,
    coeff_scan (PyInt 1) (walk_queue fuel (flat_map segment_nodes segs)) = Ok pairs
    /\ pairs ≡ₚ flat_map segment_terms segs.
Proof.
  revert segs. induction fuel as [fuel IH] using lt_wf_ind. intros segs Hok Hsize.
  destruct segs as [|seg segs].
  { exists []. by rewrite walk_queue_nil. }
  apply Forall_cons in Hok as [Hseg Hok].
  cbn [flat_map] in *. rewrite queue_size_app in Hsize.
  destruct seg as [e|n|c id].
  - (* a tree *)
    cbn [segment_nodes segment_ok] in *. rewrite queue_size_cons in Hsize.
    pose proof (children_size (NAst e)) as Hchild.
    destruct fuel as [|fuel]; [simpl in *; pose proof (ast_size_pos e); lia|].
    cbn [app walk_queue].
    inversion Hseg as [id Heq|c id Heq|l r Hl Hr Heq]; subst e.
    + destruct (IH fuel (Nat.lt_succ_diag_r _) (segs ++ [SegOther NLoad])) as (pairs & Hscan & Hperm).
      { apply Forall_app. split; [done|]. by repeat constructor. }
      { rewrite queue_size_segments. simpl in *. lia. }
      rewrite flat_map_app in Hscan. cbn [flat_map segment_nodes app] in Hscan.
      cbn [iter_child_nodes]. exists ((1%Z, id) :: pairs). split.
      * cbn [coeff_scan py_float]. by rewrite Hscan.
      * rewrite Hperm, flat_map_app. cbn. by rewrite app_nil_r.
    + destruct (IH fuel (Nat.lt_succ_diag_r _) (segs ++ [SegProduct c id])) as (pairs & Hscan & Hperm).
      { apply Forall_app. split; [done|]. by repeat constructor. }
      { rewrite queue_size_segments. simpl in *. lia. }
      rewrite flat_map_app in Hscan. cbn [flat_map segment_nodes app] in Hscan.
      cbn [iter_child_nodes]. exists pairs. split.
      * cbn [coeff_scan]. by rewrite <- Hscan.
      * rewrite Hperm, flat_map_app. cbn [flat_map segment_terms tree_terms].
        rewrite app_nil_r. by rewrite Permutation_app_comm.
    + destruct (IH fuel (Nat.lt_succ_diag_r _)
                  (segs ++ [SegTree l; SegOther (NOperator Add); SegTree r]))
        as (pairs & Hscan & Hperm).
      { apply Forall_app. split; [done|]. by repeat constructor. }
      { rewrite queue_size_segments. simpl in *. lia. }
      rewrite flat_map_app in Hscan. cbn [flat_map segment_nodes app] in Hscan.
      cbn [iter_child_nodes]. exists pairs. split.
      * cbn [coeff_scan]. by rewrite <- Hscan.
      * rewrite Hperm, flat_map_app. cbn [flat_map segment_terms].
        rewrite app_nil_r. cbn [app].
        assert (tree_terms (BinOp l Add r) = tree_terms l ++ tree_terms r) as ->.
        { cbn [tree_terms]. by destruct l as [[]| | | |]. }
        by rewrite Permutation_app_comm.
  - (* an operator or a context *)
    cbn [segment_nodes segment_ok] in *. rewrite queue_size_cons in Hsize.
    destruct fuel as [|fuel]; [destruct n; simpl in *; lia|].
    cbn [app walk_queue].
    destruct (IH fuel (Nat.lt_succ_diag_r _) segs Hok) as (pairs & Hscan & Hperm).
    { destruct n; simpl in *; lia. }
    exists pairs. split; [|done].
    destruct n as [e| | | |]; [done| | | |];
      cbn [iter_child_nodes coeff_scan]; by rewrite app_nil_r.
  - (* a number, the operator and the name of a product *)
    cbn [segment_nodes] in *. rewrite !queue_size_cons in Hsize.
    destruct fuel as [|[|[|fuel]]]; try (simpl in *; lia).
    cbn [app walk_queue iter_child_nodes]. rewrite !app_nil_r.
    destruct (IH fuel ltac:(lia) (segs ++ [SegOther NLoad])) as (pairs & Hscan & Hperm).
    { apply Forall_app. split; [done|]. by repeat constructor. }
    { rewrite queue_size_segments. simpl in *. lia. }
    rewrite flat_map_app in Hscan. cbn [flat_map segment_nodes app] in Hscan.
    exists ((c, id) :: pairs). split.
    + cbn [coeff_scan py_float]. by rewrite Hscan.
    + rewrite Hperm, flat_map_app. cbn. by rewrite app_nil_r.
Qed.

Lemma coeff_scan_normal_sum t :
  normal_sum t ->
  exists pairs, coeff_scan (PyInt 1) (walk t) = Ok pairs /\ pairs ≡ₚ tree_terms t.
Proof.
  intros Hn. destruct (scan_segments (ast_size t) [SegTree t]) as (pairs & Hscan & Hperm).
  - by repeat constructor.
  - simpl. lia.
  - exists pairs. split; [done|]. rewrite Hperm. cbn. by rewrite app_nil_r.
Qed.

Lemma term_tree_plain t : plain (term_tree t) = true.
Proof. unfold term_tree. by destruct (lt_coeff t). Qed.

Lemma term_tree_folded t : nums_folded (term_tree t) = true.
Proof. unfold term_tree. by destruct (lt_coeff t). Qed.

Lemma linear_form_tree_shape acc rest :
  plain acc = true -> nums_folded acc = true -> DistributeMult acc = acc ->
  let t := foldl (fun acc '(s, t) => BinOp acc (sign_operator s) (term_tree t)) acc rest in
  plain t = true /\ nums_folded t = true /\ DistributeMult t = t.
Proof.
  revert acc. induction rest as [|[s t] rest IH]; intros acc Hp Hf Hd; [done|].
  cbn [foldl]. apply IH.
  - simpl. rewrite Hp, term_tree_plain. by destruct s.
  - simpl. rewrite Hf, term_tree_folded. simpl.
    destruct acc as [[]| | | |]; try done; by destruct s.
  - cbn [DistributeMult]. rewrite Hd.
    assert (DistributeMult (term_tree t) = term_tree t) as ->.
    { unfold term_tree. by destruct (lt_coeff t). }
    by destruct s.
Qed.

Lemma term_tree_DistributeMult t : DistributeMult (term_tree t) = term_tree t.
Proof. unfold term_tree. by destruct (lt_coeff t). Qed.

Lemma linear_form_tree_sub acc acc' rest :
  MultiplyNums (DistributeSub acc) = acc' ->
  MultiplyNums (DistributeSub
    (foldl (fun acc '(s, t) => BinOp acc (sign_operator s) (term_tree t)) acc rest))
  = foldl (fun acc '(s, t) => BinOp acc Add (normal_term s t)) acc' rest.
Proof.
  revert acc acc'. induction rest as [|[s t] rest IH]; intros acc acc' Hacc; [done|].
  cbn [foldl]. apply IH. cbn [DistributeSub]. 
  assert (DistributeSub (term_tree t) = term_tree t) as ->.
  { unfold term_tree. by destruct (lt_coeff t). }
  unfold normal_term, term_tree.
  destruct s, (lt_coeff t) as [c|]; cbn [sign_operator DistributeSub_node is_add_sub MultiplyNums];
    rewrite Hacc; try done.
  - cbn [MultiplyNums_node]. destruct acc' as [[]| | | |]; done.
  - cbn [MultiplyNums_node]. destruct acc' as [[]| | | |]; done.
  - cbn [MultiplyNums_node pynum_mul]. destruct acc' as [[]| | | |]; done.
  - cbn [MultiplyNums_node]. destruct acc' as [[]| | | |]; done.
Qed.

Lemma normalize_linear_form first rest :
  normalize (linear_form_tree first rest) = Some (normal_form_tree first rest).
Proof.
  unfold linear_form_tree, normal_form_tree.
  destruct (linear_form_tree_shape (term_tree first) rest) as (Hp & Hf & Hd).
  { apply term_tree_plain. } { apply term_tree_folded. } { apply term_tree_DistributeMult. }
  unfold normalize, _remove_unary_operators, _multiply_numbers, _dist_mult, _remove_subtraction.
  rewrite (RemoveUnaryOps_id _ Hp), (MultiplyNums_id _ Hp Hf).
  cbn [dist_mult_loop]. rewrite Hd, ast_eq_refl. cbn [mbind option_bind].
  rewrite (MultiplyNums_id _ Hp Hf).
  f_equal. apply linear_form_tree_sub.
  unfold term_tree. by destruct (lt_coeff first).
Qed.

Lemma normal_term_sum s t : normal_sum (normal_term s t).
Proof. unfold normal_term, term_tree. destruct s, (lt_coeff t); constructor. Qed.

Lemma normal_form_tree_sum first rest : normal_sum (normal_form_tree first rest).
Proof.
  unfold normal_form_tree.
  assert (normal_sum (term_tree first)) as Hacc.
  { unfold term_tree. destruct (lt_coeff first); constructor. }
  revert Hacc. generalize (term_tree first).
  induction rest as [|[s t] rest IH]; intros acc Hacc; [done|].
  cbn [foldl]. apply IH. constructor; [done|apply normal_term_sum].
Qed.

Lemma tree_terms_add l r :
  tree_terms (BinOp l Add r) = tree_terms l ++ tree_terms r.
Proof. cbn [tree_terms]. by destruct l as [[]| | | |]. Qed.

Lemma tree_terms_foldl acc rest :
  tree_terms (foldl (fun acc '(s, t) => BinOp acc Add (normal_term s t)) acc rest)
  = tree_terms acc ++ map (fun '(s, t) => (signed_coeff s t, lt_name t)) rest.
Proof.
  revert acc. induction rest as [|[s t] rest IH]; intros acc.
  - cbn. by rewrite app_nil_r.
  - cbn [foldl map]. rewrite IH, tree_terms_add, <- app_assoc. do 2 f_equal.
    unfold normal_term, term_tree, signed_coeff.
    destruct s, (lt_coeff t) as [c|]; cbn [tree_terms default]; try done.
    by rewrite Z.mul_1_l.
Qed.

Lemma tree_terms_normal_form first rest :
  tree_terms (normal_form_tree first rest)
  = map (fun '(z, t) => (z, lt_name t)) (signed_terms first rest).
Proof.
  unfold normal_form_tree, signed_terms. rewrite tree_terms_foldl. cbn [map].
  assert (tree_terms (term_tree first) = [(signed_coeff Plus first, lt_name first)]) as ->.
  { unfold term_tree, signed_coeff. destruct (lt_coeff first) as [c|]; [|done].
    cbn [tree_terms default]. by rewrite Z.mul_1_l. }
  cbn [app]. f_equal. rewrite map_map. apply map_ext. by intros [s t].
Qed.

Lemma subnode_closed (P : pynode -> Prop) :
  (forall m c, P m -> c ∈ iter_child_nodes m -> P c) ->
  forall n m, subnode n m -> P m -> P n.
Proof.
  intros Hstep n m Hsub. induction Hsub as [|n c m Hc Hn IH]; [done|].
  intros Hm. apply IH. by eapply Hstep.
Qed.

Lemma int_plain_BinOp l o r :
  int_plain (BinOp l o r) = true
  <-> (o = Add \/ o = Sub \/ o = Mult) /\ int_plain l = true /\ int_plain r = true.
Proof. simpl. destruct o; rewrite ?andb_true_iff; naive_solver. Qed.

Lemma int_plain_children m c :
  int_plain_node m -> c ∈ iter_child_nodes m -> int_plain_node c.
Proof.
  destruct m as [[[]|id|o e|l o r|cls cs]| | | |]; try done; cbn [iter_child_nodes].
  - by intros _ ?%elem_of_nil.
  - by intros _ ->%list_elem_of_singleton.
  - intros (Ho & Hl & Hr)%int_plain_BinOp Hc.
    repeat (apply elem_of_cons in Hc as [->|Hc]); try done. by apply elem_of_nil in Hc.
  - by intros _ ?%elem_of_nil.
  - by intros _ ?%elem_of_nil.
Qed.

Lemma int_plain_node_valid n : int_plain_node n -> valid_node_type n = true.
Proof.
  destruct n as [[[]|id|o e|l o r|cls cs]| |o| |]; try done.
  by intros [->|[->| ->]].
Qed.

Lemma _validate_node_types_int_plain t :
  int_plain t = true -> _validate_node_types t = (true, None).
Proof.
  intros Ht.
  assert ((_validate_node_types t).1 = true) as H.
  { apply _validate_node_types_true. intros n Hn. apply int_plain_node_valid.
    by eapply (subnode_closed int_plain_node int_plain_children). }
  unfold _validate_node_types in *. by destruct (foldl _ _ _).
Qed.

Lemma _validate_nums_int_plain t :
  int_plain t = true -> _validate_nums t = (true, None).
Proof.
  intros Ht. unfold _validate_nums.
  assert (flat_map (fun node =>
                match node with
                | NAst (Num n) =>
                    match py_float n with
                    | inl _ => []
                    | inr e => [e]
                    end
                | _ => []
                end) (walk t) = []) as ->; [|done].
  assert (Forall int_plain_node (walk t)) as Hall.
  { apply Forall_forall. intros n Hn%walk_elem.
    by eapply (subnode_closed int_plain_node int_plain_children). }
  induction Hall as [|n l Hn _ IH]; [done|].
  cbn [flat_map]. rewrite IH, app_nil_r.
  by destruct n as [[[]| | | |]| | | |].
Qed.

Lemma linear_form_tree_int_plain first rest :
  int_plain (linear_form_tree first rest) = true.
Proof.
  unfold linear_form_tree.
  assert (forall t, int_plain (term_tree t) = true) as Hterm.
  { intros t. unfold term_tree. by destruct (lt_coeff t). }
  pose proof (Hterm first) as Hacc. revert Hacc. generalize (term_tree first).
  induction rest as [|[s t] rest IH]; intros acc Hacc; [done|].
  cbn [foldl]. apply IH. apply int_plain_BinOp. split; [destruct s; auto|]. auto.
Qed.

(** The checks of the normal form *)

Lemma normal_children m c :
  normal_node m -> c ∈ iter_child_nodes m -> normal_node c.
Proof.
  destruct m as [e| | | |]; try (by intros _ ?%elem_of_nil).
  intros Hm Hc.
  destruct e as [[]|id|o e|l o r|cls cs]; try (by inversion Hm);
    cbn [iter_child_nodes] in Hc.
  - by apply elem_of_nil in Hc.
  - by apply list_elem_of_singleton in Hc as ->.
  - simpl in Hm. inversion Hm as [|c' id|l' r' Hl Hr]; subst;
      repeat (apply elem_of_cons in Hc as [->|Hc]); try done;
      try (by apply elem_of_nil in Hc); try constructor.
    + by destruct l as [[]| | | |].
    + by destruct r as [[]| | | |].
Qed.

Lemma walk_normal t n : normal_sum t -> n ∈ walk t -> normal_node n.
Proof.
  intros Ht Hn%walk_elem.
  eapply (subnode_closed normal_node normal_children); [done|].
  by destruct t as [[]| | | |].
Qed.

Lemma walk_head t : exists rest, walk t = NAst t :: rest.
Proof.
  unfold walk. pose proof (ast_size_pos t).
  destruct (ast_size t) as [|k]; [lia|]. by eexists.
Qed.

Lemma existsb_false {A} (f : A -> bool) l :
  (forall x, x ∈ l -> f x = false) -> existsb f l = false.
Proof.
  induction l as [|x l IH]; intros H; [done|]. simpl.
  rewrite H by left. apply IH. intros y Hy. apply H. by right.
Qed.

Lemma normal_no_constant t : normal_sum t -> _expr_has_a_constant t = false.
Proof.
  intros Ht. unfold _expr_has_a_constant.
  assert (existsb (fun node =>
                 match node with
                 | NAst (BinOp l (Add | Sub) r) => is_num l || is_num r
                 | _ => false
                 end) (walk t) = false) as Hex.
  { apply existsb_false. intros n Hn. pose proof (walk_normal _ _ Ht Hn) as Hnode.
    destruct n as [[[]|id|o e|l o r|cls cs]| | | |]; try done.
    simpl in Hnode. inversion Hnode as [| |l' r' Hl Hr]; subst; [done|].
    by inversion Hl; inversion Hr. }
  destruct (walk_head t) as [rest Hw]. rewrite Hw in *.
  inversion Ht; subst; destruct rest; exact Hex.
Qed.

Lemma normal_no_products t : normal_sum t -> _expr_has_products_of_variables t = false.
Proof.
  intros Ht. unfold _expr_has_products_of_variables, _max_num_variables_in_a_product.
  apply bool_decide_eq_false.
  assert (forall l m, Forall normal_node l -> m <= 1 ->
            foldl (fun m node =>
                     match node with
                     | NAst (BinOp l o r) =>
                         Nat.max m (_num_of_variables_in_a_product (BinOp l o r))
                     | _ => m
                     end) m l <= 1) as Hfold.
  { induction l as [|n l IH]; intros m Hall Hm; [done|].
    apply Forall_cons in Hall as [Hn Hall]. cbn [foldl]. apply IH; [done|].
    destruct n as [[[]|id|o e|l' o r|cls cs]| | | |]; try done.
    simpl in Hn. inversion Hn as [| |l'' r'' Hl Hr]; subst; simpl; lia. }
  assert (foldl (fun m node =>
                     match node with
                     | NAst (BinOp l o r) =>
                         Nat.max m (_num_of_variables_in_a_product (BinOp l o r))
                     | _ => m
                     end) 0 (walk t) <= 1); [|lia].
  apply Hfold; [|lia]. apply Forall_forall. intros n Hn. by eapply walk_normal.
Qed.

Lemma normal_no_constant_right t :
  normal_sum t -> _expr_has_constant_right_of_vars t = false.
Proof.
  intros Ht. unfold _expr_has_constant_right_of_vars.
  apply existsb_false. intros n Hn. pose proof (walk_normal _ _ Ht Hn) as Hnode.
  destruct n as [[[]|id|o e|l o r|cls cs]| | | |]; try done.
  simpl in Hnode. by inversion Hnode.
Qed.

Lemma get_cls_and_model_related pe expr id cls obj :
  get_cls_and_model pe expr id = Ok (Some (cls, obj)) ->
  exists objs key, related_objects pe !! cls = Some objs /\ objs !! key = Some obj.
Proof.
  unfold get_cls_and_model.
  destruct (flat_map _ _) as [|x [|y l]] eqn:Hfound; try done.
  intros [= ->].
  assert ((cls, obj) ∈ flat_map (fun '(related_class, related_objs) =>
                omap (fun '(_, related_obj) =>
                        if bool_decide (inst_id related_obj = id)
                        then Some (related_class, related_obj) else None)
                     (map_to_list related_objs))
             (map_to_list (related_objects pe))) as Hin.
  { rewrite Hfound. left. }
  apply list_elem_of_In, in_flat_map in Hin as ([rc robjs] & Hrc & Hin).
  apply list_elem_of_In in Hrc, Hin.
  apply elem_of_map_to_list in Hrc.
  apply list_elem_of_omap in Hin as ([key o] & Hko & Hsome).
  apply elem_of_map_to_list in Hko.
  case_bool_decide; [|done]. injection Hsome as <- <-. eauto.
Qed.

Lemma signed_sum_cons z t terms cls obj :
  signed_sum ((z, t) :: terms) cls obj
  = ((if decide (lt_cls t = cls /\ lt_obj t = obj) then z else 0)
     + signed_sum terms cls obj)%Z.
Proof.
  unfold signed_sum. rewrite filter_cons.
  destruct (decide (lt_cls t = cls /\ lt_obj t = obj)); [done|]. lia.
Qed.

Lemma signed_sum_perm terms terms' cls obj :
  terms ≡ₚ terms' -> signed_sum terms cls obj = signed_sum terms' cls obj.
Proof.
  induction 1 as [|[z t] l l' _ IH|[z t] [z' t'] l|l1 l2 l3 _ IH1 _ IH2].
  - done.
  - by rewrite !signed_sum_cons, IH.
  - rewrite !signed_sum_cons. lia.
  - by rewrite IH1.
Qed.

Lemma add_lin_coeffs_terms pe expr v terms lc :
  Forall (fun '(_, t) =>
            get_cls_and_model pe expr (original_id v (lt_name t))
            = Ok (Some (lt_cls t, lt_obj t))) terms ->
  Forall (fun '(_, t) =>
            exists z0, lookup2 lc (lt_cls t) (lt_obj t) = Some (Coeff z0)) terms ->
  exists lc',
    add_lin_coeffs pe expr
      (map (fun '(z, t) => (z, original_id v (lt_name t))) terms) lc = (lc', None)
    /\ forall cls obj z0,
         lookup2 lc cls obj = Some (Coeff z0) ->
         lookup2 lc' cls obj = Some (Coeff (z0 + signed_sum terms cls obj)).
Proof.
  revert lc. induction terms as [|[z t] terms IH]; intros lc Hres Hlook.
  - exists lc. split; [done|]. intros cls obj z0 H. rewrite H. do 2 f_equal.
    unfold signed_sum. simpl. lia.
  - apply Forall_cons in Hres as [Hres1 Hres]. apply Forall_cons in Hlook as [[z0 Hz0] Hlook].
    cbn [map add_lin_coeffs]. rewrite Hres1.
    unfold lookup2 in Hz0. destruct (lc !! lt_cls t) as [inner|] eqn:Hinner; [|done].
    simpl in Hz0. rewrite Hz0. cbn [coeff_add].
    destruct (IH (<[lt_cls t := <[lt_obj t := Coeff (z0 + z)]> inner]> lc)) as (lc' & Hadd & Hsum).
    { done. }
    { eapply Forall_impl; [exact Hlook|]. intros [z1 t1] [z2 Hz2].
      rewrite (lookup2_insert _ _ _ _ _ _ _ Hinner). case_decide; eauto. }
    exists lc'. split; [done|].
    intros cls obj z1 Hz1. rewrite signed_sum_cons.
    destruct (decide (lt_cls t = cls /\ lt_obj t = obj)) as [[<- <-]|Hne].
    + assert (z1 = z0) as ->.
      { unfold lookup2 in Hz1. rewrite Hinner in Hz1. simpl in Hz1. congruence. }
      rewrite (Hsum _ _ (z0 + z)%Z).
      * by rewrite Z.add_assoc.
      * rewrite (lookup2_insert _ _ _ _ _ _ _ Hinner). by rewrite decide_True.
    + rewrite (Hsum _ _ z1).
      * repeat f_equal; lia.
      * rewrite (lookup2_insert _ _ _ _ _ _ _ Hinner). by rewrite decide_False.
Qed.

Lemma _validate_linear_form py expr first rest :
  ast_parse py expr = Some (linear_form_tree first rest) ->
  _validate py expr
  = Ok {| rv := (true, None); tree := Some (normal_form_tree first rest);
          v_is_linear := true |}.
Proof.
  intros Hparse. unfold _validate. rewrite Hparse.
  pose proof (linear_form_tree_int_plain first rest) as Hip.
  rewrite (_validate_node_types_int_plain _ Hip), (_validate_nums_int_plain _ Hip).
  cbn [negb]. rewrite normalize_linear_form.
  pose proof (normal_form_tree_sum first rest) as Hn.
  by rewrite (normal_no_constant _ Hn), (normal_no_products _ Hn),
    (normal_no_constant_right _ Hn).
Qed.


(** A check of [related_classes_declared] that runs *)
Lemma related_classes_declared_check pe :
  forallb (fun p => bool_decide (p.1 ∈ expression_term_classes (model_cls pe)))
          (map_to_list (related_objects pe)) = true ->
  related_classes_declared pe.
Proof.
  intros Hall cls [objs Hcls]. rewrite forallb_forall in Hall.
  apply elem_of_map_to_list, list_elem_of_In in Hcls.
  by apply Hall, bool_decide_eq_true in Hcls.
Qed.

(** * The tokenizer *)

(** ** [tokenize] reads only what [__init__] set *)

Lemma inputs_set_tokenization self ro lc errs toks ce ceu ns nsu :
  inputs (set_tokenization self ro lc errs toks ce ceu ns nsu) = inputs self.
Proof. done. Qed.

Lemma reset_tokenization_inputs s1 s2 :
  inputs s1 = inputs s2 -> reset_tokenization s1 = reset_tokenization s2.
Proof.
  unfold inputs, reset_tokenization, set_tokenization. intros [= H1 H2 H3 H4 H5 H6 H7 H8].
  by rewrite H1, H2, H3, H4, H5, H6, H7, H8.
Qed.

Lemma tokenize_step_inputs py cfm idx self tok :
  match tokenize_step py cfm idx self tok with
  | Continue _ self' | Break self' | Raised self' _ => inputs self' = inputs self
  end.
Proof.
  unfold tokenize_step. repeat case_match; simplify_eq; done.
Qed.

Lemma tokenize_loop_inputs py cfm fuel idx self :
  inputs (tokenize_loop py cfm fuel idx self).1 = inputs self.
Proof.
  revert idx self. induction fuel as [|fuel IH]; intros idx self; simpl.
  - by destruct (_py_tokens self !! idx).
  - destruct (_py_tokens self !! idx) as [tok|]; [|done].
    pose proof (tokenize_step_inputs py cfm idx self tok) as Hstep.
    destruct (tokenize_step py cfm idx self tok) as [idx' self'|self'|self' e]; try done.
    by rewrite IH.
Qed.

Lemma tokenize_inputs py self cfm :
  inputs (tokenize py self cfm).1 = inputs self.
Proof.
  unfold tokenize. 
  assert (inputs (reset_tokenization self) = inputs self) as Hreset by done.
  destruct (bool_decide (expression (reset_tokenization self) = "")); [done|].
  destruct (foldl _ [] (_py_tokens (reset_tokenization self))); [|done].
  pose proof (tokenize_loop_inputs py cfm
                (length (_py_tokens (reset_tokenization self))) 0
                (reset_tokenization self)) as Hloop.
  destruct (tokenize_loop _ _ _ _ _) as [self1 [e|]]; [by rewrite <- Hreset|].
  simpl in Hloop.
  destruct (errors (set_errors _ self1)); [|by rewrite <- Hreset].
  destruct (_compile py _ false) as [[ce ns]|e].
  - destruct (_compile py _ true) as [[ceu nsu]|e]; by rewrite <- Hreset.
  - destruct e; by rewrite <- Hreset.
Qed.

Lemma tokenize_depends_on_inputs py s1 s2 cfm :
  inputs s1 = inputs s2 -> tokenize py s1 cfm = tokenize py s2 cfm.
Proof.
  intros H. unfold tokenize. by rewrite (reset_tokenization_inputs s1 s2 H).
Qed.

(** C7. [tokenize] is idempotent: a second call on the same instance leaves
    the same state and returns the same token list, related objects and
    errors (or raises the same exception), because every call first resets
    the derived state and reads only what [__init__] set. *)
Theorem tokenize_idempotent py self case_fold_match :
  tokenize py (tokenize py self case_fold_match).1 case_fold_match
  = tokenize py self case_fold_match.
Proof. apply tokenize_depends_on_inputs, tokenize_inputs. Qed.

(** ** Sorting and the longest matches *)

Lemma insert_sorted_perm {A} (le : A -> A -> bool) x l :
  insert_sorted le x l ≡ₚ x :: l.
Proof.
  induction l as [|y l IH]; [done|]. simpl. destruct (le y x); [|done].
  rewrite IH. apply Permutation_swap.
Qed.

Lemma sorted_perm {A} (le : A -> A -> bool) l : sorted le l ≡ₚ l.
Proof.
  unfold sorted.
  assert (forall acc, foldl (fun acc x => insert_sorted le x acc) acc l ≡ₚ acc ++ l) as H.
  { induction l as [|x l IH]; intros acc; simpl.
    - by rewrite app_nil_r.
    - rewrite IH. rewrite insert_sorted_perm.
      change (x :: acc) with ([x] ++ acc).
      rewrite (Permutation_app_comm [x] acc). by rewrite <- app_assoc. }
  apply (H []).
Qed.

Section KeySort.
Context {A : Type} (key : A -> nat).

Lemma insert_sorted_ascending x l :
  ascending key l -> ascending key (insert_sorted (key_le key) x l).
Proof.
  induction l as [|y l IH]; intros Hl; simpl.
  - done.
  - destruct Hl as [Hy Hl]. unfold key_le at 1.
    destruct (Nat.leb (key y) (key x)) eqn:Hle.
    + apply Nat.leb_le in Hle. simpl. split; [|auto].
      rewrite insert_sorted_perm. by constructor.
    + apply Nat.leb_gt in Hle. simpl. split; [|done].
      constructor; [lia|]. eapply Forall_impl; [exact Hy|]. simpl. lia.
Qed.

Lemma sorted_ascending l : ascending key (sorted (key_le key) l).
Proof.
  unfold sorted.
  assert (forall acc, ascending key acc ->
            ascending key (foldl (fun acc x => insert_sorted (key_le key) x acc) acc l)) as H.
  { induction l as [|x l IH]; intros acc Hacc; [done|].
    simpl. by apply IH, insert_sorted_ascending. }
  by apply H.
Qed.

Lemma ascending_last l x :
  ascending key l -> last l = Some x -> Forall (fun y => key y <= key x) l.
Proof.
  induction l as [|y l IH]; [done|]. intros [Hy Hl] Hlast.
  destruct l as [|z l].
  - injection Hlast as ->. by repeat constructor.
  - constructor.
    + rewrite Forall_forall in Hy. apply Hy.
      change (last (y :: z :: l)) with (last (z :: l)) in Hlast.
      by apply last_Some_elem_of.
    + by apply IH.
Qed.

End KeySort.

(** ** [pop_while] *)

Lemma set_add_elem {A} `{EqDecision A} (x y : A) s :
  y ∈ set_add x s <-> y = x \/ y ∈ s.
Proof.
  unfold set_add. destruct (decide (x ∈ s)).
  - split; [auto|]. intros [->|]; done.
  - rewrite elem_of_app, list_elem_of_singleton. tauto.
Qed.

Lemma set_add_NoDup {A} `{EqDecision A} (x : A) s : NoDup s -> NoDup (set_add x s).
Proof.
  intros Hs. unfold set_add. destruct (decide (x ∈ s)); [done|].
  apply NoDup_app. split_and!; [done| |apply NoDup_singleton].
  intros y Hy ->%list_elem_of_singleton. done.
Qed.

Lemma set_add_length {A} `{EqDecision A} (x : A) s :
  length (set_add x s) <= S (length s).
Proof.
  unfold set_add. destruct (decide (x ∈ s)); [lia|].
  rewrite length_app. simpl. lia.
Qed.

Lemma pop_while_length {A} `{EqDecision A} (p : A -> bool) l out :
  length (pop_while p l out) <= length l + length out.
Proof.
  revert out. induction l as [|x l IH]; intros out; simpl; [lia|].
  destruct (p x); [|lia].
  specialize (IH (set_add x out)). pose proof (set_add_length x out). lia.
Qed.

(** On a list whose elements that satisfy [p] come first, [pop_while]
    collects exactly those. *)
Lemma pop_while_elem {A} `{EqDecision A} (p : A -> bool) l out y :
  (forall l1 x l2, l = l1 ++ x :: l2 -> p x = true -> Forall (fun z => p z = true) l1) ->
  y ∈ pop_while p l out <-> (y ∈ l /\ p y = true) \/ y ∈ out.
Proof.
  revert out. induction l as [|x l IH]; intros out Hpre; simpl.
  - rewrite elem_of_nil. tauto.
  - destruct (p x) eqn:Hx.
    + rewrite IH.
      * rewrite set_add_elem, elem_of_cons. split; [|naive_solver].
        intros [[? ?]|[->|?]]; auto.
      * intros l1 z l2 -> Hz.
        specialize (Hpre (x :: l1) z l2 eq_refl Hz).
        by inversion Hpre.
    + split; [auto|]. intros [[Hy Hpy]|?]; [|done].
      apply elem_of_cons in Hy as [->|Hy]; [congruence|].
      apply list_elem_of_split in Hy as (l1 & l2 & ->).
      specialize (Hpre (x :: l1) y l2 eq_refl Hpy).
      inversion Hpre. congruence.
Qed.

Lemma elem_of_rev {A} (x : A) l : x ∈ rev l <-> x ∈ l.
Proof. rewrite !list_elem_of_In. symmetry. apply in_rev. Qed.

Lemma pop_while_list_elem {A} (p : A -> bool) l y :
  (forall l1 x l2, l = l1 ++ x :: l2 -> p x = true -> Forall (fun z => p z = true) l1) ->
  y ∈ pop_while_list p l <-> y ∈ l /\ p y = true.
Proof.
  induction l as [|x l IH]; intros Hpre; simpl.
  - rewrite elem_of_nil. tauto.
  - destruct (p x) eqn:Hx.
    + rewrite !elem_of_cons, IH; [naive_solver|].
      intros l1 z l2 -> Hz.
      specialize (Hpre (x :: l1) z l2 eq_refl Hz). by inversion Hpre.
    + rewrite elem_of_nil. split; [done|]. intros [Hy Hpy].
      apply elem_of_cons in Hy as [->|Hy]; [congruence|].
      apply list_elem_of_split in Hy as (l1 & l2 & ->).
      specialize (Hpre (x :: l1) y l2 eq_refl Hpy).
      inversion Hpre. congruence.
Qed.

Section Longest.
Context {A : Type} (key : A -> nat).

Lemma ascending_app l1 x l2 :
  ascending key (l1 ++ x :: l2) -> Forall (fun y => key x <= key y) l2.
Proof.
  induction l1 as [|y l1 IH]; simpl; intros [H1 H2]; [done|auto].
Qed.

(** In the reversed sorted list, the elements of the largest key come
    first. *)
Lemma rev_sorted_prefix l x l1 y l2 :
  last (sorted (key_le key) l) = Some x ->
  rev (sorted (key_le key) l) = l1 ++ y :: l2 ->
  key y = key x ->
  Forall (fun z => bool_decide (key z = key x) = true) l1.
Proof.
  intros Hlast Hrev Hy.
  pose proof (sorted_ascending key l) as Hasc.
  pose proof (ascending_last key _ _ Hasc Hlast) as Hmax.
  assert (sorted (key_le key) l = rev l2 ++ y :: rev l1) as Hs.
  { rewrite <- (rev_involutive (sorted _ l)), Hrev, rev_app_distr. simpl.
    by rewrite <- app_assoc. }
  rewrite Hs in Hasc. apply ascending_app in Hasc.
  rewrite Forall_forall in Hasc, Hmax. apply Forall_forall. intros z Hz.
  apply bool_decide_eq_true.
  assert (z ∈ rev l1) as Hz' by (by apply elem_of_rev).
  specialize (Hasc z Hz').
  assert (z ∈ sorted (key_le key) l) as Hz''.
  { rewrite Hs. apply elem_of_app. right. by right. }
  specialize (Hmax z Hz''). lia.
Qed.

Lemma last_sorted_max (l : list A) x :
  last (sorted (key_le key) l) = Some x ->
  x ∈ l /\ forall y, y ∈ l -> key y <= key x.
Proof.
  intros Hlast. split.
  - rewrite <- (sorted_perm (key_le key) l). by apply last_Some_elem_of.
  - intros y Hy.
    pose proof (ascending_last key _ _ (sorted_ascending key l) Hlast) as Hmax.
    rewrite Forall_forall in Hmax. apply Hmax. by rewrite sorted_perm.
Qed.

Lemma last_sorted_None l : last (sorted (key_le key) l) = None -> l = [].
Proof.
  intros H. apply last_None in H.
  apply Permutation_nil. by rewrite <- (sorted_perm (key_le key) l), H.
Qed.

Lemma maximal_key (l : list A) x m :
  x ∈ l -> (forall y, y ∈ l -> key y <= key x) ->
  (m ∈ l /\ key m = key x) <-> (m ∈ l /\ forall m', m' ∈ l -> key m' <= key m).
Proof.
  intros Hx Hmax. split; intros [Hm H]; split; try done.
  - intros m' Hm'. rewrite H. auto.
  - specialize (H x Hx). specialize (Hmax m Hm). lia.
Qed.

End Longest.

Lemma longest_id_matches_spec ids m :
  m ∈ longest_id_matches ids <->
  m ∈ ids /\
  forall m', m' ∈ ids ->
    String.length (match_string m') <= String.length (match_string m).
Proof.
  unfold longest_id_matches.
  set (key := fun m : IdMatch => String.length (match_string m)).
  change len_le with (key_le key).
  destruct (last (sorted (key_le key) ids)) as [x|] eqn:Hlast.
  - destruct (last_sorted_max key _ _ Hlast) as [Hx Hmax].
    etrans; [|apply (maximal_key key ids x m Hx Hmax)].
    rewrite pop_while_elem.
    + rewrite elem_of_nil, elem_of_rev, sorted_perm, bool_decide_eq_true.
      subst key. simpl. tauto.
    + intros l1 y l2 Hrev Hy. apply bool_decide_eq_true in Hy.
      by eapply (rev_sorted_prefix key).
  - apply last_sorted_None in Hlast as ->. split.
    + by intros ?%elem_of_nil.
    + by intros [?%elem_of_nil _].
Qed.

Lemma longest_id_matches_length ids :
  length (longest_id_matches ids) <= length ids.
Proof.
  unfold longest_id_matches. destruct (last _); simpl; [|lia].
  etrans; [apply pop_while_length|].
  rewrite length_rev, sorted_perm. simpl. lia.
Qed.

Lemma longest_lex_matches_spec ms m :
  m ∈ longest_lex_matches ms <->
  m ∈ ms /\ forall m', m' ∈ ms -> num_py_tokens m' <= num_py_tokens m.
Proof.
  unfold longest_lex_matches.
  change num_le with (key_le num_py_tokens).
  destruct (last (sorted (key_le num_py_tokens) ms)) as [x|] eqn:Hlast.
  - destruct (last_sorted_max num_py_tokens _ _ Hlast) as [Hx Hmax].
    etrans; [|apply (maximal_key num_py_tokens ms x m Hx Hmax)].
    rewrite pop_while_list_elem.
    + by rewrite elem_of_rev, sorted_perm, bool_decide_eq_true.
    + intros l1 y l2 Hrev Hy. apply bool_decide_eq_true in Hy.
      by eapply (rev_sorted_prefix num_py_tokens).
  - apply last_sorted_None in Hlast as ->. split.
    + by intros ?%elem_of_nil.
    + by intros [?%elem_of_nil _].
Qed.

Lemma longest_lex_matches_nonempty ms : ms <> [] -> longest_lex_matches ms <> [].
Proof.
  intros Hms Hnil.
  destruct (last (sorted (key_le num_py_tokens) ms)) as [x|] eqn:Hlast.
  - destruct (last_sorted_max num_py_tokens _ _ Hlast) as [Hx Hmax].
    assert (x ∈ longest_lex_matches ms) as Hin by (by apply longest_lex_matches_spec).
    rewrite Hnil in Hin. by apply elem_of_nil in Hin.
  - by apply last_sorted_None in Hlast.
Qed.

(** ** The lexical element getters *)

Lemma truthy_Some m : truthy m = true <-> exists s, m = Some s /\ s <> "".
Proof.
  destruct m as [s|]; simpl.
  - rewrite negb_true_iff, bool_decide_eq_false. naive_solver.
  - naive_solver.
Qed.

Lemma related_obj_matches_spec py self idx cfm tm im :
  related_obj_matches py self idx cfm = (tm, im) ->
  (forall s, s ∈ tm <-> exists mt, token_pattern_matches self idx mt s) /\
  (forall m, m ∈ im <->
     token_pattern_matches self idx (im_model_type m) (match_string m) /\
     known_id py self cfm (im_model_type m) (match_string m) /\
     im_token_pattern m = expression_term_token_pattern (im_model_type m)).
Proof.
  unfold related_obj_matches, token_pattern_matches, known_id, lookup_key.
  match goal with |- foldl ?g _ _ = _ -> _ => set (f := g) end.
  assert (forall l tm0 im0,
    foldl f (tm0, im0) l = (tm, im) ->
    (forall s, s ∈ tm <->
       s ∈ tm0 \/ exists mt, mt ∈ l /\
         _match_tokens self (expression_term_token_pattern mt) idx = Some s /\ s <> "") /\
    (forall m, m ∈ im <->
       m ∈ im0 \/
       (im_model_type m ∈ l /\
        _match_tokens self (expression_term_token_pattern (im_model_type m)) idx
          = Some (match_string m) /\ match_string m <> "") /\
       is_Some (objs_of self (im_model_type m)
                  !! (if cfm then casefold py (match_string m) else match_string m)) /\
       im_token_pattern m = expression_term_token_pattern (im_model_type m))) as H.
  { induction l as [|mt l IH]; intros tm0 im0; simpl.
    - intros [= -> ->]. split; intros x; split; auto.
      + intros [?|(mt & ?%elem_of_nil & _)]; done.
      + intros [?|((?%elem_of_nil & _) & _)]; done.
    - destruct (f (tm0, im0) mt) as [tm1 im1] eqn:Hstep. intros Hf.
      unfold f in Hstep.
      destruct (truthy _) eqn:Ht; injection Hstep as <- <-.
      + apply truthy_Some in Ht as (s0 & Hs0 & Hne). rewrite Hs0 in Hf. simpl in Hf.
        apply IH in Hf as [H1 H2]. split.
        * intros s. rewrite H1, set_add_elem. split.
          -- intros [[->|?]|(mt' & ? & ?)]; [right|by left|right].
             ++ exists mt. split; [by left|done].
             ++ exists mt'. split; [by right|done].
          -- intros [?|(mt' & [->|?]%elem_of_cons & Hm & ?)]; [by left; right| |].
             ++ left; left. congruence.
             ++ right. by exists mt'.
        * intros m. rewrite H2. clear H1 H2. case_bool_decide as Hk.
          -- rewrite set_add_elem. split.
             ++ intros [[Hm|Hm]|[(Hin & Hm & Hne') [Hk' Hp]]].
                ** right. subst m. simpl. split_and!; try done; by left.
                ** by left.
                ** right. split_and!; try done; by right.
             ++ intros [Hm|[(Hin & Hm & Hne') [Hk' Hp]]]; [by left; right|].
                apply elem_of_cons in Hin as [Heq|Hin].
                ** left; left. destruct m as [a b c]; simpl in *. subst.
                   f_equal. congruence.
                ** right. done.
          -- split.
             ++ intros [Hm|[(Hin & Hm & Hne') [Hk' Hp]]]; [by left|right].
                split_and!; try done; by right.
             ++ intros [Hm|[(Hin & Hm & Hne') [Hk' Hp]]]; [by left|].
                apply elem_of_cons in Hin as [Heq|Hin].
                ** exfalso. apply Hk. rewrite Heq in Hk', Hm.
                   assert (s0 = match_string m) as -> by congruence. done.
                ** right. done.
      + apply IH in Hf as [H1 H2]. split.
        * intros s. rewrite H1. split.
          -- intros [?|(mt' & ? & ?)]; [by left|right].
             exists mt'. split; [by right|done].
          -- intros [?|(mt' & [->|?]%elem_of_cons & Hm & Hne)]; [by left| |].
             ++ exfalso. rewrite Hm in Ht. simpl in Ht.
                by rewrite bool_decide_eq_false_2 in Ht.
             ++ right. by exists mt'.
        * intros m. rewrite H2. split.
          -- intros [Hm|[(Hin & Hm & Hne') [Hk' Hp]]]; [by left|right].
             split_and!; try done; by right.
          -- intros [Hm|[(Hin & Hm & Hne) [Hk' Hp]]]; [by left|].
             apply elem_of_cons in Hin as [Heq|Hin].
             ++ exfalso. rewrite <- Heq, Hm in Ht. simpl in Ht.
                by rewrite bool_decide_eq_false_2 in Ht.
             ++ right. done. }
  intros Hf. apply H in Hf as [H1 H2]. split.
  - intros s. rewrite H1. split.
    + intros [?%elem_of_nil|(mt & ? & ?)]; [done|]. by exists mt.
    + intros (mt & ? & ?). right. by exists mt.
  - intros m. rewrite H2. split.
    + intros [?%elem_of_nil|?]; done.
    + intros ?. by right.
Qed.


Lemma _match_tokens_nonempty self pat idx s :
  _match_tokens self pat idx = Some s -> 1 <= length pat.
Proof.
  unfold _match_tokens. case_bool_decide as Hp; [done|].
  intros _. destruct pat; [done|simpl; lia].
Qed.

Lemma _get_model_type_elem self name mt :
  _get_model_type self name = Some mt ->
  mt ∈ term_models self /\ __name__ mt = name.
Proof.
  unfold _get_model_type. intros [Hin Hn]%find_some.
  apply bool_decide_eq_true in Hn. split; [by apply list_elem_of_In|done].
Qed.

Lemma resolved_mk_obj_token self s mt id o :
  mt ∈ term_models self -> objs_of self mt !! id = Some o ->
  resolved self (mk_obj_token s mt id o).
Proof. intros ? ? _. exists mt, id, o. by repeat split. Qed.

Lemma resolved_mk_token self c s : c <> obj_id -> resolved self (mk_token c s).
Proof. intros Hc Hc'. done. Qed.

Lemma _get_related_obj_id_Matched py self idx cfm m :
  _get_related_obj_id py self idx cfm = Matched m ->
  exists mt ms o,
    token_pattern_matches self idx mt ms /\
    objs_of self mt !! lookup_key py cfm ms = Some o /\
    obj_tables_tokens m = [mk_obj_token ms mt (lookup_key py cfm ms) o] /\
    num_py_tokens m = length (expression_term_token_pattern mt).
Proof.
  unfold _get_related_obj_id.
  destruct (related_obj_matches py self idx cfm) as [tm im] eqn:Hrel.
  destruct (related_obj_matches_spec _ _ _ _ _ _ Hrel) as [_ Him].
  destruct im as [|m0 im]; [by destruct tm|].
  set (kept := if bool_decide (1 < length (m0 :: im)) then _ else _).
  assert (forall x, x ∈ kept -> x ∈ m0 :: im) as Hkept.
  { subst kept. case_bool_decide; [|done].
    intros x Hx. by apply longest_id_matches_spec in Hx as [? _]. }
  case_bool_decide; [done|].
  destruct kept as [|match_ rest]; [done|].
  destruct (objs_of self (im_model_type match_) !! _) as [o|] eqn:Ho; [|done].
  intros [= <-]. exists (im_model_type match_), (match_string match_), o.
  assert (match_ ∈ m0 :: im) as Hin by (apply Hkept; by left).
  apply Him in Hin as (Hp & _ & Hpat). simpl. rewrite Hpat. done.
Qed.

Lemma _get_disambiguated_id_Matched py self idx cfm m :
  _get_disambiguated_id py self idx cfm = Matched m ->
  exists mt ms id o,
    mt ∈ term_models self /\ objs_of self mt !! id = Some o /\
    obj_tables_tokens m = [mk_obj_token ms mt id o] /\
    num_py_tokens m = 3.
Proof.
  unfold _get_disambiguated_id. destruct (truthy _); [|done].
  destruct (_get_model_type self _) as [mt|] eqn:Hmt; [|done].
  destruct (objs_of self mt !! _) as [o|] eqn:Ho; [|done].
  intros [= <-]. apply _get_model_type_elem in Hmt as [Hin _].
  by eexists mt, _, _, o.
Qed.

Lemma _get_func_call_id_Matched self idx m :
  _get_func_call_id self idx = Matched m ->
  exists f, obj_tables_tokens m = [mk_token math_func_id f; mk_token op "("] /\
            num_py_tokens m = 2.
Proof.
  unfold _get_func_call_id. destruct (truthy _); [|done].
  destruct (expression_valid_functions _); [|done].
  case_bool_decide; [|done]. intros [= <-]. by eexists.
Qed.

Lemma lex_results_good py self idx cfm m :
  Matched m ∈ lex_results py self idx cfm -> good_match self m.
Proof.
  unfold lex_results. rewrite !elem_of_cons, elem_of_nil.
  unfold good_match.
  intros [H|[H|[H|[]]]]; symmetry in H.
  - apply _get_related_obj_id_Matched in H
      as (mt & ms & o & (Hin & Hm & _) & Ho & Ht & Hn).
    rewrite Ht, Hn. split; [by eapply _match_tokens_nonempty|].
    repeat constructor. by apply resolved_mk_obj_token.
  - apply _get_disambiguated_id_Matched in H
      as (mt & ms & id & o & Hin & Ho & Ht & Hn).
    rewrite Ht, Hn. split; [lia|]. repeat constructor.
    by apply resolved_mk_obj_token.
  - apply _get_func_call_id_Matched in H as (f & Ht & Hn).
    rewrite Ht, Hn. split; [lia|]. by repeat constructor.
Qed.

Lemma carries_inj t mt id o mt' id' o' :
  carries t mt id o -> carries t mt' id' o' -> mt = mt' /\ id = id' /\ o = o'.
Proof. intros (_ & ? & ? & ?) (_ & ? & ? & ?). split_and!; congruence. Qed.

Lemma record_related_objects_ok self toks ro :
  (forall mt, mt ∈ term_models self -> is_Some (ro !! mt)) ->
  Forall (resolved self) toks ->
  (forall mt id o, lookup2 ro mt id = Some o -> objs_of self mt !! id = Some o) ->
  exists ro',
    record_related_objects toks ro = Ok ro' /\
    (forall mt, mt ∈ term_models self -> is_Some (ro' !! mt)) /\
    (forall mt id o,
       lookup2 ro' mt id = Some o <->
       lookup2 ro mt id = Some o \/ exists t, t ∈ toks /\ carries t mt id o).
Proof.
  unfold record_related_objects. revert ro.
  induction toks as [|t toks IH]; intros ro Hkeys Hres Hcons.
  - exists ro. split_and!; try done. intros mt id o. split; [auto|].
    intros [?|(t & ?%elem_of_nil & _)]; done.
  - apply Forall_cons in Hres as [Ht Hres]. cbn [foldl bind].
    case_bool_decide as Hc.
    + destruct (Ht Hc) as (mt & id & o & Hmt & Ho & Hcar).
      destruct Hcar as (_ & Hty & Hid & Hm). rewrite Hty, Hid, Hm.
      destruct (Hkeys mt Hmt) as [inner Hinner]. rewrite Hinner.
      destruct (IH (<[mt := <[id := o]> inner]> ro)) as (ro' & Hrec & Hkeys' & Hrel).
      * intros mt' Hmt'. destruct (decide (mt = mt')) as [<-|Hne].
        -- rewrite lookup_insert_eq. by eexists.
        -- rewrite lookup_insert_ne by done. auto.
      * done.
      * intros mt' id' o'. rewrite (lookup2_insert _ _ _ _ _ _ _ Hinner).
        case_decide as Heq; [|auto]. destruct Heq as [<- <-]. congruence.
      * exists ro'. split_and!; try done. intros mt' id' o'.
        rewrite Hrel, (lookup2_insert _ _ _ _ _ _ _ Hinner). split.
        -- intros [Hl|(t' & Hin & Hcar)].
           ++ case_decide as Heq; [|by left]. destruct Heq as [<- <-].
              right. exists t. split; [by left|]. injection Hl as <-. done.
           ++ right. exists t'. split; [by right|done].
        -- intros [Hl|(t' & Hin & Hcar)].
           ++ left. case_decide as Heq; [|done]. destruct Heq as [<- <-].
              apply Hcons in Hl. congruence.
           ++ apply elem_of_cons in Hin as [->|Hin].
              ** left. destruct Hcar as (_ & Hty' & Hid' & Hm').
                 assert (mt = mt' /\ id = id' /\ o = o') as (<- & <- & <-)
                   by (split_and!; congruence).
                 rewrite decide_True; done.
              ** right. by exists t'.
    + destruct (IH ro) as (ro' & Hrec & Hkeys' & Hrel); try done.
      exists ro'. split_and!; try done. intros mt id o. rewrite Hrel. split.
      * intros [?|(t' & Hin & Hcar)]; [by left|right].
        exists t'. split; [by right|done].
      * intros [?|(t' & Hin & Hcar)]; [by left|].
        apply elem_of_cons in Hin as [->|Hin].
        -- by destruct Hcar as (? & _).
        -- right. by exists t'.
Qed.

Lemma invariant_consistent self mt id o :
  tokenize_invariant self ->
  lookup2 (related_objects self) mt id = Some o ->
  objs_of self mt !! id = Some o.
Proof.
  intros [_ Htoks Hrel] Hl. apply Hrel in Hl as (t & Hin & Hcar).
  rewrite Forall_forall in Htoks.
  destruct (Htoks t Hin) as (mt' & id' & o' & _ & Ho & Hcar'); [by destruct Hcar|].
  by destruct (carries_inj _ _ _ _ _ _ _ Hcar Hcar') as (-> & -> & ->).
Qed.

Lemma tokenize_invariant_extend self toks ro' :
  tokenize_invariant self ->
  Forall (resolved self) toks ->
  (forall mt, mt ∈ term_models self -> is_Some (ro' !! mt)) ->
  (forall mt id o,
     lookup2 ro' mt id = Some o <->
     lookup2 (related_objects self) mt id = Some o \/
     exists t, t ∈ toks /\ carries t mt id o) ->
  tokenize_invariant
    (set_related_objects ro'
       (set_obj_tables_tokens (_obj_tables_tokens self ++ toks) self)).
Proof.
  intros [Hkeys Htoks Hrel] Hnew Hkeys' Hrel'. split; simpl.
  - done.
  - apply Forall_app. split.
    + eapply Forall_impl; [exact Htoks|]. intros t Ht. exact Ht.
    + eapply Forall_impl; [exact Hnew|]. intros t Ht. exact Ht.
  - intros mt id o. rewrite Hrel', Hrel. setoid_rewrite elem_of_app.
    naive_solver.
Qed.

Lemma tokenize_invariant_set_errors errs self :
  tokenize_invariant self -> tokenize_invariant (set_errors errs self).
Proof.
  intros [Hkeys Htoks Hrel]. split; simpl; done.
Qed.

Lemma token_code_of_not_obj_id tok : token_code_of tok <> obj_id.
Proof. unfold token_code_of. repeat case_bool_decide; done. Qed.

Lemma elem_of_matches (results : list lex_result) m :
  m ∈ omap (fun r => match r with Matched m => Some m | _ => None end) results ->
  Matched m ∈ results.
Proof.
  rewrite list_elem_of_omap. intros (r & Hin & Hr).
  destruct r; simplify_eq. done.
Qed.

Lemma tokenize_step_invariant py cfm idx self tok :
  tokenize_invariant self ->
  match tokenize_step py cfm idx self tok with
  | Continue idx' self' => idx < idx' /\ tokenize_invariant self'
  | Break self' => tokenize_invariant self' /\ errors self' <> []
  | Raised self' e => exists msg, e = ParsedExpressionError msg
  end.
Proof.
  intros Hinv. unfold tokenize_step.
  destruct (negb (bool_decide (tok_type tok = NAME))).
  { split; [lia|].
    pose proof (tokenize_invariant_extend self
                  [mk_token (token_code_of tok) (tok_string tok)]
                  (related_objects self) Hinv) as H.
    destruct Hinv as [Hkeys Htoks Hrel].
    split; simpl.
    - done.
    - apply Forall_app. split; [done|]. repeat constructor.
      apply resolved_mk_token, token_code_of_not_obj_id.
    - intros mt id o. rewrite Hrel. setoid_rewrite elem_of_app.
      setoid_rewrite list_elem_of_singleton. split; [naive_solver|].
      intros (t & [Hin| ->] & Hcar); [by exists t|].
      destruct Hcar as [Hc _]. by apply token_code_of_not_obj_id in Hc. }
  set (results := lex_results py self idx cfm).
  remember (omap (fun r => match r with LexError e => Some e | _ => None end)
                 results) as tmp_errors eqn:Herrs.
  remember (omap (fun r => match r with Matched m => Some m | _ => None end)
                 results) as matches eqn:Hmatches.
  destruct matches as [|m ms].
  { destruct tmp_errors as [|e es].
    - eexists. reflexivity.
    - split; [by apply tokenize_invariant_set_errors|done]. }
  pose proof (longest_lex_matches_nonempty (m :: ms)) as Hne.
  destruct (longest_lex_matches (m :: ms)) as [|match_ [|? ?]] eqn:Hlong.
  - by destruct Hne.
  - assert (match_ ∈ longest_lex_matches (m :: ms)) as Hin
      by (rewrite Hlong; by left).
    apply longest_lex_matches_spec in Hin as [Hin _].
    rewrite Hmatches in Hin. apply elem_of_matches in Hin.
    apply lex_results_good in Hin as [Hnum Hres].
    destruct (record_related_objects_ok self (obj_tables_tokens match_)
                (related_objects self)) as (ro' & Hrec & Hkeys' & Hrel').
    + apply Hinv.
    + done.
    + intros mt id o. by apply invariant_consistent.
    + cbn [related_objects set_obj_tables_tokens set_tokenization].
      rewrite Hrec. split; [lia|]. by apply tokenize_invariant_extend.
  - eexists. reflexivity.
Qed.

(** ** The loop of [tokenize] *)

Lemma tokenize_step_py_tokens py cfm idx self tok :
  match tokenize_step py cfm idx self tok with
  | Continue _ self' | Break self' | Raised self' _ =>
      _py_tokens self' = _py_tokens self
  end.
Proof.
  pose proof (tokenize_step_inputs py cfm idx self tok) as H.
  destruct (tokenize_step py cfm idx self tok); unfold inputs in H; congruence.
Qed.

Lemma tokenize_loop_invariant py cfm fuel idx self :
  tokenize_invariant self ->
  length (_py_tokens self) <= fuel + idx ->
  match tokenize_loop py cfm fuel idx self with
  | (self', None) => tokenize_invariant self'
  | (self', Some e) => exists msg, e = ParsedExpressionError msg
  end.
Proof.
  revert idx self. induction fuel as [|fuel IH]; intros idx self Hinv Hlen; simpl.
  - destruct (_py_tokens self !! idx) as [tok|] eqn:Htok; [|done].
    apply lookup_lt_Some in Htok. lia.
  - destruct (_py_tokens self !! idx) as [tok|] eqn:Htok; [|done].
    pose proof (tokenize_step_invariant py cfm idx self tok Hinv) as Hstep.
    pose proof (tokenize_step_py_tokens py cfm idx self tok) as Hpy.
    destruct (tokenize_step py cfm idx self tok) as [idx' self'|self'|self' e].
    + destruct Hstep as [Hidx Hinv']. apply IH; [done|]. rewrite Hpy. lia.
    + apply Hstep.
    + done.
Qed.

Lemma reset_tokenization_invariant self :
  tokenize_invariant (reset_tokenization self).
Proof.
  split; simpl.
  - intros mt Hmt. rewrite foldl_insert_empty_lookup.
    rewrite decide_True by done. by eexists.
  - constructor.
  - intros mt id o. unfold lookup2. rewrite foldl_insert_empty_lookup. split.
    + case_decide; simpl; [by rewrite lookup_empty|by rewrite lookup_empty].
    + intros (t & ?%elem_of_nil & _). done.
Qed.

Lemma _compile_cases py self with_units :
  match _compile py self with_units with
  | Ok _ => True
  | Raise e =>
      (exists msg, e = ParsedExpressionError msg) \/ (exists msg, e = SyntaxError msg)
  end.
Proof.
  unfold _compile, get_str.
  destruct (_obj_tables_tokens self); simpl; [left; by eexists|].
  destruct (compile_error py _); [right; by eexists|done].
Qed.

(** What [tokenize] returns or raises, and the state it leaves on success *)
Lemma tokenize_cases py self cfm :
  let self' := (tokenize py self cfm).1 in
  let r := (tokenize py self cfm).2 in
  (r = Ok (Some (_obj_tables_tokens self'), Some (related_objects self'), None)
   /\ errors self' = [] /\ tokenize_invariant self')
  \/ (exists errs, r = Ok (None, None, Some errs) /\ errs <> [])
  \/ (exists msg, r = Raise (ParsedExpressionError msg))
  \/ (exists msg, r = Raise (SyntaxError msg)).
Proof.
  unfold tokenize.
  pose proof (reset_tokenization_invariant self) as Hinv.
  set (self0 := reset_tokenization self) in *.
  case_bool_decide as Hexpr.
  { right; left. simpl. eexists. split; [done|]. by destruct (errors self0). }
  destruct (foldl _ [] (_py_tokens self0)) as [|bad bads] eqn:Hbad.
  2:{ right; left. simpl. eexists. split; [done|]. by destruct (errors self0). }
  pose proof (tokenize_loop_invariant py cfm (length (_py_tokens self0)) 0 self0 Hinv)
    as Hloop.
  destruct (tokenize_loop py cfm _ 0 self0) as [self1 [e|]].
  { destruct Hloop as [msg ->]; [lia|]. right; right; left. by eexists. }
  specialize (Hloop ltac:(lia)).
  set (self2 := set_errors (errors self1 ++ ambiguity_errors self1) self1).
  assert (tokenize_invariant self2) as Hinv2
    by (by apply tokenize_invariant_set_errors).
  destruct (errors self2) as [|err errs] eqn:Herrs.
  2:{ right; left. simpl. by eexists. }
  pose proof (_compile_cases py self2 false) as Hc.
  destruct (_compile py self2 false) as [[ce ns]|e].
  2:{ destruct Hc as [[msg ->]|[msg ->]].
      - right; right; left. by eexists.
      - right; left. simpl. by eexists. }
  pose proof (_compile_cases py (set_compiled (Some ce) ns self2) true) as Hc'.
  destruct (_compile py (set_compiled (Some ce) ns self2) true) as [[ceu nsu]|e].
  2:{ destruct Hc' as [[msg ->]|[msg ->]].
      - right; right; left. by eexists.
      - right; right; right. by eexists. }
  left. simpl. split_and!; try done.
  destruct Hinv2 as [Hk Ht Hr]. split; done.
Qed.


(** C4. After a successful call of [tokenize] (no errors returned), the
    related objects are exactly the (type, id, instance) entries that the
    [obj_id] tokens of the token list carry. *)
Theorem tokenize_related_objects py self case_fold_match :
  succeeded (tokenize py self case_fold_match).2 = true ->
  let self' := (tokenize py self case_fold_match).1 in
  (tokenize py self case_fold_match).2
  = Ok (Some (_obj_tables_tokens self'), Some (related_objects self'), None)
  /\ forall mt id o,
       lookup2 (related_objects self') mt id = Some o <->
       exists t, t ∈ _obj_tables_tokens self' /\ carries t mt id o.
Proof.
  intros Hs self'.
  destruct (tokenize_cases py self case_fold_match)
    as [(Hr & He & Hinv)|[(errs & Hr & _)|[[msg Hr]|[msg Hr]]]];
    try (rewrite Hr in Hs; discriminate).
  split; [done|]. apply Hinv.
Qed.

(** ** Ambiguous identifiers *)

Lemma _match_tokens_text self pat idx s :
  _match_tokens self pat idx = Some s ->
  idx + length pat <= length (_py_tokens self) /\
  s = String.concat ""
        (map strip_digit_prefix (take (length pat) (drop idx (_py_tokens self)))).
Proof.
  unfold _match_tokens. case_bool_decide; [done|].
  case_bool_decide as Hlen; [done|].
  destruct (forallb _ _); [|done]. intros [= <-]. split; [lia|done].
Qed.

Lemma strip_digit_prefix_name t s : name_token t s -> strip_digit_prefix t = s.
Proof.
  intros (Ht & _ & Hs & Hd). unfold strip_digit_prefix.
  rewrite Hs, Hd, andb_false_r. done.
Qed.

Lemma strip_digit_prefix_dot t : dot_token t -> strip_digit_prefix t = ".".
Proof.
  intros (Ht & _ & Hs). unfold strip_digit_prefix.
  rewrite Ht, Hs. by rewrite bool_decide_eq_false_2.
Qed.

Lemma longest_lex_matches_one m : longest_lex_matches [m] = [m].
Proof.
  unfold longest_lex_matches. simpl. by rewrite bool_decide_eq_true_2.
Qed.

Lemma longest_lex_matches_two m d :
  num_py_tokens m < num_py_tokens d -> longest_lex_matches [m; d] = [d].
Proof.
  intros Hlt. unfold longest_lex_matches, sorted. simpl. unfold num_le.
  rewrite (proj2 (Nat.leb_le _ _)) by lia. simpl.
  rewrite bool_decide_eq_true_2 by done. by rewrite bool_decide_eq_false_2 by lia.
Qed.

Lemma tokenize_loop_end py cfm fuel idx self :
  length (_py_tokens self) <= idx ->
  tokenize_loop py cfm fuel idx self = (self, None).
Proof.
  intros Hlen. destruct fuel; simpl; by rewrite lookup_ge_None_2.
Qed.

Lemma filter_two_length {A} (P : A -> Prop) `{forall x, Decision (P x)} l a b :
  a ∈ l -> b ∈ l -> a <> b -> P a -> P b -> 1 < length (filter P l).
Proof.
  intros Ha Hb Hab HPa HPb.
  assert ([a; b] ⊆+ filter P l) as Hsub.
  { apply NoDup_submseteq.
    - apply NoDup_cons. split; [by intros ->%list_elem_of_singleton|].
      apply NoDup_singleton.
    - intros x [->| ->%list_elem_of_singleton]%elem_of_cons;
        by apply list_elem_of_filter. }
  apply submseteq_length in Hsub. simpl in Hsub. lia.
Qed.

Section Qualified.
Context (py : Python) (self : ParsedExpression).
Context (A : ModelType) (id : string) (a : Instance) (t0 t1 t2 : TokenInfo).
Context (Hpy : _py_tokens self = [t0; t1; t2]).
Context (Ht0 : name_token t0 (__name__ A)) (Ht1 : dot_token t1)
        (Ht2 : name_token t2 id).
Context (Hadj01 : adjacent t0 t1) (Hadj12 : adjacent t1 t2).
Context (Hmt : _get_model_type self (__name__ A) = Some A).
Context (Hobj : objs_of self A !! id = Some a).
Context (Hnone : Forall (fun mt => objs_of self mt !! (__name__ A +:+ "." +:+ id) = None)
                        (term_models self)).

Lemma qualified_match_tokens :
  _match_tokens self MODEL_TYPE_DISAMBIG_PATTERN 0 = Some (__name__ A +:+ "." +:+ id).
Proof.
  unfold _match_tokens, MODEL_TYPE_DISAMBIG_PATTERN. rewrite Hpy.
  rewrite bool_decide_eq_false_2 by done.
  rewrite bool_decide_eq_false_2 by (simpl; lia).
  destruct Ht0 as (_ & He0 & _). destruct Ht1 as (_ & He1 & _).
  destruct Ht2 as (_ & He2 & _).
  simpl. rewrite He0, He1, He2, Hadj01, Hadj12.
  rewrite !bool_decide_eq_true_2 by done. simpl.
  rewrite (strip_digit_prefix_name _ _ Ht0), (strip_digit_prefix_dot _ Ht1),
    (strip_digit_prefix_name _ _ Ht2).
  done.
Qed.

Lemma qualified_text_nonempty : __name__ A +:+ "." +:+ id <> "".
Proof. by destruct (__name__ A). Qed.

Lemma qualified_disambiguated_id :
  _get_disambiguated_id py self 0 false
  = Matched {| obj_tables_tokens :=
                 [mk_obj_token (__name__ A +:+ "." +:+ id) A id a];
               num_py_tokens := 3 |}.
Proof.
  unfold _get_disambiguated_id. rewrite qualified_match_tokens.
  unfold truthy. rewrite bool_decide_eq_false_2 by apply qualified_text_nonempty.
  rewrite Hpy. simpl.
  destruct Ht0 as (_ & _ & Hs0 & _). destruct Ht2 as (_ & _ & Hs2 & _).
  rewrite Hs0, Hs2, Hmt, Hobj. done.
Qed.

Lemma qualified_func_call_id : _get_func_call_id self 0 = NoMatch.
Proof.
  unfold _get_func_call_id, _match_tokens, FUNC_PATTERN. rewrite Hpy.
  rewrite bool_decide_eq_false_2 by done.
  rewrite bool_decide_eq_false_2 by (simpl; lia).
  destruct Ht0 as (_ & He0 & _). destruct Ht1 as (_ & He1 & _).
  simpl. rewrite He0, He1.
  rewrite (bool_decide_eq_false_2 (DOT = LPAR)) by done.
  by rewrite andb_false_r.
Qed.

Lemma qualified_related_obj_id m :
  _get_related_obj_id py self 0 false = Matched m -> num_py_tokens m < 3.
Proof.
  intros H. apply _get_related_obj_id_Matched in H
    as (mt & ms & o & (Hin & Hm & _) & Ho & _ & ->).
  apply _match_tokens_text in Hm as [Hlen ->]. rewrite Hpy in *. simpl in Hlen.
  destruct (decide (length (expression_term_token_pattern mt) = 3)) as [Heq|]; [|lia].
  exfalso. rewrite Heq in Ho. simpl in Ho.
  rewrite (strip_digit_prefix_name _ _ Ht0), (strip_digit_prefix_dot _ Ht1),
    (strip_digit_prefix_name _ _ Ht2) in Ho.
  rewrite Forall_forall in Hnone. pose proof (Hnone mt Hin) as Hn.
  clear -Ho Hn. unfold lookup_key in Ho.
  assert (Some o = None) as Habs by (rewrite <- Ho; exact Hn). done.
Qed.

Lemma qualified_step inner :
  related_objects self !! A = Some inner ->
  tokenize_step py false 0 self t0
  = Continue 3
      (set_related_objects (<[A := <[id := a]> inner]> (related_objects self))
         (set_obj_tables_tokens
            (_obj_tables_tokens self
             ++ [mk_obj_token (__name__ A +:+ "." +:+ id) A id a]) self)).
Proof.
  intros Hinner. unfold tokenize_step, lex_results.
  destruct Ht0 as (Hty & _). rewrite Hty.
  rewrite bool_decide_eq_true_2 by done. cbn [negb].
  rewrite qualified_disambiguated_id, qualified_func_call_id.
  set (d := {| obj_tables_tokens := _; num_py_tokens := 3 |}).
  assert (record_related_objects (obj_tables_tokens d)
            (related_objects
               (set_obj_tables_tokens
                  (_obj_tables_tokens self ++ obj_tables_tokens d) self))
          = Ok (<[A := <[id := a]> inner]> (related_objects self))) as Hrec.
  { unfold record_related_objects. cbn. by rewrite Hinner. }
  destruct (_get_related_obj_id py self 0 false) as [|e|m] eqn:HR;
    cbv beta iota delta [omap list_omap].
  - rewrite longest_lex_matches_one, Hrec. done.
  - rewrite longest_lex_matches_one, Hrec. done.
  - rewrite longest_lex_matches_two, Hrec; [done|].
    by apply qualified_related_obj_id.
Qed.

End Qualified.

Lemma tokenize_loop_unfold py cfm fuel idx self tok :
  _py_tokens self !! idx = Some tok ->
  tokenize_loop py cfm (S fuel) idx self
  = match tokenize_step py cfm idx self tok with
    | Continue idx self => tokenize_loop py cfm fuel idx self
    | Break self => (self, None)
    | Raised self e => (self, Some e)
    end.
Proof. intros Htok. simpl. by rewrite Htok. Qed.

Lemma tokenize_loop_continue py cfm fuel idx self tok idx' self' :
  _py_tokens self !! idx = Some tok ->
  tokenize_step py cfm idx self tok = Continue idx' self' ->
  tokenize_loop py cfm (S fuel) idx self = tokenize_loop py cfm fuel idx' self'.
Proof. intros Htok Hstep. simpl. by rewrite Htok, Hstep. Qed.

Lemma no_bad_tokens (toks : list TokenInfo) :
  Forall (fun tok => exact_type tok ∈ LEGAL_TOKENS) toks ->
  foldl (fun acc tok =>
           if bool_decide (exact_type tok ∈ LEGAL_TOKENS) then acc
           else set_add (bad_token_name tok) acc) [] toks = [].
Proof.
  induction 1 as [|tok toks Htok _ IH]; [done|].
  simpl. by rewrite bool_decide_eq_true_2.
Qed.

Lemma NAME_legal : NAME ∈ LEGAL_TOKENS.
Proof. unfold LEGAL_TOKENS. set_solver. Qed.

Lemma DOT_legal : DOT ∈ LEGAL_TOKENS.
Proof. unfold LEGAL_TOKENS. set_solver. Qed.

Lemma _compile_reference py self with_units s A id a :
  _obj_tables_tokens self = [mk_obj_token s A id a] ->
  compile_error py (__name__ A +:+ "[" +:+ dquote +:+ primary_attribute a
                    +:+ dquote +:+ "]") = None ->
  exists ns,
    _compile py self with_units
    = Ok (__name__ A +:+ "[" +:+ dquote +:+ primary_attribute a
          +:+ dquote +:+ "]", ns).
Proof.
  intros Htoks Hcomp. unfold _compile, get_str. rewrite Htoks.
  simpl.
  change (_obj_tables_token_to_str (mk_obj_token s A id a))
    with (__name__ A +:+ "[" +:+ dquote +:+ primary_attribute a +:+ dquote +:+ "]").
  rewrite Hcomp. by eexists.
Qed.

Lemma ambiguity_errors_reference self s A id a :
  _obj_tables_tokens self = [mk_obj_token s A id a] ->
  Forall (fun mt => objs_of self mt !! s = None) (term_models self) ->
  s ∉ valid_functions self ->
  ambiguity_errors self = [].
Proof.
  intros Htoks Hnone Hfun. unfold ambiguity_errors. rewrite Htoks.
  cbn [flat_map code mk_obj_token]. rewrite bool_decide_eq_true_2 by done.
  cbn [orb]. unfold matching_items. cbn [token_string mk_obj_token].
  rewrite (bool_decide_eq_false_2 (s ∈ valid_functions self)) by done.
  assert (filter (fun mt => is_Some (objs_of self mt !! s)) (term_models self) = [])
    as ->.
  { induction Hnone as [|mt l Hmt _ IH]; [done|].
    rewrite filter_cons_False; [done|]. rewrite Hmt. by intros [? ?]. }
  by rewrite bool_decide_eq_false_2 by (simpl; lia).
Qed.

Lemma qualified_tokenize py q A id a t0 t1 t2 :
  expression q <> "" ->
  _py_tokens q = [t0; t1; t2] ->
  name_token t0 (__name__ A) -> dot_token t1 -> name_token t2 id ->
  adjacent t0 t1 -> adjacent t1 t2 ->
  _get_model_type q (__name__ A) = Some A ->
  objs_of q A !! id = Some a ->
  Forall (fun mt => objs_of q mt !! (__name__ A +:+ "." +:+ id) = None)
         (term_models q) ->
  __name__ A +:+ "." +:+ id ∉ valid_functions q ->
  compile_error py (__name__ A +:+ "[" +:+ dquote +:+ primary_attribute a
                    +:+ dquote +:+ "]") = None ->
  let r := tokenize py q false in
  r.2 = Ok (Some [mk_obj_token (__name__ A +:+ "." +:+ id) A id a],
            Some (related_objects r.1), None)
  /\ lookup2 (related_objects r.1) A id = Some a.
Proof.
  intros Hexpr Hpy Ht0 Ht1 Ht2 H01 H12 Hmt Hobj Hnone Hfun Hcomp.
  pose proof (_get_model_type_elem _ _ _ Hmt) as [HA _].
  assert (related_objects (reset_tokenization q) !! A = Some ∅) as Hinner.
  { simpl. rewrite foldl_insert_empty_lookup. by rewrite decide_True. }
  pose proof (qualified_step py (reset_tokenization q) A id a t0 t1 t2
                Hpy Ht0 Ht1 Ht2 H01 H12 Hmt Hobj Hnone ∅ Hinner) as Hstep.
  unfold tokenize.
  set (self0 := reset_tokenization q) in *.
  rewrite bool_decide_eq_false_2 by done.
  rewrite no_bad_tokens.
  2:{ change (_py_tokens self0) with (_py_tokens q). rewrite Hpy.
      destruct Ht0 as (_ & He0 & _), Ht1 as (_ & He1 & _), Ht2 as (_ & He2 & _).
      rewrite !Forall_cons, He0, He1, He2.
      split_and!; auto using NAME_legal, DOT_legal. }
  change (length (_py_tokens self0)) with (length (_py_tokens q)).
  rewrite Hpy. cbn [length].
  erewrite (tokenize_loop_continue py false 2 0 self0 t0); [| |exact Hstep].
  2:{ change (_py_tokens self0) with (_py_tokens q). by rewrite Hpy. }
  rewrite tokenize_loop_end.
  2:{ change (length (_py_tokens q) <= 3). rewrite Hpy. simpl. lia. }
  set (self1 := set_related_objects _ _).
  assert (_obj_tables_tokens self1
          = [mk_obj_token (__name__ A +:+ "." +:+ id) A id a]) as Htoks by done.
  rewrite (ambiguity_errors_reference self1 _ A id a Htoks Hnone Hfun).
  set (self2 := set_errors _ self1).
  change (errors self2) with (@nil string).
  destruct (_compile_reference py self2 false _ A id a Htoks Hcomp) as [ns ->].
  set (self3 := set_compiled _ _ self2).
  destruct (_compile_reference py self3 true _ A id a Htoks Hcomp) as [nsu ->].
  cbn [fst snd]. split; [done|].
  cbn [related_objects set_compiled_with_units set_tokenization].
  change (related_objects self3) with (<[A := <[id := a]> ∅]> (related_objects self0)).
  rewrite (lookup2_insert _ _ _ _ _ _ _ Hinner). by rewrite decide_True.
Qed.

Section Bare.
Context (py : Python) (self : ParsedExpression) (id : string) (t : TokenInfo).
Context (Hpy : _py_tokens self = [t]) (Ht : name_token t id).

Lemma bare_disambiguated_id : _get_disambiguated_id py self 0 false = NoMatch.
Proof.
  unfold _get_disambiguated_id, _match_tokens, MODEL_TYPE_DISAMBIG_PATTERN.
  rewrite Hpy. rewrite bool_decide_eq_false_2 by done.
  by rewrite bool_decide_eq_true_2 by (simpl; lia).
Qed.

Lemma bare_func_call_id : _get_func_call_id self 0 = NoMatch.
Proof.
  unfold _get_func_call_id, _match_tokens, FUNC_PATTERN.
  rewrite Hpy. rewrite bool_decide_eq_false_2 by done.
  by rewrite bool_decide_eq_true_2 by (simpl; lia).
Qed.

Lemma bare_related_obj_id m :
  _get_related_obj_id py self 0 false = Matched m ->
  exists mt o,
    mt ∈ term_models self /\
    m = {| obj_tables_tokens := [mk_obj_token id mt id o]; num_py_tokens := 1 |}.
Proof.
  intros H. apply _get_related_obj_id_Matched in H
    as (mt & ms & o & (Hin & Hm & _) & Ho & Htoks & Hnum).
  pose proof (_match_tokens_nonempty _ _ _ _ Hm) as Hge.
  apply _match_tokens_text in Hm as [Hlen ->]. rewrite Hpy in *. simpl in Hlen.
  assert (length (expression_term_token_pattern mt) = 1) as Heq by lia.
  rewrite Heq in *. simpl in Htoks. unfold lookup_key in Htoks. simpl in Htoks.
  rewrite (strip_digit_prefix_name _ _ Ht) in Htoks.
  exists mt, o. split; [done|]. destruct m; simpl in *. congruence.
Qed.

Lemma bare_step :
  (forall mt, mt ∈ term_models self -> is_Some (related_objects self !! mt)) ->
  let step := tokenize_step py false 0 self t in
  step = Raised self (ParsedExpressionError
                        ("No matches or errors found in '"
                         +:+ expression self +:+ "'"))
  \/ (exists e es, step = Break (set_errors (e :: es) self))
  \/ (exists mt o ro,
        mt ∈ term_models self /\
        step = Continue 1
                 (set_related_objects ro
                    (set_obj_tables_tokens
                       (_obj_tables_tokens self ++ [mk_obj_token id mt id o])
                       self))).
Proof.
  intros Hkeys. unfold tokenize_step, lex_results.
  destruct Ht as (Hty & _). rewrite Hty.
  rewrite bool_decide_eq_true_2 by done. cbn [negb].
  rewrite bare_disambiguated_id, bare_func_call_id.
  destruct (_get_related_obj_id py self 0 false) as [|e|m] eqn:HR;
    cbv beta iota delta [omap list_omap].
  - by left.
  - right; left. by eexists _, _.
  - right; right. apply bare_related_obj_id in HR as (mt & o & Hin & ->).
    rewrite longest_lex_matches_one. cbn [obj_tables_tokens num_py_tokens].
    destruct (Hkeys mt Hin) as [inner Hinner].
    exists mt, o, (<[mt := <[id := o]> inner]> (related_objects self)).
    split; [done|].
    unfold record_related_objects. cbn. by rewrite Hinner.
Qed.

End Bare.

Lemma ambiguity_errors_bare self s mt id o A B a b :
  _obj_tables_tokens self = [mk_obj_token s mt id o] ->
  A ∈ term_models self -> B ∈ term_models self -> A <> B ->
  objs_of self A !! s = Some a -> objs_of self B !! s = Some b ->
  ambiguity_errors self <> [].
Proof.
  intros Htoks HA HB Hne Ha Hb. unfold ambiguity_errors. rewrite Htoks.
  cbn [flat_map code mk_obj_token]. rewrite bool_decide_eq_true_2 by done.
  cbn [orb]. rewrite bool_decide_eq_true_2; [done|].
  unfold matching_items. rewrite length_app, length_map.
  cbn [token_string mk_obj_token].
  pose proof (filter_two_length
                (fun mt => is_Some (objs_of self mt !! s)) (term_models self)
                A B HA HB Hne) as Hlen.
  cbv beta in Hlen. rewrite Ha, Hb in Hlen. specialize (Hlen ltac:(by eexists) ltac:(by eexists)).
  lia.
Qed.

Lemma bare_tokenize py q A B id a b t :
  expression q <> "" ->
  _py_tokens q = [t] -> name_token t id ->
  A ∈ term_models q -> B ∈ term_models q -> A <> B ->
  objs_of q A !! id = Some a -> objs_of q B !! id = Some b ->
  (exists errs, (tokenize py q false).2 = Ok (None, None, Some errs) /\ errs <> [])
  \/ (tokenize py q false).2
     = Raise (ParsedExpressionError
                ("No matches or errors found in '" +:+ expression q +:+ "'")).
Proof.
  intros Hexpr Hpy Ht HA HB Hne Ha Hb.
  pose proof (bare_step py (reset_tokenization q) id t Hpy Ht
                (inv_keys _ (reset_tokenization_invariant q))) as Hstep.
  unfold tokenize.
  set (self0 := reset_tokenization q) in *.
  rewrite bool_decide_eq_false_2 by done.
  rewrite no_bad_tokens.
  2:{ change (_py_tokens self0) with (_py_tokens q). rewrite Hpy.
      destruct Ht as (_ & He & _). rewrite !Forall_cons, He.
      split_and!; auto using NAME_legal. }
  change (length (_py_tokens self0)) with (length (_py_tokens q)).
  rewrite Hpy. cbn [length].
  assert (_py_tokens self0 !! 0 = Some t) as Hlook.
  { change (_py_tokens self0) with (_py_tokens q). by rewrite Hpy. }
  destruct Hstep as [Hstep|[(e & es & Hstep)|(mt & o & ro & Hmt & Hstep)]].
  - right. rewrite (tokenize_loop_unfold _ _ _ _ _ _ Hlook), Hstep. done.
  - left. rewrite (tokenize_loop_unfold _ _ _ _ _ _ Hlook), Hstep. cbn.
    by eexists.
  - left. erewrite tokenize_loop_continue; [|exact Hlook|exact Hstep].
    rewrite tokenize_loop_end.
    2:{ change (length (_py_tokens q) <= 1). rewrite Hpy. simpl. lia. }
    set (self1 := set_related_objects _ _).
    pose proof (ambiguity_errors_bare self1 id mt id o A B a b eq_refl
                  HA HB Hne Ha Hb) as Hamb.
    destruct (ambiguity_errors self1) as [|err errs] eqn:Hae; [done|].
    cbn. by eexists.
Qed.


(** * Evaluation *)


(** * [recreate_whitespace] *)

Lemma startswith_str_drop p s :
  startswith p s = true -> s = p +:+ str_drop (String.length p) s.
Proof.
  revert s. induction p as [|a p IH]; intros s; simpl; [done|].
  destruct s as [|b s]; [done|].
  destruct (Ascii.eqb a b) eqn:Hab; [|done].
  apply Ascii.eqb_eq in Hab as ->. intros H.
  change (String b s = String b (p +:+ str_drop (String.length p) s)).
  f_equal. by apply IH.
Qed.

Lemma strip_digit_prefix_spec tok :
  (tok_type tok = NAME /\ startswith "__digit__" (tok_string tok) = true ->
   tok_string tok = "__digit__" +:+ strip_digit_prefix tok)
  /\ (~ (tok_type tok = NAME /\ startswith "__digit__" (tok_string tok) = true) ->
      strip_digit_prefix tok = tok_string tok).
Proof.
  unfold strip_digit_prefix. split.
  - intros [Hty Hs]. rewrite Hs, bool_decide_eq_true_2 by done. cbn [andb].
    by apply (startswith_str_drop "__digit__").
  - intros Hn. case_bool_decide as Hty; cbn [andb]; [|done].
    destruct (startswith _ _) eqn:Hs; [|done]. by destruct Hn.
Qed.

Lemma _get_trailing_whitespace_spec self i :
  (forall this next,
     _py_tokens self !! i = Some this -> _py_tokens self !! (i + 1) = Some next ->
     _get_trailing_whitespace self i
     = (Z.of_nat (tok_start next).2 - Z.of_nat (tok_end this).2)%Z)
  /\ (length (_py_tokens self) <= i + 1 -> _get_trailing_whitespace self i = 0%Z).
Proof.
  unfold _get_trailing_whitespace. split.
  - intros this next Hthis Hnext. apply lookup_lt_Some in Hnext as Hlt.
    rewrite bool_decide_eq_false_2 by lia. by rewrite Hthis, Hnext.
  - intros Hlen. by rewrite bool_decide_eq_true_2 by lia.
Qed.


(** * Further properties of the validator, the tokenizer and the evaluation *)

(** ** The value of a tree under the rewrite passes *)

Lemma ast_value_BinOp env l o r :
  ast_value env (BinOp l o r)
  = match o with
    | Add => l' ← ast_value env l; r' ← ast_value env r; Some (l' + r')%Z
    | Sub => l' ← ast_value env l; r' ← ast_value env r; Some (l' - r')%Z
    | Mult => l' ← ast_value env l; r' ← ast_value env r; Some (l' * r')%Z
    | _ => None
    end.
Proof. by destruct o. Qed.

Lemma ast_value_BinOp_ext env l o r l' r' :
  ast_value env l' = ast_value env l -> ast_value env r' = ast_value env r ->
  ast_value env (BinOp l' o r') = ast_value env (BinOp l o r).
Proof. intros Hl Hr. rewrite !ast_value_BinOp, Hl, Hr. done. Qed.

Lemma RemoveUnaryOps_value env t :
  ast_value env (RemoveUnaryOps t) = ast_value env t.
Proof.
  induction t as [n|id|o e IH|l o r IHl IHr|cls cs _] using ast_ind; try done.
  - destruct o; cbn [RemoveUnaryOps ast_value]; rewrite IH.
    + done.
    + destruct (ast_value env e) as [z|]; cbn -[Z.mul Z.add Z.sub Z.opp]; [|done]. f_equal; lia.
  - cbn [RemoveUnaryOps]. by apply ast_value_BinOp_ext.
Qed.

Lemma pynum_mul_value env a b :
  ast_value env (Num (pynum_mul a b))
  = a' ← ast_value env (Num a); b' ← ast_value env (Num b); Some (a' * b')%Z.
Proof. by destruct a, b. Qed.

Lemma MultiplyNums_node_value env e :
  ast_value env (MultiplyNums_node e) = ast_value env e.
Proof.
  destruct e as [| | |l o r|]; try done.
  destruct l as [a| | | |]; try done. destruct o; try done.
  destruct r as [b| | |rl ro rr|]; try done.
  - cbn [MultiplyNums_node]. rewrite pynum_mul_value. done.
  - destruct rl as [b| | | |]; try done. destruct ro; try done.
    cbn [MultiplyNums_node]. rewrite !ast_value_BinOp, pynum_mul_value.
    destruct a as [x|], b as [y|], (ast_value env rr) as [z|]; cbn -[Z.mul Z.add Z.sub Z.opp]; try done.
    all: f_equal; lia.
Qed.

Lemma MultiplyNums_value env t :
  ast_value env (MultiplyNums t) = ast_value env t.
Proof.
  induction t as [n|id|o e IH|l o r IHl IHr|cls cs _] using ast_ind; try done.
  - destruct o; cbn [MultiplyNums ast_value]; by rewrite IH.
  - cbn [MultiplyNums]. rewrite MultiplyNums_node_value.
    by apply ast_value_BinOp_ext.
Qed.

Lemma distribute_left_value env a b c o :
  is_add_sub o = true ->
  ast_value env (BinOp (BinOp a Mult c) o (BinOp b Mult c))
  = ast_value env (BinOp (BinOp a o b) Mult c).
Proof.
  intros Ho. destruct o; try done; rewrite !ast_value_BinOp;
    destruct (ast_value env a), (ast_value env b), (ast_value env c); cbn -[Z.mul Z.add Z.sub Z.opp];
    try done; f_equal; lia.
Qed.

Lemma distribute_right_value env a b c o :
  is_add_sub o = true ->
  ast_value env (BinOp (BinOp a Mult b) o (BinOp a Mult c))
  = ast_value env (BinOp a Mult (BinOp b o c)).
Proof.
  intros Ho. destruct o; try done; rewrite !ast_value_BinOp;
    destruct (ast_value env a), (ast_value env b), (ast_value env c); cbn -[Z.mul Z.add Z.sub Z.opp];
    try done; f_equal; lia.
Qed.

Lemma DistributeMult_node_value env e :
  ast_value env (DistributeMult_node e) = ast_value env e.
Proof.
  destruct e as [| | |l o r|]; try done. destruct o; try done.
  cbn [DistributeMult_node].
  destruct l as [| | |ll lo lr|]; destruct r as [| | |rl ro rr|];
    cbn [is_simple_operand andb]; try done;
    repeat match goal with
           | |- context [is_add_sub ?o] => destruct (is_add_sub o) eqn:?
           end; try done;
    first [by apply distribute_left_value | by apply distribute_right_value].
Qed.

Lemma DistributeMult_value env t :
  ast_value env (DistributeMult t) = ast_value env t.
Proof.
  induction t as [n|id|o e IH|l o r IHl IHr|cls cs _] using ast_ind; try done.
  - destruct o; cbn [DistributeMult ast_value]; by rewrite IH.
  - cbn [DistributeMult]. rewrite DistributeMult_node_value.
    by apply ast_value_BinOp_ext.
Qed.

Lemma DistributeSub_node_value env e :
  ast_value env (DistributeSub_node e) = ast_value env e.
Proof.
  destruct e as [| | |l o r|]; try done. destruct o; try done.
  cbn [DistributeSub_node].
  destruct r as [n|id| |rl ro rr|]; try done.
  - rewrite !ast_value_BinOp.
    destruct (ast_value env l), n; cbn -[Z.mul Z.add Z.sub Z.opp]; try done;
      f_equal; lia.
  - destruct ro; cbn [is_add_sub]; try done; rewrite !ast_value_BinOp;
      cbn [ast_value];
      destruct (ast_value env l), (ast_value env rl), (ast_value env rr);
      cbn -[Z.mul Z.add Z.sub Z.opp]; try done; f_equal; lia.
Qed.

Lemma DistributeSub_value env t :
  ast_value env (DistributeSub t) = ast_value env t.
Proof.
  induction t as [n|id|o e IH|l o r IHl IHr|cls cs _] using ast_ind; try done.
  - destruct o; cbn [DistributeSub ast_value]; by rewrite IH.
  - cbn [DistributeSub]. rewrite DistributeSub_node_value.
    by apply ast_value_BinOp_ext.
Qed.

Lemma dist_mult_loop_value env fuel t t' :
  dist_mult_loop fuel t = Some t' -> ast_value env t' = ast_value env t.
Proof.
  revert t. induction fuel as [|fuel IH]; intros t; [done|].
  cbn [dist_mult_loop]. destruct (ast_eq t (DistributeMult t)).
  - intros [= <-]. apply DistributeMult_value.
  - intros H%IH. by rewrite H, DistributeMult_value.
Qed.

Lemma DistributeMult_fixpoint_distributed t :
  plain t = true -> DistributeMult t = t -> distributed t = true.
Proof.
  induction t as [n|id|o e IH|l o r IHl IHr|cls cs _] using ast_ind; try done.
  intros (Ho & Hl & Hr)%plain_BinOp. cbn [DistributeMult]. intros Hfix.
  pose proof (DistributeMult_plain l Hl) as Hl'.
  pose proof (DistributeMult_plain r Hr) as Hr'.
  assert (DistributeMult l = l /\ DistributeMult r = r
          /\ (o = Mult -> is_sum l = false /\ is_sum r = false)) as (Hfl & Hfr & Hs).
  { destruct o; try (by destruct Ho as [?|[?|?]]).
    - injection Hfix as -> ->. done.
    - injection Hfix as -> ->. done.
    - revert Hfix. cbn [DistributeMult_node].
      destruct (DistributeMult l) as [| | |ll lo lr|] eqn:El;
        destruct (DistributeMult r) as [| | |rl ro rr|] eqn:Er; try done;
        cbn [is_simple_operand andb];
        repeat match goal with
               | |- context [is_add_sub ?o] => destruct o; cbn [is_add_sub]
               end; try done;
        intros [= <- <-]; rewrite ?El, ?Er; by repeat split. }
  simpl. rewrite (IHl Hl Hfl), (IHr Hr Hfr). simpl.
  destruct o; try done. destruct (Hs eq_refl) as [-> ->]. done.
Qed.

Lemma MultiplyNums_node_sub_free e :
  sub_free e = true -> sub_free (MultiplyNums_node e) = true.
Proof.
  destruct e as [| | |l o r|]; try done.
  destruct l as [a| | | |]; try done. destruct o; try done.
  destruct r as [b| | |rl ro rr|]; try done.
  destruct rl as [b| | | |]; try done. destruct ro; try done.
Qed.

Lemma MultiplyNums_sub_free t :
  sub_free t = true -> sub_free (MultiplyNums t) = true.
Proof.
  induction t as [n|id|o e IH|l o r IHl IHr|cls cs _] using ast_ind; try done.
  intros (Ho & Hl & Hr)%sub_free_BinOp. cbn [MultiplyNums].
  apply MultiplyNums_node_sub_free, sub_free_BinOp. auto.
Qed.

(** X1. [RemoveUnaryOps] ([_remove_unary_operators]) keeps the value of the
    expression, whatever integers its names stand for, and leaves no unary
    operator in a tree that passed the check of the node types. *)
Theorem remove_unary_operators_sound t :
  (forall env, ast_value env (_remove_unary_operators t) = ast_value env t)
  /\ (valid_tree t = true -> plain (_remove_unary_operators t) = true).
Proof.
  unfold _remove_unary_operators. split.
  - intros env. apply RemoveUnaryOps_value.
  - apply RemoveUnaryOps_plain.
Qed.

(** X2. [MultiplyNums] ([_multiply_numbers]) keeps the value of the
    expression; on a tree of sums, differences and products it leaves no
    product of two numbers to fold, so that a second traversal changes
    nothing. *)
Theorem multiply_numbers_sound t :
  (forall env, ast_value env (_multiply_numbers t) = ast_value env t)
  /\ (plain t = true ->
      nums_folded (_multiply_numbers t) = true
      /\ _multiply_numbers (_multiply_numbers t) = _multiply_numbers t).
Proof.
  unfold _multiply_numbers. split.
  - intros env. apply MultiplyNums_value.
  - intros Hp. split; [by apply MultiplyNums_folded|by apply MultiplyNums_idempotent].
Qed.

(** X3. One traversal of [DistributeMult] keeps the value of the expression:
    [(a +/- b) * c] becomes [a * c +/- b * c] and [a * (b +/- c)] becomes
    [a * b +/- a * c]. *)
Theorem distribute_mult_preserves_value env t :
  ast_value env (DistributeMult t) = ast_value env t.
Proof.
  induction t as [n|id|o e IH|l o r IHl IHr|cls cs _] using ast_ind; try done.
  - destruct o; cbn [DistributeMult ast_value]; by rewrite IH.
  - cbn [DistributeMult]. rewrite DistributeMult_node_value.
    by apply ast_value_BinOp_ext.
Qed.

(** X4. The [while True] loop of [_dist_mult] ends on every tree of sums,
    differences and products: it returns a tree of the same value in which
    no product has a sum or a difference as an operand. *)
Theorem dist_mult_distributes t :
  plain t = true ->
  exists t',
    _dist_mult t = Some t' /\ plain t' = true /\ distributed t' = true
    /\ forall env, ast_value env t' = ast_value env t.
Proof.
  intros Hp.
  destruct (dist_mult_loop_terminates (S (dist_measure t)) t Hp)
    as (t' & Hloop & Hfix & Hp'); [lia|].
  exists t'. split_and!; try done.
  - by apply DistributeMult_fixpoint_distributed.
  - intros env. by eapply dist_mult_loop_value.
Qed.

(** X5. [DistributeSub] ([_remove_subtraction]) keeps the value of the
    expression, and leaves no subtraction in a tree of sums, differences and
    products. *)
Theorem remove_subtraction_sound t :
  (forall env, ast_value env (_remove_subtraction t) = ast_value env t)
  /\ (plain t = true ->
      plain (_remove_subtraction t) = true /\ sub_free (_remove_subtraction t) = true).
Proof.
  unfold _remove_subtraction. split.
  - intros env. apply DistributeSub_value.
  - apply DistributeSub_plain.
Qed.

(** X6. The normalisation of [_validate] ends on every tree that passed the
    check of the node types, and the tree that the checks of the normal
    form and the scan of the coefficients read has the value of the parsed
    tree, no unary operator and no subtraction. *)
Theorem normalize_preserves_value t :
  (_validate_node_types t).1 = true ->
  exists t',
    normalize t = Some t' /\ plain t' = true /\ sub_free t' = true
    /\ forall env, ast_value env t' = ast_value env t.
Proof.
  intros Hvalid%valid_tree_of_node_types.
  pose proof (RemoveUnaryOps_plain t Hvalid) as H1.
  pose proof (MultiplyNums_plain _ H1) as H2.
  destruct (dist_mult_loop_terminates (S (dist_measure (MultiplyNums (RemoveUnaryOps t))))
              (MultiplyNums (RemoveUnaryOps t)) H2) as (t3 & Hloop & Hfix & H3); [lia|].
  pose proof (MultiplyNums_plain _ H3) as H4.
  destruct (DistributeSub_plain _ H4) as [H5 H5'].
  exists (MultiplyNums (DistributeSub (MultiplyNums t3))).
  unfold normalize, _dist_mult, _remove_unary_operators, _multiply_numbers,
    _remove_subtraction.
  rewrite Hloop. split_and!.
  - done.
  - by apply MultiplyNums_plain.
  - by apply MultiplyNums_sub_free.
  - intros env.
    rewrite MultiplyNums_value, DistributeSub_value, MultiplyNums_value.
    rewrite (dist_mult_loop_value env _ _ _ Hloop).
    by rewrite MultiplyNums_value, RemoveUnaryOps_value.
Qed.

(** ** [MoveCoeffsToLeft] *)

Lemma MoveCoeffsToLeft_node_value env e :
  ast_value env (MoveCoeffsToLeft_node e) = ast_value env e.
Proof.
  destruct e as [| | |l o r|]; try done. destruct o; try done.
  destruct r as [[z|]| | | |]; try done;
    destruct l as [| | |ll lo lr|]; try done; try destruct lo; try done;
    cbn -[Z.mul Z.add Z.sub Z.opp];
    repeat match goal with
           | |- context [ast_value env ?x] => destruct (ast_value env x)
           end; cbn -[Z.mul Z.add Z.sub Z.opp]; try done; f_equal; lia.
Qed.

Lemma MoveCoeffsToLeft_value env t :
  ast_value env (MoveCoeffsToLeft t) = ast_value env t.
Proof.
  induction t as [n|id|o e IH|l o r IHl IHr|cls cs _] using ast_ind; try done.
  - cbn [MoveCoeffsToLeft ast_value]. by rewrite IH.
  - cbn [MoveCoeffsToLeft]. rewrite MoveCoeffsToLeft_node_value.
    by apply ast_value_BinOp_ext.
Qed.

Lemma MoveCoeffsToLeft_node_coeffs_left l o r :
  coeffs_left l = true -> coeffs_left r = true ->
  coeffs_left (MoveCoeffsToLeft_node (BinOp l o r)) = true.
Proof.
  intros Hl Hr.
  destruct o; destruct r as [n| | | |]; destruct l as [| | |ll [] lr|];
    cbn [MoveCoeffsToLeft_node coeffs_left andb] in *;
    rewrite ?Hl, ?Hr; done.
Qed.

Lemma forallb_map_true {A} (f : A -> bool) (g : A -> A) l :
  Forall (fun x => f (g x) = true) l -> forallb f (map g l) = true.
Proof. induction 1 as [|x l Hx _ IH]; [done|]. simpl. by rewrite Hx. Qed.

Lemma MoveCoeffsToLeft_coeffs_left t : coeffs_left (MoveCoeffsToLeft t) = true.
Proof.
  induction t as [n|id|o e IH|l o r IHl IHr|cls cs IH] using ast_ind; try done.
  - cbn [MoveCoeffsToLeft]. by apply MoveCoeffsToLeft_node_coeffs_left.
  - cbn [MoveCoeffsToLeft coeffs_left]. by apply forallb_map_true.
Qed.

Lemma map_id_Forall {A} (g : A -> A) l : Forall (fun x => g x = x) l -> map g l = l.
Proof. induction 1 as [|x l Hx _ IH]; [done|]. simpl. by rewrite Hx, IH. Qed.

Lemma MoveCoeffsToLeft_id t : coeffs_left t = true -> MoveCoeffsToLeft t = t.
Proof.
  induction t as [n|id|o e IH|l o r IHl IHr|cls cs IH] using ast_ind; try done.
  - cbn [coeffs_left MoveCoeffsToLeft]. by intros ->%IH.
  - cbn [coeffs_left MoveCoeffsToLeft].
    intros [[Hl Hr]%andb_true_iff Hnode]%andb_true_iff.
    rewrite (IHl Hl), (IHr Hr). cbn [MoveCoeffsToLeft_node].
    destruct o; try done. destruct r; try done.
    destruct l as [| | |? [] ?|]; done.
  - cbn [coeffs_left MoveCoeffsToLeft]. intros Hall. f_equal.
    apply map_id_Forall. rewrite forallb_forall in Hall.
    rewrite Forall_forall in IH |- *. intros x Hx. apply IH; [done|].
    by apply Hall, list_elem_of_In.
Qed.

(** X7. [_move_coeffs_to_left] ends after at most two rounds on every tree:
    it returns what one pass of [MoveCoeffsToLeft] makes of the tree, which
    has the same value as the tree, whatever integers its names stand for,
    and no product with a number to the right of a name or of a product;
    another pass changes nothing. *)
Theorem move_coeffs_to_left_sound t :
  _move_coeffs_to_left t = Some (MoveCoeffsToLeft t)
  /\ (forall env, ast_value env (MoveCoeffsToLeft t) = ast_value env t)
  /\ coeffs_left (MoveCoeffsToLeft t) = true
  /\ MoveCoeffsToLeft (MoveCoeffsToLeft t) = MoveCoeffsToLeft t.
Proof.
  pose proof (MoveCoeffsToLeft_id _ (MoveCoeffsToLeft_coeffs_left t)) as Hidem.
  split_and!.
  - unfold _move_coeffs_to_left. pose proof (ast_size_pos t) as Hpos.
    destruct (ast_size t) as [|k]; [lia|]. cbn [move_coeffs_loop].
    destruct (ast_eq t (MoveCoeffsToLeft t)) eqn:Heq; [done|].
    by rewrite Hidem, ast_eq_refl.
  - intros env. apply MoveCoeffsToLeft_value.
  - apply MoveCoeffsToLeft_coeffs_left.
  - done.
Qed.

Lemma new_validator_wf : opaque_ids_wf new_validator.
Proof. split; intros *; simpl; by rewrite lookup_empty. Qed.

Lemma opaque_id_inj (k1 k2 : nat) :
  VALID_PYTHON_ID_PREFIX +:+ pretty k1 = VALID_PYTHON_ID_PREFIX +:+ pretty k2 ->
  k1 = k2.
Proof. intros H. by apply (inj pretty), (inj (String.append VALID_PYTHON_ID_PREFIX)). Qed.

Lemma _convert_model_id_to_python_id_wf py self id :
  opaque_ids_wf self ->
  opaque_ids_wf (_convert_model_id_to_python_id py self id).1.
Proof.
  intros [Hrange Hinj]. unfold _convert_model_id_to_python_id.
  destruct (isidentifier py id && negb (iskeyword py id)); [done|].
  destruct (opaque_ids self !! id) as [o|] eqn:Hid; [done|].
  split; simpl.
  - intros id' o'. destruct (decide (id = id')) as [<-|Hne].
    + rewrite lookup_insert_eq. intros [= <-]. exists (next_id self). split; [lia|done].
    + rewrite lookup_insert_ne by done. intros (k & Hk & ->)%Hrange.
      exists k. split; [lia|done].
  - intros id1 id2 o.
    destruct (decide (id = id1)) as [<-|Hne1]; destruct (decide (id = id2)) as [<-|Hne2];
      rewrite ?lookup_insert_eq, ?lookup_insert_ne by done; try done.
    + intros [= <-] (k & Hk & Heq%opaque_id_inj)%Hrange. lia.
    + intros (k & Hk & Heq)%Hrange [= <-]. apply opaque_id_inj in Heq. lia.
    + apply Hinj.
Qed.

Lemma _convert_model_id_to_python_id_lookup py self id :
  python_identifier py id = false ->
  opaque_ids (_convert_model_id_to_python_id py self id).1 !! id
  = Some (_convert_model_id_to_python_id py self id).2.
Proof.
  unfold python_identifier, _convert_model_id_to_python_id. intros ->.
  destruct (opaque_ids self !! id) as [o|] eqn:Ho; simpl; [done|].
  by rewrite lookup_insert_eq.
Qed.

Lemma _convert_model_id_to_python_id_kept py self id id' o :
  opaque_ids self !! id = Some o ->
  opaque_ids (_convert_model_id_to_python_id py self id').1 !! id = Some o.
Proof.
  intros Ho. unfold _convert_model_id_to_python_id.
  destruct (isidentifier py id' && negb (iskeyword py id')); [done|].
  destruct (opaque_ids self !! id') as [o'|] eqn:Ho'; [done|]. simpl.
  rewrite lookup_insert_ne; [done|]. intros ->. congruence.
Qed.

(** X12. Model ids that are not Python identifiers get opaque ids of their
    own: from a validator whose opaque ids are well formed (as those of a
    new validator are, and as conversions keep them), two different model
    ids are converted to different Python ids. *)
Theorem opaque_ids_distinct py self id1 id2 :
  opaque_ids_wf self ->
  python_identifier py id1 = false -> python_identifier py id2 = false ->
  id1 <> id2 ->
  let r1 := _convert_model_id_to_python_id py self id1 in
  let r2 := _convert_model_id_to_python_id py r1.1 id2 in
  r1.2 <> r2.2 /\ opaque_ids_wf r2.1.
Proof.
  intros Hwf H1 H2 Hne r1 r2.
  pose proof (_convert_model_id_to_python_id_wf py self id1 Hwf) as Hwf1.
  pose proof (_convert_model_id_to_python_id_wf py r1.1 id2 Hwf1) as Hwf2.
  split; [|done].
  pose proof (_convert_model_id_to_python_id_lookup py self id1 H1) as Hl1.
  pose proof (_convert_model_id_to_python_id_lookup py r1.1 id2 H2) as Hl2.
  pose proof (_convert_model_id_to_python_id_kept py r1.1 id1 id2 _ Hl1) as Hl1'.
  intros Heq. apply Hne. eapply (wf_inj _ Hwf2); [exact Hl1'|].
  etrans; [exact Hl2|]. f_equal. symmetry. exact Heq.
Qed.


Lemma foldl_invert_lookup_other (l : list (string * string)) acc o :
  (forall id, (id, o) ∉ l) ->
  foldl (fun (inv : gmap string string) '(id, opaque_id) => <[opaque_id := id]> inv)
        acc l !! o = acc !! o.
Proof.
  revert acc. induction l as [|[id1 o1] l IH]; intros acc Hno; [done|].
  cbn [foldl]. rewrite IH.
  - rewrite lookup_insert_ne; [done|]. intros ->. apply (Hno id1). by left.
  - intros id Hin. apply (Hno id). by right.
Qed.

Lemma foldl_invert_lookup (l : list (string * string)) acc id o :
  (id, o) ∈ l ->
  (forall id', (id', o) ∈ l -> id' = id) ->
  foldl (fun (inv : gmap string string) '(id, opaque_id) => <[opaque_id := id]> inv)
        acc l !! o = Some id.
Proof.
  revert acc. induction l as [|[id1 o1] l IH]; intros acc Hin Huniq.
  - by apply elem_of_nil in Hin.
  - cbn [foldl]. destruct (decide ((id, o) ∈ l)) as [Hin'|Hnin].
    + apply IH; [done|]. intros id' Hid'. apply Huniq. by right.
    + apply elem_of_cons in Hin as [[= <- <-]|Hin]; [|done].
      rewrite foldl_invert_lookup_other; [by rewrite lookup_insert_eq|].
      intros id' Hid'. assert (id' = id) as -> by (apply Huniq; by right). done.
Qed.

(** X13. The remapping of [_get_coeffs_for_vars] undoes the conversion of
    [_convert_model_id_to_python_id]: the opaque id that a validator holds
    for a model id is mapped back to this model id, and a name that is not
    an opaque id of the validator is left as it is. *)
Theorem original_id_round_trip self :
  opaque_ids_wf self ->
  (forall model_id o, opaque_ids self !! model_id = Some o ->
                      original_id self o = model_id)
  /\ (forall name, (forall model_id, opaque_ids self !! model_id <> Some name) ->
                   original_id self name = name).
Proof.
  intros [_ Hinj]. unfold original_id, inverted_opaque_ids. split.
  - intros model_id o Ho. rewrite (foldl_invert_lookup _ _ model_id o); [done| |].
    + by apply elem_of_map_to_list.
    + intros id' Hid'%elem_of_map_to_list. by eapply Hinj.
  - intros name Hno. rewrite foldl_invert_lookup_other; [by rewrite lookup_empty|].
    intros id Hid%elem_of_map_to_list. by apply (Hno id).
Qed.

Lemma python_id_words_spec py toks :
  forall acc (s : LinearParsedExpressionValidator),
    opaque_ids_wf s ->
    opaque_ids_wf
      (foldl (fun '(self, expr) t =>
                if bool_decide (code t = obj_id) then
                  let '(self, w) :=
                    _convert_model_id_to_python_id py self
                      (default "" (model_id t)) in
                  (self, expr ++ [w])
                else (self, expr ++ [token_string t]))
             (s, acc) toks).1
    /\ (forall id o,
          opaque_ids s !! id = Some o ->
          opaque_ids
            (foldl (fun '(self, expr) t =>
                      if bool_decide (code t = obj_id) then
                        let '(self, w) :=
                          _convert_model_id_to_python_id py self
                            (default "" (model_id t)) in
                        (self, expr ++ [w])
                      else (self, expr ++ [token_string t]))
                   (s, acc) toks).1 !! id = Some o)
    /\ (forall t,
          t ∈ toks -> code t = obj_id ->
          python_identifier py (default "" (model_id t)) = false ->
          is_Some
            (opaque_ids
               (foldl (fun '(self, expr) t =>
                         if bool_decide (code t = obj_id) then
                           let '(self, w) :=
                             _convert_model_id_to_python_id py self
                               (default "" (model_id t)) in
                           (self, expr ++ [w])
                         else (self, expr ++ [token_string t]))
                      (s, acc) toks).1 !! default "" (model_id t))).
Proof.
  induction toks as [|t toks IH]; intros acc s Hs.
  { split_and!; try done. by intros t ?%elem_of_nil. }
  cbn [foldl]. case_bool_decide as Hc.
  - pose proof (_convert_model_id_to_python_id_wf py s (default "" (model_id t)) Hs)
      as Hs'.
    pose proof (fun id o => _convert_model_id_to_python_id_kept py s id
                              (default "" (model_id t)) o) as Hkept.
    pose proof (_convert_model_id_to_python_id_lookup py s (default "" (model_id t)))
      as Hlook.
    destruct (_convert_model_id_to_python_id py s _) as [s' w]. cbn [fst snd] in *.
    destruct (IH (acc ++ [w]) s' Hs') as (Hwf & Hk & Ht). split_and!.
    + done.
    + intros id o Ho. by apply Hk, Hkept.
    + intros t' [->|Hin]%elem_of_cons Hc' Hid; [|by apply Ht].
      eexists. apply Hk, Hlook, Hid.
  - destruct (IH (acc ++ [token_string t]) s Hs) as (Hwf & Hk & Ht). split_and!.
    + done.
    + done.
    + intros t' [->|Hin]%elem_of_cons Hc' Hid; [done|by apply Ht].
Qed.

Lemma validate_validator py self pe set_linear_coeffs :
  (validate py self pe set_linear_coeffs).1.1 = (_expr_with_python_ids py self pe).1.
Proof.
  unfold validate. destruct (_expr_with_python_ids py self pe) as [self' expr].
  case_bool_decide; [done|].
  destruct (_validate py (strip expr)) as [v|e]; [|done].
  destruct set_linear_coeffs; [|done].
  by destruct (_set_lin_coeffs self' (strip expr) v pe) as [pe' [e|]].
Qed.

(** X14. [validate] keeps the opaque ids of a validator well formed: the
    ids handed out before stay as they are, and every token of the
    expression whose model id is not a Python identifier has an opaque id
    afterwards, so that [_get_coeffs_for_vars] can map it back. *)
Theorem validate_keeps_opaque_ids py self pe set_linear_coeffs :
  opaque_ids_wf self ->
  let self' := (validate py self pe set_linear_coeffs).1.1 in
  opaque_ids_wf self'
  /\ (forall id o, opaque_ids self !! id = Some o -> opaque_ids self' !! id = Some o)
  /\ (forall t,
        t ∈ _obj_tables_tokens pe -> code t = obj_id ->
        python_identifier py (default "" (model_id t)) = false ->
        exists o, opaque_ids self' !! default "" (model_id t) = Some o
                  /\ original_id self' o = default "" (model_id t)).
Proof.
  intros Hwf self'. unfold self'. rewrite validate_validator.
  unfold _expr_with_python_ids, python_id_words.
  destruct (python_id_words_spec py (_obj_tables_tokens pe) [] self Hwf)
    as (Hwf' & Hkept & Htoks).
  destruct (foldl _ (self, []) (_obj_tables_tokens pe)) as [s' words].
  cbn [fst] in *. split_and!; try done.
  intros t Ht Hc Hid. destruct (Htoks t Ht Hc Hid) as [o Ho].
  exists o. split; [done|].
  unfold original_id, inverted_opaque_ids.
  rewrite (foldl_invert_lookup _ _ (default "" (model_id t)) o); [done| |].
  - by apply elem_of_map_to_list.
  - intros id' Hid'%elem_of_map_to_list. by eapply (wf_inj _ Hwf').
Qed.

Lemma models_with_id_elem pe id cls obj :
  (cls, obj) ∈ models_with_id pe id <->
  (exists key, lookup2 (related_objects pe) cls key = Some obj) /\ inst_id obj = id.
Proof.
  unfold models_with_id, lookup2. rewrite list_elem_of_In, in_flat_map. split.
  - intros ([rc robjs] & Hrc & Hin). apply list_elem_of_In in Hrc, Hin.
    apply elem_of_map_to_list in Hrc.
    apply list_elem_of_omap in Hin as ([key o] & Hko & Hsome).
    apply elem_of_map_to_list in Hko.
    case_bool_decide; [|done]. injection Hsome as <- <-.
    split; [|done]. exists key. by rewrite Hrc.
  - intros [[key Hkey] Hid].
    destruct (related_objects pe !! cls) as [objs|] eqn:Hcls; [|done].
    simpl in Hkey. exists (cls, objs). split.
    + by apply list_elem_of_In, elem_of_map_to_list.
    + apply list_elem_of_In, list_elem_of_omap. exists (key, obj). split.
      * by apply elem_of_map_to_list.
      * by rewrite bool_decide_eq_true_2.
Qed.

Lemma get_cls_and_model_found pe expr id :
  get_cls_and_model pe expr id
  = match models_with_id pe id with
    | [] => Ok None
    | [x] => Ok (Some x)
    | _ :: _ :: _ =>
        Raise (ParsedExpressionError
                 ("multiple models with id='" +:+ id +:+ "' in expression '"
                  +:+ expr +:+ "'"))
    end.
Proof. reflexivity. Qed.

(** X11. [get_cls_and_model] returns [(None, None)] when no related object
    has the id, the class and the instance when it returns one, and raises
    [ParsedExpressionError] when related objects of two classes have the
    id. *)
Theorem get_cls_and_model_cases pe expr id :
  ((forall cls key obj, lookup2 (related_objects pe) cls key = Some obj ->
                        inst_id obj <> id) ->
   get_cls_and_model pe expr id = Ok None)
  /\ (forall cls obj,
        get_cls_and_model pe expr id = Ok (Some (cls, obj)) ->
        (exists key, lookup2 (related_objects pe) cls key = Some obj)
        /\ inst_id obj = id)
  /\ (forall cls1 cls2 key1 key2 obj1 obj2,
        cls1 <> cls2 ->
        lookup2 (related_objects pe) cls1 key1 = Some obj1 -> inst_id obj1 = id ->
        lookup2 (related_objects pe) cls2 key2 = Some obj2 -> inst_id obj2 = id ->
        get_cls_and_model pe expr id
        = Raise (ParsedExpressionError
                   ("multiple models with id='" +:+ id +:+ "' in expression '"
                    +:+ expr +:+ "'"))).
Proof.
  rewrite get_cls_and_model_found. split_and!.
  - intros Hno. destruct (models_with_id pe id) as [|[cls obj] l] eqn:Hfound; [done|].
    assert ((cls, obj) ∈ models_with_id pe id) as Hin by (rewrite Hfound; left).
    apply models_with_id_elem in Hin as [[key Hkey] Hid]. by destruct (Hno _ _ _ Hkey).
  - intros cls obj Hget. apply models_with_id_elem.
    destruct (models_with_id pe id) as [|x [|y l]]; try done.
    injection Hget as ->. left.
  - intros cls1 cls2 key1 key2 obj1 obj2 Hne H1 Hid1 H2 Hid2.
    assert ([(cls1, obj1); (cls2, obj2)] ⊆+ models_with_id pe id) as Hsub.
    { apply NoDup_submseteq.
      - apply NoDup_cons. split; [|apply NoDup_singleton].
        intros [= -> _]%list_elem_of_singleton. done.
      - intros x [->| ->%list_elem_of_singleton]%elem_of_cons;
          apply models_with_id_elem; eauto. }
    apply submseteq_length in Hsub. simpl in Hsub.
    destruct (models_with_id pe id) as [|x [|y l]]; simpl in Hsub; try lia. done.
Qed.

Lemma normalize_returns t :
  (_validate_node_types t).1 = true -> is_Some (normalize t).
Proof.
  intros Hvalid%valid_tree_of_node_types.
  pose proof (RemoveUnaryOps_plain t Hvalid) as H1.
  pose proof (MultiplyNums_plain _ H1) as H2.
  destruct (dist_mult_loop_terminates (S (dist_measure (MultiplyNums (RemoveUnaryOps t))))
              (MultiplyNums (RemoveUnaryOps t)) H2) as (t3 & Hloop & _); [lia|].
  unfold normalize, _dist_mult, _remove_unary_operators, _multiply_numbers,
    _remove_subtraction.
  rewrite Hloop. by eexists.
Qed.

Lemma _validate_node_types_message t :
  (_validate_node_types t).1 = true <-> (_validate_node_types t).2 = None.
Proof. unfold _validate_node_types. by destruct (foldl _ _ _). Qed.

Lemma _validate_nums_message t :
  (_validate_nums t).1 = true <-> (_validate_nums t).2 = None.
Proof. unfold _validate_nums. by destruct (flat_map _ _). Qed.

Lemma _validate_returns py expr :
  exists v, _validate py expr = Ok v
            /\ v_is_linear v = (rv v).1
            /\ ((rv v).1 = true <-> (rv v).2 = None).
Proof.
  unfold _validate. destruct (ast_parse py expr) as [t|]; [|by eexists].
  pose proof (_validate_node_types_message t) as Ht.
  pose proof (normalize_returns t) as Hn.
  destruct (_validate_node_types t) as [[] error]; cbn [fst snd negb] in *;
    [|by eexists].
  pose proof (_validate_nums_message t) as Hnum.
  destruct (_validate_nums t) as [[] error']; cbn [fst snd negb] in *;
    [|by eexists].
  destruct Hn as [t' ->]; [done|].
  destruct (_expr_has_a_constant t'); [by eexists|].
  destruct (_expr_has_products_of_variables t'); [by eexists|].
  destruct (_expr_has_constant_right_of_vars t'); by eexists.
Qed.


Lemma _set_lin_coeffs_nan self expr val pe :
  related_classes_declared pe ->
  v_is_linear val = false ->
  forall cls key obj,
    lookup2 (related_objects pe) cls key = Some obj ->
    lookup2 (lin_coeffs (_set_lin_coeffs self expr val pe).1) cls obj = Some NaN.
Proof.
  intros Hdecl Hlin cls key obj Hobj. unfold _set_lin_coeffs. rewrite Hlin.
  destruct (init_lin_coeffs_ok pe NaN
              (foldl (fun (lc : gmap ModelType (gmap Instance coeff)) c => <[c := ∅]> lc) ∅
                     (expression_term_classes (model_cls pe))))
    as (lc' & Hok & _ & Hnan).
  { intros c Hc. by apply declared_classes_keys. }
  rewrite Hok. cbn [negb fst lin_coeffs set_lin_coeffs].
  unfold lookup2 in Hobj.
  destruct (related_objects pe !! cls) as [objs|] eqn:Hcls; [|done].
  by apply (Hnan cls objs key obj).
Qed.

(** X10. When the expression is not linear, [validate] with
    [set_linear_coeffs] returns the same result as without, and leaves
    [NaN] as the coefficient of every related object; the related objects
    are the same. *)
Theorem validate_not_linear_coefficients py self pe error :
  related_classes_declared pe ->
  (validate py self pe false).2 = Ok (false, error) ->
  (validate py self pe true).2 = Ok (false, error)
  /\ related_objects (validate py self pe true).1.2 = related_objects pe
  /\ forall cls key obj,
       lookup2 (related_objects pe) cls key = Some obj ->
       lookup2 (lin_coeffs (validate py self pe true).1.2) cls obj = Some NaN.
Proof.
  intros Hdecl. unfold validate.
  destruct (_expr_with_python_ids py self pe) as [self' expr].
  case_bool_decide; [done|].
  destruct (_validate_returns py (strip expr)) as (v & -> & Hlin & _).
  cbn [snd]. intros [= Hrv]. rewrite Hrv in Hlin. cbn [fst] in Hlin.
  pose proof (_set_lin_coeffs_not_linear self' (strip expr) v pe Hdecl Hlin) as Hnone.
  pose proof (_set_lin_coeffs_nan self' (strip expr) v pe Hdecl Hlin) as Hnan.
  assert (related_objects (_set_lin_coeffs self' (strip expr) v pe).1
          = related_objects pe) as Hrel.
  { unfold _set_lin_coeffs. rewrite Hlin.
    by destruct (init_lin_coeffs _ _ _). }
  destruct (_set_lin_coeffs self' (strip expr) v pe) as [pe' e].
  cbn [fst snd] in *. subst e. cbn [fst snd]. by rewrite Hrv.
Qed.

Lemma linear_value_app env t1 t2 :
  linear_value env (t1 ++ t2) = (linear_value env t1 + linear_value env t2)%Z.
Proof.
  induction t1 as [|[c id] t1 IH]; [done|].
  cbn [app linear_value foldr] in *. fold (linear_value env (t1 ++ t2)).
  fold (linear_value env t1). rewrite IH. lia.
Qed.

Lemma linear_value_scale env z terms :
  linear_value env (map (fun '(c, id) => ((z * c)%Z, id)) terms)
  = (z * linear_value env terms)%Z.
Proof.
  induction terms as [|[c id] terms IH]; [cbn; lia|].
  cbn [map linear_value foldr] in *.
  fold (linear_value env (map (fun '(c, id) => ((z * c)%Z, id)) terms)).
  fold (linear_value env terms). rewrite IH. lia.
Qed.

Lemma product_scaled e : product e = true -> scaled e = true.
Proof.
  destruct e as [| | |l o r|]; try done. destruct o; try done.
  simpl. by intros ->.
Qed.

Lemma product_plain e : product e = true -> plain e = true.
Proof.
  induction e as [n|id|o e IH|l o r IHl IHr|cls cs _] using ast_ind; try done.
  destruct o; try done. simpl. intros [Hl Hr]%andb_true_iff.
  by rewrite IHl, IHr.
Qed.

Lemma product_sub_free e : product e = true -> sub_free e = true.
Proof.
  induction e as [n|id|o e IH|l o r IHl IHr|cls cs _] using ast_ind; try done.
  destruct o; try done. simpl. intros [Hl Hr]%andb_true_iff.
  by rewrite IHl, IHr.
Qed.

Lemma sum_of_products_not_sum e :
  sum_of_products e = true -> is_sum e = false -> product e = true.
Proof. destruct e as [| | |l o r|]; try done. by destruct o. Qed.

Lemma plain_distributed_sum_of_products t :
  plain t = true -> distributed t = true -> sum_of_products t = true.
Proof.
  induction t as [n|id|o e IH|l o r IHl IHr|cls cs _] using ast_ind; try done.
  intros (Ho & Hl & Hr)%plain_BinOp. cbn [distributed].
  intros [[Hdl Hdr]%andb_true_iff Hs]%andb_true_iff.
  specialize (IHl Hl Hdl). specialize (IHr Hr Hdr).
  destruct o; try (by destruct Ho as [?|[?|?]]).
  - simpl. by rewrite IHl, IHr.
  - simpl. by rewrite IHl, IHr.
  - apply andb_true_iff in Hs as [Hsl%negb_true_iff Hsr%negb_true_iff].
    cbn [sum_of_products product].
    by rewrite (sum_of_products_not_sum l), (sum_of_products_not_sum r).
Qed.

Lemma MultiplyNums_node_other l o r :
  o <> Mult -> MultiplyNums_node (BinOp l o r) = BinOp l o r.
Proof. intros Ho. destruct l; try done; destruct o; done. Qed.

Lemma MultiplyNums_node_product e :
  product e = true -> product (MultiplyNums_node e) = true.
Proof.
  destruct e as [| | |l o r|]; try done.
  destruct l as [a| | | |]; try done. destruct o; try done.
  destruct r as [b| | |rl ro rr|]; try done.
  destruct rl as [b| | | |]; try done. destruct ro; try done.
Qed.

Lemma MultiplyNums_product e :
  product e = true -> product (MultiplyNums e) = true.
Proof.
  induction e as [n|id|o e IH|l o r IHl IHr|cls cs _] using ast_ind; try done.
  destruct o; try done. cbn [product MultiplyNums]. intros [Hl Hr]%andb_true_iff.
  apply MultiplyNums_node_product. simpl. by rewrite IHl, IHr.
Qed.

Lemma MultiplyNums_sum_of_products t :
  sum_of_products t = true -> sum_of_products (MultiplyNums t) = true.
Proof.
  induction t as [n|id|o e IH|l o r IHl IHr|cls cs _] using ast_ind; try done.
  destruct o; try done.
  - cbn [sum_of_products MultiplyNums]. intros [Hl Hr]%andb_true_iff.
    rewrite MultiplyNums_node_other by done. simpl. by rewrite IHl, IHr.
  - cbn [sum_of_products MultiplyNums]. intros [Hl Hr]%andb_true_iff.
    rewrite MultiplyNums_node_other by done. simpl. by rewrite IHl, IHr.
  - intros Hp. change (product (BinOp l Mult r) = true) in Hp.
    apply MultiplyNums_product in Hp.
    destruct (MultiplyNums (BinOp l Mult r)) as [| | |l' o' r'|]; try done.
    by destruct o'.
Qed.

Lemma DistributeSub_root_Mult t rl rr :
  DistributeSub t = BinOp rl Mult rr -> exists a b, t = BinOp a Mult b.
Proof.
  destruct t as [| | |l o r|]; try done. cbn [DistributeSub].
  destruct o; try done; [|by eauto].
  cbn [DistributeSub_node].
  destruct (DistributeSub r) as [| | |rl' ro rr'|]; try done.
  destruct ro; done.
Qed.

Lemma DistributeSub_scaled t :
  sum_of_products t = true -> scaled (DistributeSub t) = true.
Proof.
  induction t as [n|id|o e IH|l o r IHl IHr|cls cs _] using ast_ind; try done.
  destruct o; try done.
  - cbn [sum_of_products DistributeSub DistributeSub_node].
    intros [Hl Hr]%andb_true_iff. simpl. by rewrite IHl, IHr.
  - cbn [sum_of_products DistributeSub]. intros [Hl Hr]%andb_true_iff.
    specialize (IHl Hl). specialize (IHr Hr). cbn [DistributeSub_node].
    destruct (DistributeSub r) as [b|id| |rl ro rr|] eqn:Er; try done.
    + simpl. by rewrite IHl.
    + simpl. by rewrite IHl.
    + destruct ro; try done; cbn [is_add_sub].
      * simpl in IHr. apply andb_true_iff in IHr as [Hrl Hrr].
        simpl. by rewrite IHl, Hrl, Hrr, !orb_true_r.
      * simpl in IHr. apply andb_true_iff in IHr as [Hrl Hrr].
        simpl. by rewrite IHl, Hrl, Hrr, !orb_true_r.
      * destruct (DistributeSub_root_Mult _ _ _ Er) as (a & b & ->).
        change (product (BinOp a Mult b) = true) in Hr.
        rewrite (DistributeSub_id (BinOp a Mult b)) in Er
          by auto using product_plain, product_sub_free.
        injection Er as -> ->. simpl in Hr.
        apply andb_true_iff in Hr as [Ha Hb]. simpl. by rewrite IHl, Ha, Hb.
  - intros Hp. change (product (BinOp l Mult r) = true) in Hp.
    rewrite DistributeSub_id by auto using product_plain, product_sub_free.
    by apply product_scaled.
Qed.

Lemma scaled_scale a r : scaled r = true -> scaled (BinOp (Num a) Mult r) = true.
Proof. cbn [scaled is_num andb]. intros ->. apply orb_true_r. Qed.

Lemma MultiplyNums_scaled t : scaled t = true -> scaled (MultiplyNums t) = true.
Proof.
  induction t as [n|id|o e IH|l o r IHl IHr|cls cs _] using ast_ind; try done.
  destruct o; try done.
  - cbn [scaled MultiplyNums]. intros [Hl Hr]%andb_true_iff.
    rewrite MultiplyNums_node_other by done. simpl. by rewrite IHl, IHr.
  - cbn [scaled MultiplyNums]. intros [Hl Hr]%andb_true_iff.
    rewrite MultiplyNums_node_other by done. simpl. by rewrite IHl, IHr.
  - cbn [scaled]. intros [Hp|[Hn Hr]%andb_true_iff]%orb_true_iff.
    + apply product_scaled, (MultiplyNums_product (BinOp l Mult r)). exact Hp.
    + destruct l as [a| | | |]; try done. specialize (IHr Hr).
      cbn [MultiplyNums MultiplyNums_node].
      destruct (MultiplyNums r) as [b| | |rl ro rr|]; try done;
        try (by apply scaled_scale).
      destruct rl as [b| | | |]; try (by apply scaled_scale).
      destruct ro; try (by apply scaled_scale).
      apply scaled_scale. simpl in IHr.
      apply orb_true_iff in IHr as [Hrr|Hrr]; [by apply product_scaled|done].
Qed.

(** The names that [_num_of_variables_in_a_product] counts *)
Lemma names_counted p :
  product p = true ->
  match p with
  | Name _ => 1
  | BinOp _ _ _ => _num_of_variables_in_a_product p
  | _ => 0
  end = names p.
Proof.
  induction p as [n|id|o e IH|l o r IHl IHr|cls cs _] using ast_ind; try done.
  destruct o; try done. cbn [product]. intros [Hl Hr]%andb_true_iff.
  cbn [_num_of_variables_in_a_product names].
  rewrite <- (IHl Hl), <- (IHr Hr).
  destruct l, r; try done.
Qed.

Lemma product_without_names p :
  product p = true -> nums_folded p = true -> names p = 0 -> is_num p = true.
Proof.
  induction p as [n|id|o e IH|l o r IHl IHr|cls cs _] using ast_ind; try done.
  destruct o; try done. cbn [product nums_folded names].
  intros [Hl Hr]%andb_true_iff [[Hfl Hfr]%andb_true_iff Hf]%andb_true_iff Hn.
  specialize (IHl Hl Hfl ltac:(lia)). specialize (IHr Hr Hfr ltac:(lia)).
  destruct l; try done. destruct r; done.
Qed.

Lemma product_with_names p :
  product p = true -> 0 < names p -> _product_has_name p = true.
Proof.
  induction p as [n|id|o e IH|l o r IHl IHr|cls cs _] using ast_ind; try done;
    try (simpl; lia).
  destruct o; try (simpl; lia). cbn [product names _product_has_name].
  intros [Hl Hr]%andb_true_iff Hn.
  destruct (decide (0 < names l)).
  - by rewrite IHl.
  - rewrite IHr by (done || lia). apply orb_true_r.
Qed.

(** In a checked product of products, the left operand is a number. *)
Lemma checked_product l r :
  product l = true -> product r = true ->
  nums_folded (BinOp l Mult r) = true ->
  checked_node (NAst (BinOp l Mult r)) ->
  is_num l = true.
Proof.
  intros Hl Hr Hf (_ & Hcount & Hright).
  cbn [nums_folded] in Hf.
  apply andb_true_iff in Hf as [[Hfl Hfr]%andb_true_iff Hf].
  destruct (decide (names l = 0)) as [Hz|Hnz];
    [by apply product_without_names|].
  exfalso.
  pose proof (names_counted (BinOp l Mult r)) as Hc.
  cbn [product names] in Hc. rewrite Hl, Hr in Hc. specialize (Hc eq_refl).
  assert (names r = 0) as Hr0 by lia.
  pose proof (product_without_names r Hr Hfr Hr0) as Hnum.
  specialize (Hright eq_refl).
  rewrite (product_with_names l Hl) in Hright by lia.
  destruct r; done.
Qed.

Lemma subnode_left n l o r : subnode n (NAst l) -> subnode n (NAst (BinOp l o r)).
Proof. intros H. eapply subnode_child; [|exact H]. cbn. set_solver. Qed.

Lemma subnode_right n l o r : subnode n (NAst r) -> subnode n (NAst (BinOp l o r)).
Proof. intros H. eapply subnode_child; [|exact H]. cbn. set_solver. Qed.

Lemma subnode_operand n o e : subnode n (NAst e) -> subnode n (NAst (UnaryOp o e)).
Proof. intros H. eapply subnode_child; [|exact H]. cbn. set_solver. Qed.

(** The value of a checked tree is a linear combination of its names. *)
Lemma checked_tree_linear env0 e :
  scaled e = true -> nums_folded e = true ->
  (forall n, subnode n (NAst e) -> checked_node n) ->
  is_num e = false ->
  is_Some (ast_value env0 e) ->
  exists terms, forall env, ast_value env e = Some (linear_value env terms).
Proof.
  induction e as [n|id|o e IH|l o r IHl IHr|cls cs _] using ast_ind; try done.
  - intros _ _ _ _ _. exists [(1%Z, id)]. intros env. cbn. f_equal. lia.
  - intros Hs Hf Hnodes _ Hv.
    pose proof (Hnodes _ (subnode_refl _)) as Hnode.
    assert (nums_folded l = true /\ nums_folded r = true) as [Hfl Hfr].
    { cbn [nums_folded] in Hf.
      by apply andb_true_iff in Hf as [[? ?]%andb_true_iff _]. }
    assert (is_Some (ast_value env0 l) /\ is_Some (ast_value env0 r)) as [Hvl Hvr].
    { destruct Hv as [z Hz]. revert Hz. destruct o; try done; cbn [ast_value];
        destruct (ast_value env0 l), (ast_value env0 r); try done; by split. }
    assert (forall n, subnode n (NAst l) -> checked_node n) as Hnl
      by (intros n Hn; by apply Hnodes, subnode_left).
    assert (forall n, subnode n (NAst r) -> checked_node n) as Hnr
      by (intros n Hn; by apply Hnodes, subnode_right).
    destruct o; try done.
    + (* a sum *)
      cbn [scaled] in Hs. apply andb_true_iff in Hs as [Hsl Hsr].
      destruct Hnode as (Hconst & _). destruct (Hconst eq_refl) as [Hl Hr].
      destruct (IHl Hsl Hfl Hnl Hl Hvl) as [tl Htl].
      destruct (IHr Hsr Hfr Hnr Hr Hvr) as [tr Htr].
      exists (tl ++ tr). intros env. cbn [ast_value].
      rewrite Htl, Htr, linear_value_app. done.
    + (* a difference *)
      cbn [scaled] in Hs. apply andb_true_iff in Hs as [Hsl Hsr].
      destruct Hnode as (Hconst & _). destruct (Hconst eq_refl) as [Hl Hr].
      destruct (IHl Hsl Hfl Hnl Hl Hvl) as [tl Htl].
      destruct (IHr Hsr Hfr Hnr Hr Hvr) as [tr Htr].
      exists (tl ++ map (fun '(c, id) => ((-1 * c)%Z, id)) tr). intros env.
      cbn [ast_value]. rewrite Htl, Htr, linear_value_app, linear_value_scale.
      cbn -[Z.mul Z.add Z.sub linear_value]; f_equal; lia.
    + (* a product *)
      assert (is_num l = true /\ scaled r = true) as [Hl Hsr].
      { cbn [scaled] in Hs.
        apply orb_true_iff in Hs as [[Hpl Hpr]%andb_true_iff|[? ?]%andb_true_iff];
          [|done].
        split; [|by apply product_scaled]. by apply (checked_product l r). }
      destruct l as [[z|]| | | |]; try done; try (by destruct Hvl).
      assert (is_num r = false) as Hr.
      { cbn [nums_folded] in Hf. apply andb_true_iff in Hf as [_ Hf].
        by destruct r. }
      destruct (IHr Hsr Hfr Hnr Hr Hvr) as [tr Htr].
      exists (map (fun '(c, id) => ((z * c)%Z, id)) tr). intros env.
      cbn [ast_value]. rewrite Htr, linear_value_scale. done.
Qed.

Lemma existsb_false_elem {A} (f : A -> bool) l x :
  existsb f l = false -> x ∈ l -> f x = false.
Proof.
  induction l as [|y l IH]; [by intros _ ?%elem_of_nil|].
  simpl. intros [Hy Hl]%orb_false_iff [->|Hx]%elem_of_cons; auto.
Qed.

Lemma walk_Num n : walk (Num n) = [NAst (Num n)].
Proof. reflexivity. Qed.

Lemma _expr_has_a_constant_false t :
  _expr_has_a_constant t = false ->
  is_num t = false
  /\ forall l o r, NAst (BinOp l o r) ∈ walk t -> is_add_sub o = true ->
                   is_num l = false /\ is_num r = false.
Proof.
  unfold _expr_has_a_constant. intros H.
  assert (is_num t = false) as Hn.
  { destruct t as [n| | | |]; try done; by rewrite walk_Num in H. }
  split; [done|]. intros l o r Hin Ho.
  assert (existsb (fun node =>
                 match node with
                 | NAst (BinOp l (Add | Sub) r) => is_num l || is_num r
                 | _ => false
                 end) (walk t) = false) as Hex.
  { destruct (walk_head t) as [rest Hw]. rewrite Hw in *.
    destruct t as [n| | | |]; try done. }
  pose proof (existsb_false_elem _ _ _ Hex Hin) as Hnode. simpl in Hnode.
  destruct o; try done; by apply orb_false_iff in Hnode.
Qed.

Lemma max_num_variables_ge l :
  forall m n,
    n ∈ l ->
    match n with
    | NAst (BinOp a o b) => _num_of_variables_in_a_product (BinOp a o b)
    | _ => 0
    end <= foldl (fun m node =>
                    match node with
                    | NAst (BinOp l o r) =>
                        Nat.max m (_num_of_variables_in_a_product (BinOp l o r))
                    | _ => m
                    end) m l
    /\ m <= foldl (fun m node =>
                    match node with
                    | NAst (BinOp l o r) =>
                        Nat.max m (_num_of_variables_in_a_product (BinOp l o r))
                    | _ => m
                    end) m l.
Proof.
  induction l as [|x l IH]; intros m n Hn; [by apply elem_of_nil in Hn|].
  cbn [foldl]. apply elem_of_cons in Hn as [->|Hn].
  - destruct l as [|y l].
    + cbn [foldl]. destruct x as [[]| | | |]; lia.
    + destruct (IH (match x with
                    | NAst (BinOp l o r) =>
                        Nat.max m (_num_of_variables_in_a_product (BinOp l o r))
                    | _ => m
                    end) y ltac:(left)) as [_ Hm].
      destruct x as [[]| | | |]; lia.
  - destruct (IH (match x with
                  | NAst (BinOp l o r) =>
                      Nat.max m (_num_of_variables_in_a_product (BinOp l o r))
                  | _ => m
                  end) n Hn) as [Hle Hm].
    split; [done|]. destruct x as [[]| | | |]; lia.
Qed.

Lemma checks_checked_nodes t :
  _expr_has_a_constant t = false ->
  _expr_has_products_of_variables t = false ->
  _expr_has_constant_right_of_vars t = false ->
  is_num t = false /\ forall n, subnode n (NAst t) -> checked_node n.
Proof.
  intros Hc Hprod Hright.
  apply _expr_has_a_constant_false in Hc as [Hnum Hconst].
  split; [done|]. intros n Hn%walk_elem.
  destruct n as [[| | |l o r|]| | | |]; try done. split_and!.
  - by apply Hconst.
  - unfold _expr_has_products_of_variables, _max_num_variables_in_a_product in Hprod.
    apply bool_decide_eq_false in Hprod.
    destruct (max_num_variables_ge (walk t) 0 _ Hn) as [Hle _]. lia.
  - intros ->. unfold _expr_has_constant_right_of_vars in Hright.
    apply (existsb_false_elem _ _ _ Hright Hn).
Qed.

Lemma _validate_nums_true t n :
  (_validate_nums t).1 = true -> subnode (NAst (Num n)) (NAst t) ->
  exists z, n = PyInt z.
Proof.
  unfold _validate_nums. intros Hv Hn%walk_elem.
  destruct (flat_map _ (walk t)) as [|e errors] eqn:Herr; [|done].
  destruct n as [z|re im]; [by eexists|].
  assert (In "float() argument must be a string or a real number, not 'complex'"
             (@nil string)) as [].
  rewrite <- Herr. apply in_flat_map. eexists. split.
  - apply list_elem_of_In, Hn.
  - by left.
Qed.

Lemma valid_tree_value env t :
  valid_tree t = true ->
  (forall n, subnode (NAst (Num n)) (NAst t) -> exists z, n = PyInt z) ->
  is_Some (ast_value env t).
Proof.
  induction t as [n|id|o e IH|l o r IHl IHr|cls cs _] using ast_ind; try done.
  - intros _ Hn. destruct (Hn n (subnode_refl _)) as [z ->]. by eexists.
  - cbn [valid_tree]. intros He Hn.
    destruct IH as [z Hz]; [done|by intros n ?%(subnode_operand _ o)%Hn|].
    cbn [ast_value]. rewrite Hz. by destruct o; eexists.
  - cbn [valid_tree]. intros Hv Hn.
    assert (valid_tree l = true /\ valid_tree r = true) as [Hl Hr]
      by (destruct o; try done; by apply andb_true_iff in Hv).
    destruct IHl as [zl Hzl]; [done|by intros n ?%(subnode_left _ _ o r)%Hn|].
    destruct IHr as [zr Hzr]; [done|by intros n ?%(subnode_right _ l o _)%Hn|].
    cbn [ast_value]. rewrite Hzl, Hzr. by destruct o; try done; eexists.
Qed.

Lemma _validate_linear_sound py expr v :
  _validate py expr = Ok v -> (rv v).1 = true ->
  exists t terms,
    ast_parse py expr = Some t
    /\ forall env, ast_value env t = Some (linear_value env terms).
Proof.
  unfold _validate. destruct (ast_parse py expr) as [t|]; [|by intros [= <-]].
  destruct (_validate_node_types t) as [[] error] eqn:Htypes; cbn [negb];
    [|by intros [= <-]].
  destruct (_validate_nums t) as [[] error'] eqn:Hnums; cbn [negb];
    [|by intros [= <-]].
  assert ((_validate_node_types t).1 = true) as Hvalid by by rewrite Htypes.
  assert ((_validate_nums t).1 = true) as Hints by by rewrite Hnums.
  pose proof (valid_tree_of_node_types t Hvalid) as Hvt.
  pose proof (RemoveUnaryOps_plain t Hvt) as H1.
  pose proof (MultiplyNums_plain _ H1) as H2.
  destruct (dist_mult_loop_terminates (S (dist_measure (MultiplyNums (RemoveUnaryOps t))))
              (MultiplyNums (RemoveUnaryOps t)) H2) as (t3 & Hloop & Hfix & H3); [lia|].
  pose proof (MultiplyNums_plain _ H3) as H4.
  destruct (DistributeSub_plain _ H4) as [H5 _].
  unfold normalize, _dist_mult, _remove_unary_operators, _multiply_numbers,
    _remove_subtraction.
  rewrite Hloop. cbn [mbind option_bind].
  set (t' := MultiplyNums (DistributeSub (MultiplyNums t3))).
  assert (forall env, ast_value env t' = ast_value env t) as Hvalue.
  { intros env. unfold t'.
    rewrite MultiplyNums_value, DistributeSub_value, MultiplyNums_value.
    rewrite (dist_mult_loop_value env _ _ _ Hloop).
    by rewrite MultiplyNums_value, RemoveUnaryOps_value. }
  assert (scaled t' = true) as Hscaled.
  { apply MultiplyNums_scaled, DistributeSub_scaled, MultiplyNums_sum_of_products.
    apply plain_distributed_sum_of_products; [done|].
    by apply DistributeMult_fixpoint_distributed. }
  assert (nums_folded t' = true) as Hfolded by by apply MultiplyNums_folded.
  destruct (_expr_has_a_constant t') eqn:Hc; [by intros [= <-]|].
  destruct (_expr_has_products_of_variables t') eqn:Hp; [by intros [= <-]|].
  destruct (_expr_has_constant_right_of_vars t') eqn:Hr; [by intros [= <-]|].
  intros _ _.
  destruct (checks_checked_nodes t' Hc Hp Hr) as [Hnum Hnodes].
  destruct (checked_tree_linear (fun _ => 0%Z) t' Hscaled Hfolded Hnodes Hnum)
    as [terms Hterms].
  { rewrite Hvalue. apply valid_tree_value; [done|].
    intros n Hn. by apply (_validate_nums_true t). }
  exists t, terms. split; [done|]. intros env. by rewrite <- Hvalue.
Qed.


(** ** The token patterns *)

Lemma forallb_imap {A} (f : nat * A -> bool) (l : list A) :
  forallb f (imap (fun i c => (i, c)) l) = true
  <-> forall i c, l !! i = Some c -> f (i, c) = true.
Proof.
  rewrite forallb_forall. split.
  - intros H i c Hi. apply H, list_elem_of_In, elem_of_lookup_imap. eauto.
  - intros H x Hx. apply list_elem_of_In, elem_of_lookup_imap in Hx
      as (i & c & -> & Hi). eauto.
Qed.

(** X15. [_match_tokens] returns a text exactly when the pattern is not
    empty, the tokens from [idx] on are at least as many as the pattern,
    their exact types are the pattern, and no whitespace separates two of
    them; the text is the concatenation of the tokens, without the
    [__digit__] prefix of a name. *)
Theorem _match_tokens_spec self token_pattern idx s :
  _match_tokens self token_pattern idx = Some s <->
  token_pattern <> []
  /\ exists toks,
       toks = take (length token_pattern) (drop idx (_py_tokens self))
       /\ map exact_type toks = token_pattern
       /\ (forall i a b, toks !! i = Some a -> toks !! (S i) = Some b ->
                         tok_end a = tok_start b)
       /\ s = String.concat "" (map strip_digit_prefix toks).
Proof.
  unfold _match_tokens.
  set (l := _py_tokens self). set (n := length token_pattern).
  assert (forall i, i < n -> take n (drop idx l) !! i = l !! (idx + i)) as Hlook.
  { intros i Hi. by rewrite lookup_take_lt, lookup_drop by done. }
  case_bool_decide as Hnil.
  { split; [done|]. by intros [? _]. }
  case_bool_decide as Hfew.
  { split; [done|]. intros (_ & toks & -> & Hty & _).
    apply (f_equal length) in Hty. rewrite length_map, length_take, length_drop in Hty.
    unfold n, l in *. exfalso. destruct token_pattern; [done|]. cbn [length] in *. lia. }
  destruct (forallb _ _) eqn:Hall.
  - pose proof (proj1 (forallb_imap _ _) Hall) as Hall'. clear Hall.
    rename Hall' into Hall. split.
    + intros [= <-]. split; [done|]. eexists. split; [done|]. split_and!; [| |done].
      * apply list_eq. intros i. rewrite list_lookup_fmap.
        destruct (decide (i < n)) as [Hi|Hi].
        -- rewrite Hlook by done.
           destruct (lookup_lt_is_Some_2 token_pattern i Hi) as [c Hc].
           specialize (Hall i c Hc). cbn beta iota in Hall. rewrite Hc.
           destruct (l !! (idx + i)) as [tok|]; [|done].
           apply andb_true_iff in Hall as [Hty _].
           apply bool_decide_eq_true in Hty. by rewrite <- Hty.
        -- rewrite (lookup_ge_None_2 token_pattern) by (fold n; lia).
           rewrite lookup_ge_None_2; [done|]. rewrite length_take. lia.
      * intros i a b Ha Hb.
        assert (S i < n) as Hi.
        { apply lookup_lt_Some in Hb. rewrite length_take in Hb. lia. }
        rewrite Hlook in Ha, Hb by lia.
        destruct (lookup_lt_is_Some_2 token_pattern (S i) Hi) as [c Hc].
        specialize (Hall (S i) c Hc). cbn beta iota in Hall.
        rewrite Hb in Hall. apply andb_true_iff in Hall as [_ Hadj].
        rewrite Ha in Hadj. by apply bool_decide_eq_true in Hadj.
    + by intros (_ & toks & -> & _ & _ & ->).
  - split; [done|]. intros (_ & toks & -> & Hty & Hadj & _). exfalso.
    assert (forallb
              (fun '(tok_idx, token_pat_num) =>
                 match l !! (idx + tok_idx) with
                 | None => false
                 | Some tok =>
                     bool_decide (exact_type tok = token_pat_num) &&
                     match tok_idx with
                     | O => true
                     | S prev_idx =>
                         match l !! (idx + prev_idx) with
                         | Some prev => bool_decide (tok_end prev = tok_start tok)
                         | None => false
                         end
                     end
                 end) (imap (fun i c => (i, c)) token_pattern) = true) as Htrue;
      [|by rewrite Htrue in Hall].
    apply (proj2 (forallb_imap _ _)). intros i c Hc.
    assert (i < n) as Hi by by apply lookup_lt_Some in Hc.
    assert (exact_type <$> take n (drop idx l) !! i = Some c) as Hi'.
    { rewrite <- list_lookup_fmap.
      change (map exact_type (take n (drop idx l)) !! i = Some c). by rewrite Hty. }
    destruct (take n (drop idx l) !! i) as [tok|] eqn:Htok; [|done].
    injection Hi' as Hi'. rewrite <- Hlook by done. rewrite Htok.
    rewrite bool_decide_eq_true_2 by done. cbn [andb].
    destruct i as [|p]; [done|].
    destruct (take n (drop idx l) !! p) as [prev|] eqn:Hprev.
    2:{ apply lookup_ge_None_1 in Hprev. apply lookup_lt_Some in Htok. lia. }
    rewrite <- Hlook by lia. rewrite Hprev.
    apply bool_decide_eq_true_2. by apply (Hadj p).
Qed.

(** ** The keys of the related objects *)

Lemma record_related_objects_Raise toks e :
  foldl
    (fun acc t =>
       do ro <- acc in
       if bool_decide (code t = obj_id) then
         match model_type t, model_id t, model t with
         | Some mt, Some id, Some m =>
             match ro !! mt with
             | Some inner => Ok (<[mt := <[id := m]> inner]> ro)
             | None => Raise (KeyError (__name__ mt))
             end
         | _, _, _ => Raise (KeyError "None")
         end
       else Ok ro)
    (Raise e) toks
  = (Raise e : result (gmap ModelType (gmap string Instance))).
Proof. induction toks as [|t toks IH]; [done|]. cbn [foldl bind]. exact IH. Qed.

Lemma record_related_objects_keys toks ro ro' :
  record_related_objects toks ro = Ok ro' ->
  forall mt, is_Some (ro' !! mt) <-> is_Some (ro !! mt).
Proof.
  unfold record_related_objects. revert ro.
  induction toks as [|t toks IH]; intros ro; cbn [foldl bind].
  - by intros [= <-].
  - case_bool_decide; [|apply IH].
    destruct (model_type t) as [mt|]; [|by rewrite record_related_objects_Raise].
    destruct (model_id t) as [id|]; [|by rewrite record_related_objects_Raise].
    destruct (model t) as [m|]; [|by rewrite record_related_objects_Raise].
    destruct (ro !! mt) as [inner|] eqn:Hmt; [|by rewrite record_related_objects_Raise].
    intros Hrec mt'. rewrite (IH _ Hrec).
    destruct (decide (mt = mt')) as [<-|Hne].
    + rewrite lookup_insert_eq, Hmt. split; by eexists.
    + by rewrite lookup_insert_ne.
Qed.

Lemma tokenize_step_keys py cfm idx self tok mt :
  match tokenize_step py cfm idx self tok with
  | Continue _ self' | Break self' | Raised self' _ =>
      is_Some (related_objects self' !! mt) <-> is_Some (related_objects self !! mt)
  end.
Proof.
  unfold tokenize_step. repeat case_match; simplify_eq; try done.
  cbn [related_objects set_related_objects set_tokenization].
  by eapply record_related_objects_keys.
Qed.

Lemma tokenize_step_derived py cfm idx self tok :
  match tokenize_step py cfm idx self tok with
  | Continue _ self' | Break self' | Raised self' _ => derived self' = derived self
  end.
Proof. unfold tokenize_step. repeat case_match; simplify_eq; done. Qed.

Lemma tokenize_loop_keys py cfm fuel idx self mt :
  is_Some (related_objects (tokenize_loop py cfm fuel idx self).1 !! mt)
  <-> is_Some (related_objects self !! mt).
Proof.
  revert idx self. induction fuel as [|fuel IH]; intros idx self; simpl.
  - by destruct (_py_tokens self !! idx).
  - destruct (_py_tokens self !! idx) as [tok|]; [|done].
    pose proof (tokenize_step_keys py cfm idx self tok mt) as Hstep.
    destruct (tokenize_step py cfm idx self tok) as [idx' self'|self'|self' e]; try done.
    by rewrite IH.
Qed.

Lemma tokenize_loop_derived py cfm fuel idx self :
  derived (tokenize_loop py cfm fuel idx self).1 = derived self.
Proof.
  revert idx self. induction fuel as [|fuel IH]; intros idx self; simpl.
  - by destruct (_py_tokens self !! idx).
  - destruct (_py_tokens self !! idx) as [tok|]; [|done].
    pose proof (tokenize_step_derived py cfm idx self tok) as Hstep.
    destruct (tokenize_step py cfm idx self tok) as [idx' self'|self'|self' e]; try done.
    by rewrite IH.
Qed.

Lemma reset_tokenization_keys self mt :
  is_Some (related_objects (reset_tokenization self) !! mt) <-> mt ∈ term_models self.
Proof.
  cbn [related_objects reset_tokenization set_tokenization].
  rewrite foldl_insert_empty_lookup. case_decide.
  - split; [done|by eexists].
  - rewrite lookup_empty. split; [by intros [? ?]|done].
Qed.

Lemma tokenize_keys py self cfm mt :
  is_Some (related_objects (tokenize py self cfm).1 !! mt) <-> mt ∈ term_models self.
Proof.
  rewrite <- reset_tokenization_keys. unfold tokenize.
  set (self0 := reset_tokenization self).
  case_bool_decide; [done|].
  destruct (foldl _ [] (_py_tokens self0)); [|done].
  pose proof (tokenize_loop_keys py cfm (length (_py_tokens self0)) 0 self0 mt) as Hloop.
  destruct (tokenize_loop _ _ _ _ _) as [self1 [e|]]; [done|].
  simpl in Hloop.
  destruct (errors (set_errors _ self1)); [|done].
  destruct (_compile py _ false) as [[ce ns]|e].
  - by destruct (_compile py _ true) as [[ceu nsu]|e].
  - by destruct e.
Qed.

Lemma tokenize_lin_coeffs py self cfm :
  lin_coeffs (tokenize py self cfm).1 = lin_coeffs (reset_tokenization self).
Proof.
  unfold tokenize. set (self0 := reset_tokenization self).
  case_bool_decide; [done|].
  destruct (foldl _ [] (_py_tokens self0)); [|done].
  pose proof (tokenize_loop_derived py cfm (length (_py_tokens self0)) 0 self0) as Hloop.
  destruct (tokenize_loop _ _ _ _ _) as [self1 [e|]];
    cbn [fst] in *; [by injection Hloop|].
  assert (lin_coeffs self1 = lin_coeffs self0) as Hlc by by injection Hloop.
  destruct (errors (set_errors _ self1)); [|done].
  destruct (_compile py _ false) as [[ce ns]|e].
  - by destruct (_compile py _ true) as [[ceu nsu]|e].
  - by destruct e.
Qed.

(** X16. Whatever [tokenize] returns or raises, it leaves in
    [related_objects] one dictionary for each term model and no other
    key, and in [lin_coeffs] an empty dictionary for each term model. *)
Theorem tokenize_related_keys py self case_fold_match mt :
  (is_Some (related_objects (tokenize py self case_fold_match).1 !! mt)
   <-> mt ∈ term_models self)
  /\ lin_coeffs (tokenize py self case_fold_match).1 !! mt
     = (if decide (mt ∈ term_models self) then Some ∅ else None).
Proof.
  split; [apply tokenize_keys|].
  rewrite tokenize_lin_coeffs.
  cbn [lin_coeffs reset_tokenization set_tokenization].
  rewrite foldl_insert_empty_lookup. by case_decide.
Qed.

(** ** The longest match *)

Lemma pop_while_list_submseteq {A} (p : A -> bool) l : pop_while_list p l ⊆+ l.
Proof.
  induction l as [|x l IH]; [done|]. simpl. destruct (p x).
  - by apply submseteq_skip.
  - apply submseteq_nil_l.
Qed.

Lemma longest_lex_matches_submseteq ms : longest_lex_matches ms ⊆+ ms.
Proof.
  unfold longest_lex_matches.
  destruct (last (sorted num_le ms)) as [l|]; [|apply submseteq_nil_l].
  etrans; [apply pop_while_list_submseteq|].
  apply Permutation_submseteq.
  etrans; [symmetry; apply Permutation_rev|apply sorted_perm].
Qed.


(** X18. After a successful call of [tokenize], every [obj_id] token refers
    to an instance that [objs] holds, under the id of the token, for a term
    model of the expression; so does every related object. *)
Theorem tokenize_tokens_resolved py self case_fold_match :
  succeeded (tokenize py self case_fold_match).2 = true ->
  let self' := (tokenize py self case_fold_match).1 in
  (forall t, t ∈ _obj_tables_tokens self' -> code t = obj_id ->
             exists mt id o,
               mt ∈ term_models self /\ objs_of self mt !! id = Some o
               /\ carries t mt id o)
  /\ (forall mt id o,
        lookup2 (related_objects self') mt id = Some o ->
        mt ∈ term_models self /\ objs_of self mt !! id = Some o).
Proof.
  intros Hs self'.
  pose proof (tokenize_inputs py self case_fold_match) as Hinputs.
  assert (term_models self' = term_models self /\ _objs self' = _objs self)
    as [Htm Hobjs] by (unfold self', inputs in *; split; congruence).
  assert (forall mt, objs_of self' mt = objs_of self mt) as Hof
    by (intros mt; unfold objs_of; by rewrite Hobjs).
  destruct (tokenize_cases py self case_fold_match)
    as [(Hr & He & Hinv)|[(errs & Hr & _)|[[msg Hr]|[msg Hr]]]];
    try (rewrite Hr in Hs; discriminate).
  fold self' in Hinv.
  assert (forall t, t ∈ _obj_tables_tokens self' -> code t = obj_id ->
             exists mt id o,
               mt ∈ term_models self /\ objs_of self mt !! id = Some o
               /\ carries t mt id o) as Htoks.
  { intros t Ht Hc. destruct Hinv as [_ Hres _].
    rewrite Forall_forall in Hres.
    destruct (Hres t Ht Hc) as (mt & id & o & Hmt & Ho & Hcar).
    exists mt, id, o. by rewrite <- Htm, <- Hof. }
  split; [done|]. intros mt id o Hl.
  apply (inv_related _ Hinv) in Hl as (t & Ht & Hcar).
  destruct (Htoks t Ht) as (mt' & id' & o' & Hmt & Ho & Hcar'); [by destruct Hcar|].
  by destruct (carries_inj _ _ _ _ _ _ _ Hcar Hcar') as (-> & -> & ->).
Qed.

(** ** Illegal tokens *)

Lemma bad_tokens_spec (toks : list TokenInfo) acc :
  NoDup acc ->
  NoDup (foldl (fun acc tok =>
                  if bool_decide (exact_type tok ∈ LEGAL_TOKENS) then acc
                  else set_add (bad_token_name tok) acc) acc toks)
  /\ forall b,
       b ∈ foldl (fun acc tok =>
                    if bool_decide (exact_type tok ∈ LEGAL_TOKENS) then acc
                    else set_add (bad_token_name tok) acc) acc toks
       <-> (b ∈ acc \/ exists t, t ∈ toks /\ (exact_type t ∉ LEGAL_TOKENS)
                                 /\ b = bad_token_name t).
Proof.
  revert acc. induction toks as [|tok toks IH]; intros acc Hnd; cbn [foldl].
  - split; [done|]. intros b. split; [auto|].
    intros [?|(t & ?%elem_of_nil & _)]; done.
  - case_bool_decide as Hlegal.
    + destruct (IH acc Hnd) as [Hnd' Hin]. split; [done|]. intros b.
      rewrite Hin. split.
      * intros [?|(t & Ht & Hbad & ->)]; [by left|]. right. exists t.
        split; [by right|done].
      * intros [?|(t & [->|Ht]%elem_of_cons & Hbad & ->)]; [by left|done|].
        right. by exists t.
    + destruct (IH (set_add (bad_token_name tok) acc)) as [Hnd' Hin];
        [by apply set_add_NoDup|].
      split; [done|]. intros b. rewrite Hin, set_add_elem. split.
      * intros [[->|?]|(t & Ht & Hbad & ->)].
        -- right. exists tok. split; [left|done].
        -- by left.
        -- right. exists t. split; [by right|done].
      * intros [?|(t & [->|Ht]%elem_of_cons & Hbad & ->)].
        -- left. by right.
        -- left. by left.
        -- right. by exists t.
Qed.

(** X19. When a token of a non-empty expression is not legal, [tokenize]
    returns a single error that names each illegal token once, by its text
    or else by the name of its type; no token is resolved and nothing is
    compiled. *)
Theorem tokenize_bad_tokens py self case_fold_match tok :
  expression self <> "" ->
  tok ∈ _py_tokens self ->
  exact_type tok ∉ LEGAL_TOKENS ->
  exists bad,
    (tokenize py self case_fold_match).2
    = Ok (None, None,
          Some [where_ self +:+ "contains bad token(s): '"
                +:+ join "', '" bad +:+ "'"])
    /\ NoDup bad
    /\ (forall b, b ∈ bad <->
                  exists t, t ∈ _py_tokens self /\ (exact_type t ∉ LEGAL_TOKENS)
                            /\ b = bad_token_name t)
    /\ _obj_tables_tokens (tokenize py self case_fold_match).1 = []
    /\ _compiled_expression (tokenize py self case_fold_match).1 = None.
Proof.
  intros Hexpr Htok Hbad. unfold tokenize.
  rewrite bool_decide_eq_false_2 by done.
  destruct (bad_tokens_spec (_py_tokens (reset_tokenization self)) [])
    as [Hnd Hin]; [constructor|].
  destruct (foldl _ [] (_py_tokens (reset_tokenization self))) as [|b bad] eqn:Hfold.
  - exfalso. eapply elem_of_nil, Hin. right. by exists tok.
  - exists (b :: bad). cbn [fst snd]. split_and!; try done.
    intros b'. rewrite Hin. split; [|by right].
    by intros [?%elem_of_nil|?].
Qed.

(** ** Expressions without names *)

Lemma set_obj_tables_tokens_same self :
  set_obj_tables_tokens (_obj_tables_tokens self) self = self.
Proof. by destruct self. Qed.

Lemma tokenize_loop_without_names py cfm fuel idx self :
  Forall (fun tok => tok_type tok <> NAME) (_py_tokens self) ->
  length (_py_tokens self) <= fuel + idx ->
  tokenize_loop py cfm fuel idx self
  = (set_obj_tables_tokens
       (_obj_tables_tokens self
        ++ map (fun tok => mk_token (token_code_of tok) (tok_string tok))
               (drop idx (_py_tokens self)))
       self, None).
Proof.
  revert idx self. induction fuel as [|fuel IH]; intros idx self Hall Hlen.
  - rewrite drop_ge by lia. rewrite app_nil_r, set_obj_tables_tokens_same.
    apply tokenize_loop_end. lia.
  - destruct (_py_tokens self !! idx) as [tok|] eqn:Htok.
    2:{ apply lookup_ge_None_1 in Htok. rewrite drop_ge by lia.
        rewrite app_nil_r, set_obj_tables_tokens_same.
        by apply tokenize_loop_end. }
    rewrite (tokenize_loop_unfold _ _ _ _ _ _ Htok). unfold tokenize_step.
    rewrite bool_decide_eq_false_2
      by (eapply (proj1 (Forall_forall _ _) Hall), list_elem_of_lookup_2, Htok).
    cbn [negb]. rewrite IH; [|done|cbn; lia].
    rewrite (drop_S _ _ _ Htok), Nat.add_1_r. cbn [map].
    f_equal. cbn. by rewrite <- app_assoc.
Qed.

Lemma ambiguity_errors_without_names self (toks : list TokenInfo) :
  _obj_tables_tokens self
  = map (fun tok => mk_token (token_code_of tok) (tok_string tok)) toks ->
  ambiguity_errors self = [].
Proof.
  unfold ambiguity_errors. intros ->.
  induction toks as [|tok toks IH]; [done|]. cbn [map flat_map].
  rewrite IH, app_nil_r. cbn [code mk_token]. unfold token_code_of.
  by repeat case_bool_decide.
Qed.

Lemma get_str_without_names self with_units (toks : list TokenInfo) :
  _obj_tables_tokens self
  = map (fun tok => mk_token (token_code_of tok) (tok_string tok)) toks ->
  toks <> [] ->
  get_str self with_units
  = Ok (join " "
          (map (fun tok =>
                  if with_units && bool_decide (token_code_of tok = number)
                  then tok_string tok +:+ " * __dimensionless__"
                  else tok_string tok) toks)).
Proof.
  unfold get_str. intros -> Hne.
  destruct toks as [|tok0 rest]; [done|].
  change (mk_token (token_code_of tok0) (tok_string tok0)
          :: map (fun tok => mk_token (token_code_of tok) (tok_string tok)) rest)
    with (map (fun tok => mk_token (token_code_of tok) (tok_string tok)) (tok0 :: rest)).
  remember (tok0 :: rest) as l eqn:Hl.
  destruct (map _ l) as [|o l'] eqn:Hmap.
  - by subst l.
  - rewrite <- Hmap. f_equal. f_equal. rewrite map_map. apply map_ext. intros tok.
    cbn [code token_string mk_token]. unfold token_code_of.
    destruct with_units; by repeat case_bool_decide.
Qed.

Lemma _compile_returns py self with_units s :
  get_str self with_units = Ok s -> compile_error py s = None ->
  exists ns, _compile py self with_units = Ok (s, ns).
Proof. intros Hs Hc. unfold _compile. rewrite Hs. cbn [bind]. rewrite Hc. by eexists. Qed.

(** X20. An expression without names, whose tokens are all legal, is
    tokenized one Python token at a time: when Python compiles the text,
    with and without units, [tokenize] returns a token of the text of each
    Python token, coded as an operator, a number or another token, and no
    related object. *)
Theorem tokenize_without_names py self case_fold_match :
  expression self <> "" ->
  _py_tokens self <> [] ->
  Forall (fun tok => exact_type tok ∈ LEGAL_TOKENS /\ tok_type tok <> NAME)
         (_py_tokens self) ->
  compile_error py (join " " (map tok_string (_py_tokens self))) = None ->
  compile_error py
    (join " " (map (fun tok =>
                      if bool_decide (token_code_of tok = number)
                      then tok_string tok +:+ " * __dimensionless__"
                      else tok_string tok) (_py_tokens self))) = None ->
  exists related,
    (tokenize py self case_fold_match).2
    = Ok (Some (map (fun tok => mk_token (token_code_of tok) (tok_string tok))
                    (_py_tokens self)),
          Some related, None)
    /\ forall mt id, lookup2 related mt id = None.
Proof.
  intros Hexpr Hne Hall Hc Hcu. unfold tokenize.
  rewrite bool_decide_eq_false_2 by done.
  set (self0 := reset_tokenization self).
  rewrite no_bad_tokens by (eapply Forall_impl; [exact Hall|]; by intros ? [? ?]).
  rewrite tokenize_loop_without_names;
    [|eapply Forall_impl; [exact Hall|]; by intros ? [? ?]|cbn; lia].
  rewrite drop_0. change (_obj_tables_tokens self0) with (@nil ObjTablesToken).
  cbn [app].
  set (toks := map (fun tok => mk_token (token_code_of tok) (tok_string tok))
                   (_py_tokens self0)).
  set (self1 := set_obj_tables_tokens toks self0).
  rewrite (ambiguity_errors_without_names self1 (_py_tokens self0)) by done.
  set (self2 := set_errors (errors self1 ++ []) self1).
  change (errors self2) with (@nil string). cbv iota.
  destruct (_compile_returns py self2 false
              (join " " (map tok_string (_py_tokens self)))) as [ns Hns]; [|done|].
  { apply (get_str_without_names self2 false (_py_tokens self)); done. }
  rewrite Hns.
  destruct (_compile_returns py (set_compiled (Some (join " " (map tok_string (_py_tokens self)))) ns self2) true
              (join " " (map (fun tok =>
                                if bool_decide (token_code_of tok = number)
                                then tok_string tok +:+ " * __dimensionless__"
                                else tok_string tok) (_py_tokens self))))
    as [nsu Hnsu]; [|done|].
  { apply (get_str_without_names _ true (_py_tokens self)); done. }
  rewrite Hnsu. cbn [fst snd]. eexists. split; [reflexivity|].
  intros mt id. unfold lookup2.
  cbn [related_objects set_tokenization set_compiled_with_units set_compiled
         self2 set_errors self1 set_obj_tables_tokens self0 reset_tokenization].
  rewrite foldl_insert_empty_lookup. by case_decide.
Qed.

(** ** The compiled expressions *)

Lemma get_str_set_tokenization self ro lc errs ce ceu ns nsu with_units :
  get_str (set_tokenization self ro lc errs (_obj_tables_tokens self) ce ceu ns nsu)
    with_units
  = get_str self with_units.
Proof. done. Qed.

Lemma _compile_Ok py self with_units s ns :
  _compile py self with_units = Ok (s, ns) ->
  get_str self with_units = Ok s /\ compile_error py s = None.
Proof.
  unfold _compile. destruct (get_str self with_units) as [s'|e]; [|done].
  cbn [bind]. destruct (compile_error py s') eqn:Hc; [done|]. by intros [= <- _].
Qed.

(** The compiled expressions that [tokenize] leaves *)
Lemma tokenize_compiled py self cfm :
  let self' := (tokenize py self cfm).1 in
  let r := (tokenize py self cfm).2 in
  (succeeded r = true
   /\ exists s su,
        _compiled_expression self' = Some s
        /\ _compiled_expression_with_units self' = Some su
        /\ get_str self' false = Ok s /\ get_str self' true = Ok su
        /\ compile_error py s = None /\ compile_error py su = None)
  \/ (succeeded r = false
      /\ _compiled_expression_with_units self' = None
      /\ (is_Some (returned_errors r) -> _compiled_expression self' = None)).
Proof.
  unfold tokenize. set (self0 := reset_tokenization self).
  case_bool_decide; [by right|].
  destruct (foldl _ [] (_py_tokens self0)); [|by right].
  pose proof (tokenize_loop_derived py cfm (length (_py_tokens self0)) 0 self0) as Hloop.
  destruct (tokenize_loop _ _ _ _ _) as [self1 [e|]]; cbn [fst] in Hloop.
  { right. cbn [fst snd]. injection Hloop as _ _ ->. split_and!; try done.
    by intros [? ?]. }
  injection Hloop as _ Hce Hceu.
  set (self2 := set_errors (errors self1 ++ ambiguity_errors self1) self1).
  destruct (errors self2) as [|err errs] eqn:Herrs; [|by right].
  destruct (_compile py self2 false) as [[s ns]|e] eqn:Hc.
  2:{ right. destruct e; cbn [fst snd succeeded returned_errors]; split_and!;
        try done; try (by intros [? ?]). }
  apply _compile_Ok in Hc as [Hs Hcs].
  destruct (_compile py (set_compiled (Some s) ns self2) true) as [[su nsu]|e] eqn:Hcu.
  2:{ right. cbn [fst snd succeeded returned_errors].
      split_and!; try done; try (by intros [? ?]). }
  apply _compile_Ok in Hcu as [Hsu Hcsu].
  left. cbn [fst snd succeeded]. split; [done|]. exists s, su. split_and!; done.
Qed.

Lemma tokenize_expression py self cfm :
  expression (tokenize py self cfm).1 = expression self.
Proof.
  pose proof (tokenize_inputs py self cfm) as H. unfold inputs in H. congruence.
Qed.

Lemma eval_not_compiled py nested fuel self values (with_units : bool) :
  (if with_units then _compiled_expression_with_units self
   else _compiled_expression self) = @None string ->
  eval py nested (S fuel) self values with_units
  = Raise (ParsedExpressionError
             ("Cannot evaluate '" +:+ expression self
              +:+ "', as it not been successfully compiled")).
Proof.
  intros Hnone. cbn [eval]. unfold prepare_namespace.
  destruct with_units; by rewrite Hnone.
Qed.

(** X21. [eval] needs a successful [tokenize]: after a call of [tokenize]
    that returned errors, [eval] raises [ParsedExpressionError], with or
    without units, because no expression was compiled; after a call that
    raised an exception, [eval] with units does.  After a successful call
    the two compiled expressions are the texts of [get_str], and Python
    compiles them. *)
Theorem eval_needs_tokenize py self case_fold_match nested fuel values :
  let self' := (tokenize py self case_fold_match).1 in
  let r := (tokenize py self case_fold_match).2 in
  let not_compiled :=
    Raise (ParsedExpressionError
             ("Cannot evaluate '" +:+ expression self
              +:+ "', as it not been successfully compiled")) in
  (succeeded r = false -> eval py nested (S fuel) self' values true = not_compiled)
  /\ (is_Some (returned_errors r) ->
      forall with_units, eval py nested (S fuel) self' values with_units = not_compiled)
  /\ (succeeded r = true ->
      exists s su,
        _compiled_expression self' = Some s
        /\ _compiled_expression_with_units self' = Some su
        /\ get_str self' false = Ok s /\ get_str self' true = Ok su
        /\ compile_error py s = None /\ compile_error py su = None).
Proof.
  intros self' r not_compiled. unfold not_compiled.
  rewrite <- (tokenize_expression py self case_fold_match). fold self'.
  destruct (tokenize_compiled py self case_fold_match)
    as [[Hs Hc]|(Hs & Hceu & Hce)]; fold self' r in Hs, Hc || fold self' r in Hs, Hceu, Hce.
  - split_and!.
    + intros Hf. by rewrite Hf in Hs.
    + intros [errs Herrs]. destruct r as [[[? ?] [?|]]|]; done.
    + done.
  - split_and!.
    + intros _. by apply eval_not_compiled.
    + intros Herrs with_units. apply eval_not_compiled.
      destruct with_units; auto.
    + intros Ht. by rewrite Ht in Hs.
Qed.

(** ** The name spaces *)

Lemma functions_namespace_lookup (fs : list string) (ns : gmap string ns_entry) name :
  foldl (fun ns f => <[f := NsFunction f]> ns) ns fs !! name
  = if bool_decide (name ∈ fs) then Some (NsFunction name) else ns !! name.
Proof.
  revert ns. induction fs as [|f fs IH]; intros ns; cbn [foldl].
  - rewrite bool_decide_eq_false_2; [done|]. by intros ?%elem_of_nil.
  - rewrite IH. case_bool_decide as Hin.
    + rewrite bool_decide_eq_true_2; [done|]. by right.
    + destruct (decide (f = name)) as [->|Hne].
      * rewrite lookup_insert_eq. rewrite bool_decide_eq_true_2; [done|]. left.
      * rewrite lookup_insert_ne by done. rewrite bool_decide_eq_false_2; [done|].
        intros [?|?]%elem_of_cons; congruence.
Qed.

(** X22. When [_compile] returns, the text is the one [get_str] makes and
    Python compiles it, and the name space holds the valid functions under
    their names and nothing else, except [__dimensionless__] when units are
    asked for and the expression has a unit registry. *)
Theorem _compile_namespace py self with_units s ns :
  _compile py self with_units = Ok (s, ns) ->
  get_str self with_units = Ok s
  /\ compile_error py s = None
  /\ forall name,
       ns !! name
       = if with_units && unit_registry self && bool_decide (name = "__dimensionless__")
         then Some NsDimensionless
         else if bool_decide (name ∈ valid_functions self)
              then Some (NsFunction name) else None.
Proof.
  unfold _compile. destruct (get_str self with_units) as [s'|e]; [|done].
  cbn [bind]. destruct (compile_error py s') eqn:Hc; [done|].
  intros [= <- <-]. split_and!; try done. intros name.
  destruct (with_units && unit_registry self); cbn [andb].
  - case_bool_decide as Hname.
    + subst name. by rewrite lookup_insert_eq.
    + rewrite lookup_insert_ne by done.
      by rewrite functions_namespace_lookup, lookup_empty.
  - by rewrite functions_namespace_lookup, lookup_empty.
Qed.

(** ** The values in the name space of [eval] *)

Lemma ns_set_Ok ns name id v ns' :
  ns_set ns name id v = Ok ns' ->
  exists vals, ns !! name = Some (NsValues vals)
               /\ ns' = <[name := NsValues (set_value vals id v)]> ns.
Proof.
  unfold ns_set. destruct (ns !! name) as [[]|]; try done.
  intros [= <-]. by eexists.
Qed.

Lemma set_values_loop name (l : list (string * Instance)) :
  NoDup l.*1 ->
  forall ns vals ns',
    ns !! name = Some (NsValues vals) ->
    foldl (fun acc '(id, model) =>
             do ns <- acc in ns_set ns name id (inst_value model))
          (Ok ns) l = Ok ns' ->
    (forall name', name' <> name -> ns' !! name' = ns !! name')
    /\ exists vals',
         ns' !! name = Some (NsValues vals')
         /\ (forall id o, (id, o) ∈ l -> iv_items vals' !! id = Some (inst_value o))
         /\ (forall id, id ∉ l.*1 -> iv_items vals' !! id = iv_items vals !! id).
Proof.
  induction l as [|[id0 o0] l IH]; intros Hnd ns vals ns' Hns.
  - intros [= <-]. split; [done|]. exists vals. split_and!; try done.
    by intros id o ?%elem_of_nil.
  - cbn [foldl bind]. rewrite fmap_cons in Hnd. apply NoDup_cons in Hnd as [Hid0 Hnd].
    unfold ns_set at 2. rewrite Hns. intros Hfold.
    destruct (IH Hnd _ (set_value vals id0 (inst_value o0)) _
                (lookup_insert_eq _ _ _) Hfold) as (Hother & vals' & Hv' & Hin & Hout).
    split.
    + intros name' Hne. rewrite Hother by done. by rewrite lookup_insert_ne.
    + exists vals'. split_and!; [done| |].
      * intros id o [[= -> ->]|Hio]%elem_of_cons; [|by apply Hin].
        rewrite Hout by done. cbn. by rewrite lookup_insert_eq.
      * intros id Hid. rewrite fmap_cons, not_elem_of_cons in Hid.
        destruct Hid as [Hne Hid]. rewrite Hout by done. cbn.
        by rewrite lookup_insert_ne.
Qed.

Lemma nested_values_loop (eval_term : ParsedExpression -> result value)
    (nested : Instance -> option ParsedExpression) name
    (l : list (string * Instance)) :
  forall (acc : result (gmap string ns_entry)) ns',
    foldl (fun acc '(id, model) =>
             do ns <- acc in
             match nested model with
             | None =>
                 Raise (OtherException "AttributeError"
                          "'NoneType' object has no attribute '_parsed_expression'")
             | Some sub =>
                 do v <- eval_term sub in
                 ns_set ns name id v
             end)
          acc l = Ok ns' ->
    exists ns, acc = Ok ns
               /\ forall name', name' <> name -> ns' !! name' = ns !! name'.
Proof.
  induction l as [|[id0 o0] l IH]; intros acc ns'; cbn [foldl].
  - intros ->. by eexists.
  - intros (ns1 & Hstep & Hother)%IH. destruct acc as [ns|e]; [|done].
    exists ns. split; [done|]. cbn [bind] in Hstep.
    destruct (nested o0) as [sub|]; [|done].
    destruct (eval_term sub) as [v|]; [|done]. cbn [bind] in Hstep.
    apply ns_set_Ok in Hstep as (vals & _ & ->).
    intros name' Hne. rewrite Hother by done. by rewrite lookup_insert_ne.
Qed.

Lemma ns_get_values (ns : gmap string ns_entry) name vals id v :
  ns !! name = Some (NsValues vals) -> iv_items vals !! id = Some v ->
  ns_get ns name id = Ok v.
Proof. intros Hns Hv. unfold ns_get, get_value. by rewrite Hns, Hv. Qed.

Lemma ns_get_other (ns ns' : gmap string ns_entry) name id :
  ns' !! name = ns !! name -> ns_get ns' name id = ns_get ns name id.
Proof. intros H. unfold ns_get. by rewrite H. Qed.

(** The loop of [eval] over the related objects *)
Lemma related_values_loop (eval_term : ParsedExpression -> result value)
    (nested : Instance -> option ParsedExpression)
    (l : list (ModelType * gmap string Instance)) :
  NoDup (__name__ <$> l.*1) ->
  forall (acc : result (gmap string ns_entry)) ns',
    foldl
      (fun acc '(mt, model_ids) =>
         do ns <- acc in
         if expression_term_model mt then
           foldl
             (fun acc '(id, model) =>
                do ns <- acc in
                match nested model with
                | None =>
                    Raise (OtherException "AttributeError"
                             "'NoneType' object has no attribute '_parsed_expression'")
                | Some sub =>
                    do v <- eval_term sub in
                    ns_set ns (__name__ mt) id v
                end)
             (Ok (<[__name__ mt := NsValues empty_values]> ns))
             (map_to_list model_ids)
         else if expression_term_value mt then
           foldl
             (fun acc '(id, model) =>
                do ns <- acc in
                ns_set ns (__name__ mt) id (inst_value model))
             (Ok (<[__name__ mt := NsValues empty_values]> ns))
             (map_to_list model_ids)
         else Ok ns)
      acc l = Ok ns' ->
    exists ns,
      acc = Ok ns
      /\ (forall name, name ∉ __name__ <$> l.*1 -> ns' !! name = ns !! name)
      /\ forall mt model_ids id o,
           (mt, model_ids) ∈ l -> model_ids !! id = Some o ->
           expression_term_model mt = false -> expression_term_value mt = true ->
           ns_get ns' (__name__ mt) id = Ok (inst_value o).
Proof.
  induction l as [|[mt0 ids0] l IH]; intros Hnd acc ns'; cbn [foldl].
  - intros ->. eexists. split_and!; try done. by intros ? ? ? ? ?%elem_of_nil.
  - rewrite !fmap_cons in Hnd. apply NoDup_cons in Hnd as [Hmt0 Hnd]. cbn [fst] in Hmt0.
    intros (ns1 & Hstep & Hother & Hvals)%(IH Hnd).
    destruct acc as [ns|e]; [|done]. exists ns. split; [done|].
    cbn [bind] in Hstep.
    assert ((forall name, name <> __name__ mt0 -> ns1 !! name = ns !! name)
            /\ (expression_term_model mt0 = false -> expression_term_value mt0 = true ->
                forall id o, ids0 !! id = Some o ->
                             ns_get ns1 (__name__ mt0) id = Ok (inst_value o)))
      as [Hother0 Hvals0].
    { destruct (expression_term_model mt0).
      - apply nested_values_loop in Hstep as (ns0 & [= <-] & Hother0).
        split; [|done]. intros name Hne. rewrite Hother0 by done.
        by rewrite lookup_insert_ne.
      - destruct (expression_term_value mt0).
        + destruct (set_values_loop (__name__ mt0) (map_to_list ids0)
                      (NoDup_fst_map_to_list _) _ empty_values ns1
                      (lookup_insert_eq _ _ _) Hstep)
            as (Hother0 & vals' & Hv' & Hin & _).
          split.
          * intros name Hne. rewrite Hother0 by done. by rewrite lookup_insert_ne.
          * intros _ _ id o Ho. eapply ns_get_values; [exact Hv'|].
            apply Hin. by apply elem_of_map_to_list.
        + injection Hstep as <-. split; [done|]. done. }
    split.
    + intros name Hname. rewrite !fmap_cons, not_elem_of_cons in Hname.
      destruct Hname as [Hne Hname]. cbn [fst] in Hne.
      rewrite Hother by done. by apply Hother0.
    + intros mt ids id o [[= -> ->]|Hin]%elem_of_cons Ho Hm Hv.
      * rewrite (ns_get_other ns1 ns') by (by apply Hother).
        by apply Hvals0.
      * by eapply Hvals.
Qed.

(** X23. Without units, [eval] takes the value of every related object of a
    class with [expression_term_value] from the instance, whatever [values]
    gives for it: when the classes of the related objects have different
    names, the name space in which Python evaluates the compiled expression
    maps the name of the class and the id of the object to the value of the
    instance. *)
Theorem eval_reads_instance_values py nested fuel self values :
  (forall mt mt',
     is_Some (related_objects self !! mt) -> is_Some (related_objects self !! mt') ->
     __name__ mt = __name__ mt' -> mt = mt') ->
  match prepare_namespace (fun sub => eval py nested fuel sub values false)
          nested self values false with
  | Raise e => eval py nested (S fuel) self values false = Raise e
  | Ok (s, ns) =>
      eval py nested (S fuel) self values false
      = match py_eval py s ns with
        | Ok v => Ok v
        | Raise error => Raise (wrap_eval_error self error)
        end
      /\ _compiled_expression self = Some s
      /\ forall mt id o,
           lookup2 (related_objects self) mt id = Some o ->
           expression_term_model mt = false -> expression_term_value mt = true ->
           ns_get ns (__name__ mt) id = Ok (inst_value o)
  end.
Proof.
  intros Hnames. cbn [eval].
  destruct (prepare_namespace _ nested self values false) as [[s ns]|e] eqn:Hprep;
    [|done].
  split; [done|]. revert Hprep. unfold prepare_namespace.
  destruct (_compiled_expression self) as [s'|]; [|done].
  destruct (foldl _ (Ok _) (map_to_list (related_objects self))) as [ns'|e] eqn:Hloop;
    [|done].
  cbn [bind]. intros [= <- <-]. split; [done|].
  apply related_values_loop in Hloop as (ns0 & _ & _ & Hvals).
  - intros mt id o Hl. unfold lookup2 in Hl.
    destruct (related_objects self !! mt) as [ids|] eqn:Hmt; [|done].
    cbn in Hl. apply (Hvals mt ids id o); [|done]. by apply elem_of_map_to_list.
  - apply NoDup_fmap_2_strong; [|apply NoDup_fst_map_to_list].
    intros mt mt' Hmt Hmt' Heq.
    apply list_elem_of_fmap in Hmt as ([mt1 ids1] & -> & Hin%elem_of_map_to_list).
    apply list_elem_of_fmap in Hmt' as ([mt2 ids2] & -> & Hin'%elem_of_map_to_list).
    apply Hnames; [by eexists|by eexists|done].
Qed.

(** ** [__init__] *)

Lemma related_class_named_spec name attributes attr0 :
  match related_class_named name attributes attr0 with
  | (Some related_class, attr') =>
      exists a, a ∈ attributes /\ attribute_related_class a = Some related_class
                /\ __name__ related_class = name /\ attr' = attribute_str a
  | (None, _) =>
      forall a related_class,
        a ∈ attributes -> attribute_related_class a = Some related_class ->
        __name__ related_class <> name
  end.
Proof.
  revert attr0. induction attributes as [|a rest IH]; intros attr0; cbn [related_class_named].
  - by intros a rc ?%elem_of_nil.
  - destruct (attribute_related_class a) as [rc|] eqn:Hrc.
    + case_bool_decide as Hname.
      * exists a. split_and!; try done. left.
      * specialize (IH (attribute_str a)).
        destruct (related_class_named name rest (attribute_str a)) as [[rc'|] attr'].
        -- destruct IH as (a' & Ha' & ?). exists a'. split; [by right|done].
        -- intros a' rc' [->|Ha']%elem_of_cons Hrc'; [congruence|by eapply IH].
    + specialize (IH (attribute_str a)).
      destruct (related_class_named name rest (attribute_str a)) as [[rc'|] attr'].
      * destruct IH as (a' & Ha' & ?). exists a'. split; [by right|done].
      * intros a' rc' [->|Ha']%elem_of_cons Hrc'; [congruence|by eapply IH].
Qed.

Lemma term_models_loop_spec model_cls names tm attr0 :
  NoDup tm ->
  match term_models_loop model_cls names tm attr0 with
  | Ok (tm', attr') =>
      NoDup tm'
      /\ (forall mt, mt ∈ tm -> mt ∈ tm')
      /\ (forall mt, mt ∈ tm' ->
                     mt ∈ tm \/ exists name a, name ∈ names
                                              /\ relationship model_cls name mt a)
      /\ (forall name, name ∈ names ->
                       exists mt a, mt ∈ tm' /\ relationship model_cls name mt a)
      /\ match last names with
         | None => attr' = attr0
         | Some name => exists mt a, relationship model_cls name mt a
                                     /\ attr' = attribute_str a
         end
  | Raise e =>
      exists name,
        name ∈ names
        /\ (forall mt a, ~ relationship model_cls name mt a)
        /\ e = ParsedExpressionError
                 ("Expression term " +:+ name +:+ " must have a relationship to "
                  +:+ class_name model_cls)
  end.
Proof.
  revert tm attr0. induction names as [|name names IH]; intros tm attr0 Hnd;
    cbn [term_models_loop].
  - split_and!; try done; [auto|]. by intros name ?%elem_of_nil.
  - pose proof (related_class_named_spec name (meta_attributes model_cls) attr0) as Hfind.
    destruct (related_class_named name (meta_attributes model_cls) attr0)
      as [[rc|] attr1].
    + destruct Hfind as (a & Ha & Hrc & Hname & ->).
      specialize (IH (set_add rc tm) (attribute_str a) (set_add_NoDup _ _ Hnd)).
      destruct (term_models_loop model_cls names (set_add rc tm) (attribute_str a))
        as [[tm' attr']|e].
      * destruct IH as (Hnd' & Hsub & Hin & Hall & Hlast). split_and!.
        -- done.
        -- intros mt Hmt. apply Hsub, set_add_elem. by right.
        -- intros mt [[-> | Hmt]%set_add_elem|(name' & a' & Hn & Hrel)]%Hin.
           ++ right. exists name, a. split; [left|done].
           ++ by left.
           ++ right. exists name', a'. split; [by right|done].
        -- intros name' [->|Hn]%elem_of_cons; [|by apply Hall].
           exists rc, a. split; [|done]. apply Hsub, set_add_elem. by left.
        -- destruct names as [|name' names'].
           ++ cbn [last] in *. subst attr'. by exists rc, a.
           ++ change (last (name :: name' :: names')) with (last (name' :: names')).
              destruct (last (name' :: names')) eqn:Hl; [exact Hlast|].
              by apply last_None in Hl.
      * destruct IH as (name' & Hn & Hno & ->). exists name'.
        split_and!; [by right|done|done].
    + exists name. split_and!; [left| |done].
      intros mt a (Ha & Hrc & Hname). by eapply Hfind.
Qed.

Lemma init_inversion py c attr0 e objs pe :
  __init__ py c attr0 e objs = Ok pe ->
  exists names attr' s g ur,
    class_is_model c = true
    /\ meta_expression_term_models c = Some names
    /\ term_models_loop c names [] attr0 = Ok (term_models pe, attr')
    /\ meta_expression_unit_registry c = Some ur
    /\ (e = PyStr s \/ e = PyNumber s)
    /\ tokenize_tokenize py (prep_expr_for_tokenization py (strip s)) = inl g
    /\ model_cls pe = model_cls_of c /\ attr pe = attr'
    /\ expression pe = strip s /\ _py_tokens pe = python_tokens g
    /\ _objs pe = objs /\ unit_registry pe = ur
    /\ reset_tokenization pe = pe.
Proof.
  unfold __init__. destruct (class_is_model c); [|done]. cbn [negb].
  destruct (meta_expression_term_models c) as [names|]; [|done].
  destruct (term_models_loop c names [] attr0) as [[tm attr']|] eqn:Hloop; [|done].
  destruct (meta_expression_unit_registry c) as [ur|]; [|done].
  assert (forall s,
            match tokenize_tokenize py (prep_expr_for_tokenization py (strip s)) with
            | inl g =>
                Ok (reset_tokenization
                      {| model_cls := model_cls_of c; attr := attr';
                         expression := strip s;
                         _py_tokens := python_tokens g; _objs := objs;
                         term_models := tm;
                         valid_functions :=
                           match meta_expression_valid_functions c with
                           | Some fs => foldl (fun acc f => set_add f acc) [] fs
                           | None => []
                           end;
                         unit_registry := ur;
                         related_objects := ∅; lin_coeffs := ∅; errors := [];
                         _obj_tables_tokens := [];
                         _compiled_expression := None;
                         _compiled_expression_with_units := None;
                         _compiled_namespace := ∅;
                         _compiled_namespace_with_units := ∅ |})
            | inr e =>
                Raise (ParsedExpressionError
                         ("parsing '" +:+ strip s +:+ "', a "
                          +:+ class_name c +:+ "." +:+ attr'
                          +:+ ", creates a Python syntax error: '"
                          +:+ e +:+ "'"))
            end = Ok pe ->
            exists g,
              tokenize_tokenize py (prep_expr_for_tokenization py (strip s)) = inl g
              /\ term_models pe = tm
              /\ model_cls pe = model_cls_of c /\ attr pe = attr'
              /\ expression pe = strip s /\ _py_tokens pe = python_tokens g
              /\ _objs pe = objs /\ unit_registry pe = ur
              /\ reset_tokenization pe = pe) as Hcase.
  { intros s.
    destruct (tokenize_tokenize py (prep_expr_for_tokenization py (strip s)))
      as [g|]; [|done].
    intros [= <-]. exists g. split_and!; done. }
  destruct e as [s|s|s]; [| |done].
  - intros H. apply Hcase in H as (g & Hg & <- & ? & ? & ? & ? & ? & ? & ?).
    exists names, attr', s, g, ur. split_and!; auto.
  - intros H. apply Hcase in H as (g & Hg & <- & ? & ? & ? & ? & ? & ? & ?).
    exists names, attr', s, g, ur. split_and!; auto.
Qed.

(** X24. [__init__] returns exactly when the class is a model, its [Meta]
    has [expression_term_models] and a unit registry attribute, every named
    term model is the class of a relationship of the class, the expression
    is a string or a number, and Python tokenizes its text. *)
Theorem init_returns py c attr0 e objs :
  (exists pe, __init__ py c attr0 e objs = Ok pe)
  <-> class_is_model c = true
      /\ (exists names,
            meta_expression_term_models c = Some names
            /\ forall name, name ∈ names -> exists mt a, relationship c name mt a)
      /\ is_Some (meta_expression_unit_registry c)
      /\ exists s, (e = PyStr s \/ e = PyNumber s)
                   /\ exists g, tokenize_tokenize py
                                  (prep_expr_for_tokenization py (strip s)) = inl g.
Proof.
  split.
  - intros [pe Hinit].
    destruct (init_inversion _ _ _ _ _ _ Hinit)
      as (names & attr' & s & g & ur & Hm & Hnames & Hloop & Hur & He & Hg & _).
    split_and!; [done| |by eexists|by eauto].
    exists names. split; [done|].
    pose proof (term_models_loop_spec c names [] attr0 (NoDup_nil_2)) as Hspec.
    rewrite Hloop in Hspec. destruct Hspec as (_ & _ & _ & Hall & _).
    intros name (mt & a & _ & Hrel)%Hall. eauto.
  - intros (Hm & (names & Hnames & Hall) & [ur Hur] & s & He & g & Hg).
    unfold __init__. rewrite Hm, Hnames, Hur. cbn [negb].
    pose proof (term_models_loop_spec c names [] attr0 (NoDup_nil_2)) as Hspec.
    destruct (term_models_loop c names [] attr0) as [[tm attr']|err].
    + destruct He as [-> | ->]; rewrite Hg; by eexists.
    + destruct Hspec as (name & Hin & Hno & _).
      destruct (Hall name Hin) as (mt & a & Hrel). by destruct (Hno mt a).
Qed.

(** X25. The parsed expression that [__init__] returns: its term models are
    the classes of the relationships that [Meta.expression_term_models]
    names, one for each name, without duplicates; its related objects are
    an empty dictionary for each term model; it has no tokens, no errors
    and no compiled expression. *)
Theorem init_term_models py c attr0 e objs pe :
  __init__ py c attr0 e objs = Ok pe ->
  exists names,
    meta_expression_term_models c = Some names
    /\ NoDup (term_models pe)
    /\ (forall mt, mt ∈ term_models pe ->
                   exists name a, name ∈ names /\ relationship c name mt a)
    /\ (forall name, name ∈ names ->
                     exists mt a, mt ∈ term_models pe /\ relationship c name mt a)
    /\ (forall mt, related_objects pe !! mt
                   = if decide (mt ∈ term_models pe) then Some ∅ else None)
    /\ _obj_tables_tokens pe = [] /\ errors pe = []
    /\ _compiled_expression pe = None.
Proof.
  intros Hinit.
  destruct (init_inversion _ _ _ _ _ _ Hinit)
    as (names & attr' & s & g & ur & _ & Hnames & Hloop & _ & _ & _ & _ & _ & _
        & _ & _ & _ & Hreset).
  pose proof (term_models_loop_spec c names [] attr0 (NoDup_nil_2)) as Hspec.
  rewrite Hloop in Hspec. destruct Hspec as (Hnd & _ & Hin & Hall & _).
  exists names. split_and!; try done.
  - intros mt [?%elem_of_nil|?]%Hin; done.
  - intros mt. rewrite <- Hreset.
    cbn [related_objects term_models reset_tokenization set_tokenization].
    rewrite foldl_insert_empty_lookup. by case_decide.
  - by rewrite <- Hreset.
  - by rewrite <- Hreset.
  - by rewrite <- Hreset.
Qed.

(** X26. What [__init__] records of its arguments: the expression without
    the whitespace around it, the Python tokens of its text, and as [attr]
    the argument only if the class names no term model; otherwise [attr] is
    the relationship of the class to the last term model, on which the
    loop variable of the same name was left. *)
Theorem init_records py c attr0 e objs pe :
  __init__ py c attr0 e objs = Ok pe ->
  (exists s g,
     (e = PyStr s \/ e = PyNumber s)
     /\ expression pe = strip s
     /\ tokenize_tokenize py (prep_expr_for_tokenization py (strip s)) = inl g
     /\ _py_tokens pe = python_tokens g)
  /\ _objs pe = objs
  /\ match meta_expression_term_models c ≫= last with
     | None => attr pe = attr0
     | Some name =>
         exists mt a, relationship c name mt a /\ attr pe = attribute_str a
     end.
Proof.
  intros Hinit.
  destruct (init_inversion _ _ _ _ _ _ Hinit)
    as (names & attr' & s & g & ur & _ & Hnames & Hloop & _ & He & Hg & _ & Hattr
        & Hexpr & Hpy & Hobjs & _).
  split_and!; [by exists s, g|done|].
  pose proof (term_models_loop_spec c names [] attr0 (NoDup_nil_2)) as Hspec.
  rewrite Hloop in Hspec. destruct Hspec as (_ & _ & _ & _ & Hlast).
  rewrite Hnames. cbn [mbind option_bind]. rewrite Hattr.
  by destruct (last names).
Qed.

Lemma init_declared py c attr0 e objs pe mt :
  __init__ py c attr0 e objs = Ok pe ->
  mt ∈ term_models pe -> mt ∈ expression_term_classes (model_cls pe).
Proof.
  intros Hinit Hmt.
  destruct (init_inversion _ _ _ _ _ _ Hinit)
    as (names & attr' & s & g & ur & _ & Hnames & Hloop & _ & _ & _ & Hcls & _).
  pose proof (term_models_loop_spec c names [] attr0 (NoDup_nil_2)) as Hspec.
  rewrite Hloop in Hspec. destruct Hspec as (_ & _ & Hin & _).
  destruct (Hin mt Hmt) as [?%elem_of_nil|(name & a & Hname & Ha & Hrc & Hn)]; [done|].
  rewrite Hcls. cbn [expression_term_classes model_cls_of].
  apply list_elem_of_omap. exists a. split; [done|].
  rewrite Hrc, Hnames. cbn [default]. rewrite bool_decide_eq_true_2; [done|].
  by rewrite Hn.
Qed.

(** X27. A parsed expression made by [__init__] keeps, before and after
    every call of [tokenize], its related objects under classes that the
    owner declares as term models through a relationship: the classes for
    which [_set_lin_coeffs] makes a dictionary of coefficients. *)
Theorem init_tokenize_declared py c attr0 e objs pe case_fold_match :
  __init__ py c attr0 e objs = Ok pe ->
  related_classes_declared pe
  /\ related_classes_declared (tokenize py pe case_fold_match).1.
Proof.
  intros Hinit.
  assert (model_cls (tokenize py pe case_fold_match).1 = model_cls pe) as Hcls.
  { pose proof (tokenize_inputs py pe case_fold_match) as H.
    unfold inputs in H. congruence. }
  split.
  - intros mt Hmt. apply (init_declared _ _ _ _ _ _ _ Hinit).
    destruct (init_inversion _ _ _ _ _ _ Hinit)
      as (names & attr' & s & g & ur & _ & _ & _ & _ & _ & _ & _ & _ & _ & _ & _
          & _ & Hreset).
    rewrite <- Hreset in Hmt. by apply reset_tokenization_keys in Hmt.
  - intros mt Hmt%tokenize_keys. rewrite Hcls.
    by apply (init_declared _ _ _ _ _ _ _ Hinit).
Qed.

(** ** The values of [test_eval] *)

Lemma values_namespace_lookup (l : list (ModelType * id_values))
    (ns : gmap string ns_entry) d name :
  Forall (fun p => p.2 = d) l ->
  foldl (fun ns '(mt, model_id_values) =>
           <[__name__ mt := NsValues model_id_values]> ns) ns l !! name
  = if bool_decide (name ∈ __name__ <$> l.*1) then Some (NsValues d) else ns !! name.
Proof.
  revert ns. induction l as [|[mt vals] l IH]; intros ns Hall; cbn [foldl].
  - rewrite bool_decide_eq_false_2; [done|]. by intros ?%elem_of_nil.
  - apply Forall_cons in Hall as [Hd Hall]. cbn in Hd. subst vals.
    rewrite IH by done. rewrite !fmap_cons. cbn [fst].
    case_bool_decide as Hin.
    + rewrite bool_decide_eq_true_2; [done|]. by right.
    + destruct (decide (__name__ mt = name)) as [<-|Hne].
      * rewrite lookup_insert_eq. rewrite bool_decide_eq_true_2; [done|]. left.
      * rewrite lookup_insert_ne by done. rewrite bool_decide_eq_false_2; [done|].
        intros [?|?]%elem_of_cons; congruence.
Qed.

(** The loop of [eval] over the related objects leaves the values of the
    classes that have neither [expression_term_model] nor
    [expression_term_value]. *)
Lemma related_values_loop_untouched (eval_term : ParsedExpression -> result value)
    (nested : Instance -> option ParsedExpression)
    (l : list (ModelType * gmap string Instance)) :
  NoDup (__name__ <$> l.*1) ->
  forall (acc : result (gmap string ns_entry)) ns',
    foldl
      (fun acc '(mt, model_ids) =>
         do ns <- acc in
         if expression_term_model mt then
           foldl
             (fun acc '(id, model) =>
                do ns <- acc in
                match nested model with
                | None =>
                    Raise (OtherException "AttributeError"
                             "'NoneType' object has no attribute '_parsed_expression'")
                | Some sub =>
                    do v <- eval_term sub in
                    ns_set ns (__name__ mt) id v
                end)
             (Ok (<[__name__ mt := NsValues empty_values]> ns))
             (map_to_list model_ids)
         else if expression_term_value mt then
           foldl
             (fun acc '(id, model) =>
                do ns <- acc in
                ns_set ns (__name__ mt) id (inst_value model))
             (Ok (<[__name__ mt := NsValues empty_values]> ns))
             (map_to_list model_ids)
         else Ok ns)
      acc l = Ok ns' ->
    exists ns,
      acc = Ok ns
      /\ (forall name, name ∉ __name__ <$> l.*1 -> ns' !! name = ns !! name)
      /\ forall mt model_ids,
           (mt, model_ids) ∈ l ->
           expression_term_model mt = false -> expression_term_value mt = false ->
           ns' !! __name__ mt = ns !! __name__ mt.
Proof.
  induction l as [|[mt0 ids0] l IH]; intros Hnd acc ns'; cbn [foldl].
  - intros ->. eexists. split_and!; try done; by intros ? ? ?%elem_of_nil.
  - rewrite !fmap_cons in Hnd. apply NoDup_cons in Hnd as [Hmt0 Hnd]. cbn [fst] in Hmt0.
    intros (ns1 & Hstep & Hother & Hkeep)%(IH Hnd).
    destruct acc as [ns|e]; [|done]. exists ns. split; [done|].
    cbn [bind] in Hstep.
    assert ((forall name, name <> __name__ mt0 -> ns1 !! name = ns !! name)
            /\ (expression_term_model mt0 = false ->
                expression_term_value mt0 = false -> ns1 = ns))
      as [Hother0 Hkeep0].
    { destruct (expression_term_model mt0).
      - apply nested_values_loop in Hstep as (ns0 & [= <-] & Hother0).
        split; [|done]. intros name Hne. rewrite Hother0 by done.
        by rewrite lookup_insert_ne.
      - destruct (expression_term_value mt0).
        + destruct (set_values_loop (__name__ mt0) (map_to_list ids0)
                      (NoDup_fst_map_to_list _) _ empty_values ns1
                      (lookup_insert_eq _ _ _) Hstep) as (Hother0 & _).
          split; [|done].
          intros name Hne. rewrite Hother0 by done. by rewrite lookup_insert_ne.
        + injection Hstep as <-. done. }
    split.
    + intros name Hname. rewrite !fmap_cons, not_elem_of_cons in Hname.
      destruct Hname as [Hne Hname]. cbn [fst] in Hne.
      rewrite Hother by done. by apply Hother0.
    + intros mt ids [[= -> ->]|Hin]%elem_of_cons Hm Hv.
      * rewrite Hother by done. by rewrite (Hkeep0 Hm Hv).
      * rewrite (Hkeep mt ids Hin Hm Hv). apply Hother0. intros Heq.
        apply Hmt0. rewrite <- Heq. apply list_elem_of_fmap. exists mt.
        split; [done|]. apply list_elem_of_fmap. by exists (mt, ids).
Qed.

(** X28. [test_eval] with a scalar gives this scalar as the value of every
    related object of a class that has neither [expression_term_model] nor
    [expression_term_value]: when the classes of the related objects have
    different names, the name space in which Python evaluates the compiled
    expression, without units, maps the name of the class and the id of
    the object to the scalar. *)
Theorem test_eval_scalar_values py nested fuel self v :
  (forall mt mt',
     is_Some (related_objects self !! mt) -> is_Some (related_objects self !! mt') ->
     __name__ mt = __name__ mt' -> mt = mt') ->
  match prepare_namespace
          (fun sub => eval py nested fuel sub (obj_values self (ScalarValue v)) false)
          nested self (obj_values self (ScalarValue v)) false with
  | Raise e => test_eval py nested (S fuel) self (ScalarValue v) false = Raise e
  | Ok (s, ns) =>
      test_eval py nested (S fuel) self (ScalarValue v) false
      = match py_eval py s ns with
        | Ok r => Ok r
        | Raise error => Raise (wrap_eval_error self error)
        end
      /\ forall mt id o,
           lookup2 (related_objects self) mt id = Some o ->
           expression_term_model mt = false -> expression_term_value mt = false ->
           ns_get ns (__name__ mt) id = Ok (scalar_value v)
  end.
Proof.
  intros Hnames. unfold test_eval. cbn [eval].
  destruct (prepare_namespace _ nested self _ false) as [[s ns]|e] eqn:Hprep;
    [|done].
  split; [done|]. revert Hprep. unfold prepare_namespace.
  destruct (_compiled_expression self) as [s'|]; [|done].
  destruct (foldl _ (Ok _) (map_to_list (related_objects self))) as [ns'|e] eqn:Hloop;
    [|done].
  cbn [bind]. intros [= <- <-].
  apply related_values_loop_untouched in Hloop as (ns0 & [= <-] & _ & Hkeep).
  - intros mt id o Hl Hm Hv. unfold lookup2 in Hl.
    destruct (related_objects self !! mt) as [ids|] eqn:Hmt; [|done].
    unfold ns_get. rewrite (Hkeep mt ids) by (done || by apply elem_of_map_to_list).
    rewrite (values_namespace_lookup _ _ (constant_dict v)).
    + rewrite bool_decide_eq_true_2; [done|].
      apply list_elem_of_fmap. exists mt. split; [done|].
      apply list_elem_of_fmap. exists (mt, constant_dict v). split; [done|].
      cbn [obj_values]. apply list_elem_of_fmap. exists (mt, ids).
      split; [done|]. by apply elem_of_map_to_list.
    + cbn [obj_values]. apply Forall_forall.
      intros p ([mt' ids'] & -> & _)%list_elem_of_fmap. done.
  - apply NoDup_fmap_2_strong; [|apply NoDup_fst_map_to_list].
    intros mt mt' Hmt Hmt' Heq.
    apply list_elem_of_fmap in Hmt as ([mt1 ids1] & -> & Hin%elem_of_map_to_list).
    apply list_elem_of_fmap in Hmt' as ([mt2 ids2] & -> & Hin'%elem_of_map_to_list).
    apply Hnames; [by eexists|by eexists|done].
Qed.

(** * The claims on the examples *)

Import Examples.



(** [log(p_1)] is not linear. *)
Lemma validate_rejects_nonlinear_nodes_witness :
  exists errors,
    (validate python new_validator pe_log true).2
    = Ok (false, Some ("contains invalid terms " +:+ str_of_set errors)).
Proof.
  apply (validate_rejects_nonlinear_nodes python new_validator pe_log true
           (Node Call [Name "log"; Name "p_1"])
           (NAst (Node Call [Name "log"; Name "p_1"]))).
  - apply related_classes_declared_check. vm_compute. reflexivity.
  - vm_compute. discriminate.
  - vm_compute. reflexivity.
  - constructor.
  - exact I.
Defined.

(** [-p_1 - 2 * (p_1 + p_2 + p_1)] *)
Lemma normalize_refines_fixpoint_passes_witness :
  exists t',
    normalize (BinOp (UnaryOp USub (Name "p_1")) Sub
                 (BinOp (int 2) Mult
                    (BinOp (BinOp (Name "p_1") Add (Name "p_2")) Add (Name "p_1"))))
    = Some t'
    /\ normalize_to_fixpoints
         (BinOp (UnaryOp USub (Name "p_1")) Sub
            (BinOp (int 2) Mult
               (BinOp (BinOp (Name "p_1") Add (Name "p_2")) Add (Name "p_1"))))
       = Some t'.
Proof. apply normalize_refines_fixpoint_passes. vm_compute. reflexivity. Defined.



(** The related objects of [2 * p_1 - 3 * p_1] *)
Lemma tokenize_related_objects_witness :
  lookup2 (related_objects pe_difference) ParameterCls "p_1" = Some p_1 <->
  exists t, t ∈ _obj_tables_tokens pe_difference /\ carries t ParameterCls "p_1" p_1.
Proof.
  apply (tokenize_related_objects python
           (parsed_expression "2 * p_1 - 3 * p_1"
              [tok NUMBER NUMBER "2" 0; tok OP STAR "*" 2; tok NAME NAME "p_1" 4;
               tok OP MINUS "-" 8; tok NUMBER NUMBER "3" 10; tok OP STAR "*" 12;
               tok NAME NAME "p_1" 14] [ParameterCls] objs) false).
  vm_compute. reflexivity.
Defined.







(** Outside the linear form the recorded coefficients can differ from the
    signed sums: for [p_1 - (p_2 + p_1 + p_2)], [validate] returns
    [is_linear = True] and records 2 for [p_1] and 0 for [p_2], where the
    signed sums are 0 and -2. *)
Lemma nested_difference_coefficients :
  (validate python new_validator pe_nested_difference true).2 = Ok (true, None)
  /\ lookup2 (lin_coeffs (validate python new_validator pe_nested_difference true).1.2)
       ParameterCls p_1 = Some (Coeff 2)
  /\ lookup2 (lin_coeffs (validate python new_validator pe_nested_difference true).1.2)
       ParameterCls p_2 = Some (Coeff 0).
Proof. split_and!; vm_compute; reflexivity. Qed.

(** * Examples of the further properties *)

(** [(p_1 + 2) * (p_2 - 3)] *)
Lemma dist_mult_distributes_witness :
  _dist_mult (BinOp (BinOp (Name "p_1") Add (int 2)) Mult
                    (BinOp (Name "p_2") Sub (int 3)))
  = Some (BinOp (BinOp (BinOp (Name "p_1") Mult (Name "p_2")) Sub
                       (BinOp (Name "p_1") Mult (int 3)))
                Add
                (BinOp (BinOp (int 2) Mult (Name "p_2")) Sub
                       (BinOp (int 2) Mult (int 3)))).
Proof.
  destruct (dist_mult_distributes
              (BinOp (BinOp (Name "p_1") Add (int 2)) Mult
                     (BinOp (Name "p_2") Sub (int 3))))
    as (t' & Ht & _); [reflexivity|].
  rewrite Ht. f_equal. apply (inj Some). rewrite <- Ht. vm_compute. reflexivity.
Defined.

(** [-p_1 - 2 * (p_1 + p_2)] has the value of [-3 * p_1 + -2 * p_2] *)
Lemma normalize_preserves_value_witness :
  exists t',
    normalize (BinOp (UnaryOp USub (Name "p_1")) Sub
                 (BinOp (int 2) Mult (BinOp (Name "p_1") Add (Name "p_2"))))
    = Some t'
    /\ forall env, ast_value env t'
                   = Some (- env "p_1" - 2 * (env "p_1" + env "p_2"))%Z.
Proof.
  destruct (normalize_preserves_value
              (BinOp (UnaryOp USub (Name "p_1")) Sub
                 (BinOp (int 2) Mult (BinOp (Name "p_1") Add (Name "p_2")))))
    as (t' & Ht & _ & _ & Hv); [vm_compute; reflexivity|].
  exists t'. split; [exact Ht|]. intros env. rewrite Hv. reflexivity.
Defined.

(** The ids [2x] and [3y] from a new validator *)
Lemma opaque_ids_distinct_witness :
  (_convert_model_id_to_python_id python new_validator "2x").2
  <> (_convert_model_id_to_python_id python
        (_convert_model_id_to_python_id python new_validator "2x").1 "3y").2
  /\ opaque_ids_wf
       (_convert_model_id_to_python_id python
          (_convert_model_id_to_python_id python new_validator "2x").1 "3y").1.
Proof.
  apply (opaque_ids_distinct python new_validator "2x" "3y").
  - apply new_validator_wf.
  - reflexivity.
  - reflexivity.
  - discriminate.
Defined.

(** After the conversion of [2x] by a new validator, [opaque_model_id_1]
    stands for [2x]. *)
Lemma original_id_round_trip_witness :
  original_id (_convert_model_id_to_python_id python new_validator "2x").1
    "opaque_model_id_1" = "2x".
Proof.
  apply (original_id_round_trip
           (_convert_model_id_to_python_id python new_validator "2x").1).
  - apply _convert_model_id_to_python_id_wf, new_validator_wf.
  - vm_compute. reflexivity.
Defined.

(** The validation of [2 * p_1 - 3 * p_1] by a new validator *)
Lemma validate_keeps_opaque_ids_witness :
  opaque_ids_wf (validate python new_validator pe_difference true).1.1
  /\ (forall id o,
        opaque_ids new_validator !! id = Some o ->
        opaque_ids (validate python new_validator pe_difference true).1.1 !! id
        = Some o)
  /\ (forall t,
        t ∈ _obj_tables_tokens pe_difference -> code t = obj_id ->
        python_identifier python (default "" (model_id t)) = false ->
        exists o,
          opaque_ids (validate python new_validator pe_difference true).1.1
            !! default "" (model_id t) = Some o
          /\ original_id (validate python new_validator pe_difference true).1.1 o
             = default "" (model_id t)).
Proof.
  apply (validate_keeps_opaque_ids python new_validator pe_difference true).
  apply new_validator_wf.
Defined.

(** [p_1 * 2] *)
Lemma validate_not_linear_coefficients_witness :
  (validate python new_validator pe_coeff_right true).2
  = Ok (false, Some "expression 'p_1 * 2' contains a constant right of a var in a product")
  /\ lookup2 (lin_coeffs (validate python new_validator pe_coeff_right true).1.2)
       ParameterCls p_1 = Some NaN.
Proof.
  destruct (validate_not_linear_coefficients python new_validator pe_coeff_right
              (Some "expression 'p_1 * 2' contains a constant right of a var in a product"))
    as (Hv & _ & Hc).
  - apply related_classes_declared_check. vm_compute. reflexivity.
  - vm_compute. reflexivity.
  - split; [exact Hv|]. apply (Hc ParameterCls "p_1" p_1). vm_compute. reflexivity.
Defined.



(** [2 * p_1 - 3 * p_1] *)
Lemma tokenize_tokens_resolved_witness :
  (forall t, t ∈ _obj_tables_tokens (tokenize python pe_difference false).1 ->
             code t = obj_id ->
             exists mt id o,
               mt ∈ term_models pe_difference
               /\ objs_of pe_difference mt !! id = Some o
               /\ carries t mt id o)
  /\ (forall mt id o,
        lookup2 (related_objects (tokenize python pe_difference false).1) mt id
        = Some o ->
        mt ∈ term_models pe_difference /\ objs_of pe_difference mt !! id = Some o).
Proof.
  apply (tokenize_tokens_resolved python pe_difference false).
  vm_compute. reflexivity.
Defined.

(** [p_1 @ 2 @ 3] has the illegal token [@], twice. *)
Lemma tokenize_bad_tokens_witness :
  exists bad,
    (tokenize python pe_at false).2
    = Ok (None, None,
          Some [where_ pe_at +:+ "contains bad token(s): '"
                +:+ join "', '" bad +:+ "'"])
    /\ NoDup bad
    /\ (forall b, b ∈ bad <->
                  exists t, t ∈ _py_tokens pe_at /\ (exact_type t ∉ LEGAL_TOKENS)
                            /\ b = bad_token_name t)
    /\ _obj_tables_tokens (tokenize python pe_at false).1 = []
    /\ _compiled_expression (tokenize python pe_at false).1 = None.
Proof.
  apply (tokenize_bad_tokens python pe_at false (tok OP (OtherOp "AT") "@" 4)).
  - vm_compute. discriminate.
  - right. left.
  - apply (bool_decide_unpack _). vm_compute. exact I.
Defined.

(** [2 * 3] *)
Lemma tokenize_without_names_witness :
  exists related,
    (tokenize python pe_numbers false).2
    = Ok (Some [mk_token number "2"; mk_token op "*"; mk_token number "3"],
          Some related, None)
    /\ forall mt id, lookup2 related mt id = None.
Proof.
  apply (tokenize_without_names python pe_numbers false).
  - vm_compute. discriminate.
  - vm_compute. discriminate.
  - repeat constructor; try (apply (bool_decide_unpack _); vm_compute; exact I);
      vm_compute; discriminate.
  - reflexivity.
  - reflexivity.
Defined.

(** The expression [2 * p_1 - 3 * p_1], compiled with units *)
Lemma _compile_namespace_witness :
  get_str pe_difference true
  = Ok ("2 * __dimensionless__ * Parameter[" +:+ dquote +:+ "p_1" +:+ dquote
        +:+ "] - 3 * __dimensionless__ * Parameter[" +:+ dquote +:+ "p_1"
        +:+ dquote +:+ "]")
  /\ compile_error python
       ("2 * __dimensionless__ * Parameter[" +:+ dquote +:+ "p_1" +:+ dquote
        +:+ "] - 3 * __dimensionless__ * Parameter[" +:+ dquote +:+ "p_1"
        +:+ dquote +:+ "]") = None
  /\ forall name,
       (<["__dimensionless__" := NsDimensionless]>
          (<["exp" := NsFunction "exp"]> (<["log" := NsFunction "log"]> ∅))
        : gmap string ns_entry) !! name
       = if true && unit_registry pe_difference
            && bool_decide (name = "__dimensionless__")
         then Some NsDimensionless
         else if bool_decide (name ∈ valid_functions pe_difference)
              then Some (NsFunction name) else None.
Proof.
  apply (_compile_namespace python pe_difference true). reflexivity.
Defined.

(** The expression [2 * p_1 - 3 * p_1], evaluated without values: the
    value of [p_1] is the one of the instance. *)
Lemma eval_reads_instance_values_witness :
  match prepare_namespace (fun sub => eval python (fun _ => None) 0 sub [] false)
          (fun _ => None) pe_difference [] false with
  | Raise e => eval python (fun _ => None) 1 pe_difference [] false = Raise e
  | Ok (s, ns) =>
      eval python (fun _ => None) 1 pe_difference [] false
      = match py_eval python s ns with
        | Ok v => Ok v
        | Raise error => Raise (wrap_eval_error pe_difference error)
        end
      /\ _compiled_expression pe_difference = Some s
      /\ forall mt id o,
           lookup2 (related_objects pe_difference) mt id = Some o ->
           expression_term_model mt = false -> expression_term_value mt = true ->
           ns_get ns (__name__ mt) id = Ok (inst_value o)
  end.
Proof.
  apply (eval_reads_instance_values python (fun _ => None) 0 pe_difference []).
  unfold pe_difference, tokenized. intros mt mt' Hmt Hmt' _.
  apply tokenize_keys in Hmt, Hmt'.
  apply list_elem_of_singleton in Hmt, Hmt'. congruence.
Defined.

(** [ParsedExpression(FunctionExpression, 'expression', ' p_2 ', objs)] *)
Lemma init_term_models_witness :
  exists names,
    meta_expression_term_models FunctionExpressionClass = Some names
    /\ NoDup (term_models pe_init)
    /\ (forall mt, mt ∈ term_models pe_init ->
                   exists name a, name ∈ names
                                  /\ relationship FunctionExpressionClass name mt a)
    /\ (forall name, name ∈ names ->
                     exists mt a, mt ∈ term_models pe_init
                                  /\ relationship FunctionExpressionClass name mt a)
    /\ (forall mt, related_objects pe_init !! mt
                   = if decide (mt ∈ term_models pe_init) then Some ∅ else None)
    /\ _obj_tables_tokens pe_init = [] /\ errors pe_init = []
    /\ _compiled_expression pe_init = None.
Proof.
  apply (init_term_models python FunctionExpressionClass "expression"
           (PyStr " p_2 ") objs pe_init).
  reflexivity.
Defined.

(** The [attr] of this parsed expression is the relationship to
    [Observable], the last term model, and not ['expression']. *)
Lemma init_records_witness :
  exists mt a,
    relationship FunctionExpressionClass "Observable" mt a
    /\ attr pe_init = attribute_str a.
Proof.
  destruct (init_records python FunctionExpressionClass "expression"
              (PyStr " p_2 ") objs pe_init) as (_ & _ & Hattr).
  - reflexivity.
  - exact Hattr.
Defined.

Lemma init_tokenize_declared_witness :
  related_classes_declared pe_init
  /\ related_classes_declared (tokenize python pe_init false).1.
Proof.
  apply (init_tokenize_declared python FunctionExpressionClass "expression"
           (PyStr " p_2 ") objs pe_init false).
  reflexivity.
Defined.

(** The expression [o_1], whose class [Observable] gives no value of its
    own *)
Lemma test_eval_scalar_values_witness :
  match prepare_namespace
          (fun sub => eval python (fun _ => None) 0 sub
                        (obj_values pe_observable (ScalarValue (ScalarNum 1))) false)
          (fun _ => None) pe_observable
          (obj_values pe_observable (ScalarValue (ScalarNum 1))) false with
  | Raise e =>
      test_eval python (fun _ => None) 1 pe_observable (ScalarValue (ScalarNum 1)) false
      = Raise e
  | Ok (s, ns) =>
      test_eval python (fun _ => None) 1 pe_observable (ScalarValue (ScalarNum 1)) false
      = match py_eval python s ns with
        | Ok r => Ok r
        | Raise error => Raise (wrap_eval_error pe_observable error)
        end
      /\ forall mt id o,
           lookup2 (related_objects pe_observable) mt id = Some o ->
           expression_term_model mt = false -> expression_term_value mt = false ->
           ns_get ns (__name__ mt) id = Ok (VNum 1)
  end.
Proof.
  apply (test_eval_scalar_values python (fun _ => None) 0 pe_observable (ScalarNum 1)).
  unfold pe_observable, tokenized. intros mt mt' Hmt Hmt' _.
  apply tokenize_keys in Hmt, Hmt'.
  apply list_elem_of_singleton in Hmt, Hmt'. congruence.
Defined.
